(** * FileStorage (index.js): a shallow embedding and its properties

    The program is a small Node.js class, [FileStorage], that saves and
    reads named files either in a local directory or through listeners
    registered on the ['save'] and ['read'] events.

    The embedding follows index.js function by function: the methods are
    written in a state-and-exception monad over a world made of the
    store, the filesystem, the trace of what was done and the
    asynchronous operations in flight; callbacks are defunctionalised;
    the event loop completes the operations in flight in an order given
    as a parameter, so that a property proved for every order holds
    however the operations race.

    What index.js calls but does not define (Node's [fs] and [events]
    modules, the [async] package, the listeners themselves) is the
    environment; it is modelled in the first half of the file, and every
    modelling choice is stated where it is made.  The second half proves
    the properties, C1 to C10. *)

From Stdlib Require Import ZArith NArith.
From Stdlib.Strings Require Import Ascii String Byte.
From stdpp Require Import base option list strings gmap.

Local Open Scope string_scope.
Local Open Scope list_scope.
Local Open Scope nat_scope.
Set Warnings "-register-all".

(** ** JavaScript values *)

(** Error codes of the filesystem calls. *)
Inductive errno := ENOENT | ENOTDIR | EISDIR | EEXIST.

(** The JavaScript values that flow through callbacks.  [VError] is
    [new Error(msg)]; [VTypeError] is a [TypeError] of Node with its
    code; [VErrno] is the error object [fs] hands to a callback or
    throws, with its [code] and [path] properties, and [VErrnoNoPath]
    such an error without [path] property; [VRespError] and
    [VRespContents] are the two shapes of the object built in
    [readFiles] (index.js:111-117). *)
Inductive value :=
  | VUndefined
  | VNull
  | VBool (b : bool)
  | VNum (n : Z)
  | VStr (s : string)
  | VBuffer (b : list byte)
  | VError (msg : string)
  | VTypeError (code : string)
  | VErrno (code : errno) (path : string)
  | VErrnoNoPath (code : errno)
  | VRespError (filename : string) (error : value)
  | VRespContents (filename : string) (contents : value)
  | VArray (l : list value).

(** JavaScript truthiness, as used by [if(err)] and [err || null]. *)
Definition truthy (v : value) : bool :=
  match v with
  | VUndefined | VNull => false
  | VBool b => b
  | VNum n => negb (n =? 0)%Z
  | VStr s => negb (String.eqb s "")
  | _ => true
  end.

(** [a || b] *)
Definition js_or (a b : value) : value := if truthy a then a else b.

(** [args[i]], [undefined] when the argument was not passed. *)
Definition arg (i : nat) (args : list value) : value :=
  nth i args VUndefined.

(** [arr[i] = v] on a JavaScript array: in range it overwrites, out of
    range it extends the array, leaving holes that read as [undefined]. *)
Definition array_set (i : nat) (v : value) (arr : list value) : list value :=
  if decide (i < length arr) then <[i:=v]> arr
  else arr ++ replicate (i - length arr) VUndefined ++ [v].

(** The values the [directory] property takes: [null] (the value
    [isEnabled] tests for), [undefined] (the constructor called without
    an argument) and a string (the documented parameter type). *)
Inductive dirvalue :=
  | DNull
  | DUndefined
  | DStr (s : string).

(** [!dir] *)
Definition dir_falsy (d : dirvalue) : bool :=
  match d with
  | DStr s => String.eqb s ""
  | _ => true
  end.

(** String conversion in [this.directory + '/' + filename]. *)
Definition dir_to_string (d : dirvalue) : string :=
  match d with
  | DNull => "null"
  | DUndefined => "undefined"
  | DStr s => s
  end.

(** The [contents] argument of [saveFile]: [{Buffer|string}]. *)
Inductive contents :=
  | CString (s : string)
  | CBuffer (b : list byte).

(** ** Strings

    JavaScript strings are modelled by [string]: sequences of code units
    below 256.  On that range UTF-8 is one byte below 128 and two bytes
    from 128 on. *)

Definition utf8_char (c : ascii) : list byte :=
  let n := N_of_ascii c in
  if (n <? 128)%N then [byte_of_ascii c]
  else
    match Byte.of_N (192 + N.shiftr n 6), Byte.of_N (128 + N.land n 63) with
    | Some hi, Some lo => [hi; lo]
    | _, _ => []
    end.

Fixpoint utf8_encode (s : string) : list byte :=
  match s with
  | EmptyString => []
  | String c rest => utf8_char c ++ utf8_encode rest
  end.

(** [typeof contents === 'string' ? new Buffer(contents, 'utf8') : contents]
    (index.js:51-53). *)
Definition to_buffer (c : contents) : list byte :=
  match c with
  | CString s => utf8_encode s
  | CBuffer b => b
  end.



Definition slash : ascii := "/"%char.
Definition backslash : ascii := "092"%char.

(** [s.replace(/\\/g, '/')] *)
Fixpoint replace_backslashes (s : string) : string :=
  match s with
  | EmptyString => EmptyString
  | String c rest =>
      String (if Ascii.eqb c backslash then slash else c) (replace_backslashes rest)
  end.

(** [s.split(sep)] for a one-character separator; the empty string
    splits into one empty segment. *)
Fixpoint split_on (sep : ascii) (s : string) : list string :=
  match s with
  | EmptyString => [EmptyString]
  | String c rest =>
      if Ascii.eqb c sep then EmptyString :: split_on sep rest
      else
        match split_on sep rest with
        | [] => [String c EmptyString]
        | seg :: segs => String c seg :: segs
        end
  end.

Definition is_empty (s : string) : bool := String.eqb s "".

(** ** The filesystem ([fs])

    A tree of directories and regular files, without links, permission
    checks or quotas.  A node is addressed by the list of its segments
    from the root, innermost first; the root is the empty list and is
    always a directory.  Paths are resolved as POSIX does: relative
    paths start at the working directory, every segment but the last
    must be an existing directory, empty segments and [.] stay in place,
    [..] goes to the parent.  A backslash is an ordinary character. *)

Inductive node :=
  | Dir (mode : N)
  | File (data : list byte).

Record filesystem := Filesystem {
  cwd : list string;
  nodes : gmap (list string) node
}.

Definition node_at (t : gmap (list string) node) (p : list string) : option node :=
  match p with
  | [] => Some (Dir 493)
  | _ => t !! p
  end.

Fixpoint walk (t : gmap (list string) node) (cur : list string)
    (segs : list string) : errno + list string :=
  match segs with
  | [] => inr cur
  | s :: rest =>
      match node_at t cur with
      | None => inl ENOENT
      | Some (File _) => inl ENOTDIR
      | Some (Dir _) =>
          if is_empty s || String.eqb s "." then walk t cur rest
          else if String.eqb s ".." then walk t (tail cur) rest
          else walk t (s :: cur) rest
      end
  end.

Definition start_of (fs : filesystem) (p : string) : list string :=
  match p with
  | String c _ => if Ascii.eqb c slash then [] else cwd fs
  | EmptyString => cwd fs
  end.

(** The node address a path resolves to (the node itself may be absent). *)
Definition resolve (fs : filesystem) (p : string) : errno + list string :=
  if is_empty p then inl ENOENT
  else walk (nodes fs) (start_of fs p) (split_on slash p).

Definition stat (fs : filesystem) (p : string) : errno + node :=
  match resolve fs p with
  | inl e => inl e
  | inr cur =>
      match node_at (nodes fs) cur with
      | None => inl ENOENT
      | Some n => inr n
      end
  end.

(** [fs.existsSync(p)] *)
Definition exists_path (fs : filesystem) (p : string) : bool :=
  match stat fs p with
  | inr _ => true
  | inl _ => false
  end.

Fixpoint unsnoc {A} (l : list A) : option (list A * A) :=
  match l with
  | [] => None
  | x :: rest =>
      match unsnoc rest with
      | None => Some ([], x)
      | Some (init, y) => Some (x :: init, y)
      end
  end.

Fixpoint strip_trailing_empty (l : list string) : list string :=
  match l with
  | [] => []
  | s :: rest =>
      match strip_trailing_empty rest with
      | [] => if is_empty s then [] else [s]
      | r => s :: r
      end
  end.

Definition is_dot (s : string) : bool := String.eqb s "." || String.eqb s "..".

(** [mkdir(2)]: trailing separators are ignored, the parent must be an
    existing directory and the path itself must not exist. *)
Definition mkdir (fs : filesystem) (p : string) (mode : N) : errno + filesystem :=
  if is_empty p then inl ENOENT
  else
    match unsnoc (strip_trailing_empty (split_on slash p)) with
    | None => inl EEXIST
    | Some (init, name) =>
        match walk (nodes fs) (start_of fs p) init with
        | inl e => inl e
        | inr cur =>
            match node_at (nodes fs) cur with
            | None => inl ENOENT
            | Some (File _) => inl ENOTDIR
            | Some (Dir _) =>
                if is_dot name then inl EEXIST
                else
                  match node_at (nodes fs) (name :: cur) with
                  | Some _ => inl EEXIST
                  | None =>
                      inr (Filesystem (cwd fs) (<[name :: cur := Dir mode]> (nodes fs)))
                  end
            end
        end
    end.

(** What [open(2)] resolves of a path that ends in a separator before
    it looks at the last component: the segments before that component. *)
Definition parent_segs (init : list string) : list string :=
  match unsnoc (strip_trailing_empty init) with
  | Some (init', _) => init'
  | None => []
  end.

(** [open(2)] with [O_WRONLY|O_CREAT|O_TRUNC] followed by the write: the
    file is created or replaced as a whole.  A path that ends in a
    separator is refused with [EISDIR] once the directory of its last
    component is resolved, whatever that component is. *)
Definition write_file (fs : filesystem) (p : string) (data : list byte)
    : errno + filesystem :=
  if is_empty p then inl ENOENT
  else
    match unsnoc (split_on slash p) with
    | None => inl ENOENT
    | Some (init, name) =>
        match walk (nodes fs) (start_of fs p)
                (if is_empty name then parent_segs init else init) with
        | inl e => inl e
        | inr cur =>
            match node_at (nodes fs) cur with
            | None => inl ENOENT
            | Some (File _) => inl ENOTDIR
            | Some (Dir _) =>
                if is_empty name || is_dot name then inl EISDIR
                else
                  match node_at (nodes fs) (name :: cur) with
                  | Some (Dir _) => inl EISDIR
                  | _ =>
                      inr (Filesystem (cwd fs) (<[name :: cur := File data]> (nodes fs)))
                  end
            end
        end
    end.

Definition read_file (fs : filesystem) (p : string) : errno + list byte :=
  match stat fs p with
  | inl e => inl e
  | inr (Dir _) => inl EISDIR
  | inr (File data) => inr data
  end.

(** The error [fs.readFile] hands to its callback.  It opens the path,
    which fails with an error that carries the path, and then reads,
    which fails on a directory, with an error that carries none. *)
Definition read_error (e : errno) (path : string) : value :=
  match e with
  | EISDIR => VErrnoNoPath EISDIR
  | _ => VErrno e path
  end.

(** ** The store, callbacks and the event loop *)

(** A listener stands for the handler an application registers with
    [on('save', ...)] or [on('read', ...)].  It is modelled by the
    arguments it passes to the completion callback it is given (an error
    value for ['save'], an error value and the data for ['read']) and by
    when it makes that call: before it returns to [emit] ([Now]) or on a
    later turn of the event loop ([Later]).  It calls the callback once,
    lets through an exception the callback throws, and does not call
    back into the store. *)
Inductive timing := Now | Later.

#[global] Instance timing_eq_dec : EqDecision timing.
Proof. solve_decision. Defined.

Record save_handler := SaveHandler {
  save_timing : timing;
  save_answer :> string → list byte → value
}.

Record read_handler := ReadHandler {
  read_timing : timing;
  read_answer :> string → value * value
}.

(** The object built by [FileStorage(directory)] (index.js:12-26) with
    the listener lists its [EventEmitter] part holds.
    [_directoryCreated] is [null] ([None]), [false] or [true]. *)
Record FileStorage := {
  _directory : dirvalue;
  _directoryCreated : option bool;
  save_listeners : list save_handler;
  read_listeners : list read_handler
}.

(** Callbacks, defunctionalised: a function supplied by the caller
    ([User], told apart by a number), the closure [saveFile] passes to
    [emit('save', ...)] (index.js:56-60), the closure [readFiles] passes
    to [readFile] (index.js:110-120), and the per-item callbacks
    [Async.each] and [Async.map] hand to their iterator. *)
Inductive callback :=
  | User (id : nat)
  | SaveReply (cb : option callback)
  | ReadReply (filename : string) (cb : callback)
  | EachDone (i : nat)
  | MapDone (i : nat).

(** The callback [Async.each] reports to: the caller's function
    ([saveFiles]) or the closure of [Async.map] that adds the results
    array ([readFiles]). *)
Inductive final_callback :=
  | EachFinal (id : nat)
  | MapFinal (id : nat).

(** The state [Async.each] keeps for a batch: the number of items, the
    number completed without error, the items whose callback has been
    used, the results array of [Async.map], and the final callback
    ([None] once it has been replaced by a no-op).  One batch is in
    flight at a time. *)
Record batch_state := {
  total : nat;
  completed : nat;
  called : list nat;
  results : list value;
  final : option final_callback
}.

(** What the program did, in order. *)
Inductive event :=
  | EvExistsSync (path : string) (found : bool)
  | EvMkdirSync (path : string) (mode : N)
  | EvWriteFile (path : string) (data : list byte)
  | EvReadFile (path : string)
  | EvEmitSave (filename : string) (data : list byte)
  | EvEmitRead (filename : string)
  | EvCallback (id : nat) (args : list value)
  | EvDone (i : nat) (err : value)
  | EvUncaught (e : value).

(** An asynchronous operation in flight, with the callback it will
    call. *)
Inductive task :=
  | TWriteFile (path : string) (data : list byte) (cb : callback)
  | TReadFile (path : string) (cb : callback)
  | TReply (args : list value) (cb : callback).

Record world := World {
  this : FileStorage;
  disk : filesystem;
  trace : list event;
  queue : list task;
  batch : batch_state
}.

Definition set_this (f : FileStorage → FileStorage) (w : world) : world :=
  World (f (this w)) (disk w) (trace w) (queue w) (batch w).
Definition set_disk (fs : filesystem) (w : world) : world :=
  World (this w) fs (trace w) (queue w) (batch w).
Definition log (e : event) (w : world) : world :=
  World (this w) (disk w) (trace w ++ [e]) (queue w) (batch w).
Definition enqueue (t : task) (w : world) : world :=
  World (this w) (disk w) (trace w) (queue w ++ [t]) (batch w).
Definition set_queue (q : list task) (w : world) : world :=
  World (this w) (disk w) (trace w) q (batch w).
Definition set_batch (b : batch_state) (w : world) : world :=
  World (this w) (disk w) (trace w) (queue w) b.

Definition no_batch : batch_state :=
  {| total := 0; completed := 0; called := []; results := []; final := None |}.

(** A store and a filesystem with nothing in flight. *)
Definition init_world (store : FileStorage) (fs : filesystem) : world :=
  World store fs [] [] no_batch.

(** *** The monad of the synchronous code

    A call runs to completion on the current world; it returns, or it
    throws a JavaScript exception. *)

Inductive result (A : Type) :=
  | Ret (a : A)
  | Throw (e : value).
Arguments Ret {A} a.
Arguments Throw {A} e.

Definition M (A : Type) : Type := world → result A * world.

#[global] Instance M_ret : MRet M := λ A a w, (Ret a, w).
#[global] Instance M_bind : MBind M := λ A B f m w,
  match m w with
  | (Ret a, w') => f a w'
  | (Throw e, w') => (Throw e, w')
  end.

Definition get_this : M FileStorage := λ w, (Ret (this w), w).
Definition modify (f : world → world) : M unit := λ w, (Ret tt, f w).
Definition skip : M unit := mret tt.

(** *** Calling callbacks *)

Definition already_called : value := VError "Callback was already called.".

(** Calling the final callback of the batch: the caller's function, or
    for [Async.map] the closure that passes the error and the results
    array on to it.  A function of the caller is opaque: the call is
    logged. *)
Definition call_final (args : list value) (w : world) : world :=
  match final (batch w) with
  | None => w
  | Some (EachFinal id) => log (EvCallback id args) w
  | Some (MapFinal id) =>
      log (EvCallback id [arg 0 args; VArray (results (batch w))]) w
  end.

(** [done] of [Async.each] for item [i], as the async package of the
    program's time (0.9, 1.x) has it, once the guard of the item has let
    the call through: the first error goes to the final callback, which
    is then replaced by a no-op; otherwise the final callback is called
    when every item has completed.  The no-error argument is written
    [null]: some versions pass [undefined], and the program only tests
    it for truthiness. *)
Definition item_done (i : nat) (err : value) (w : world) : world :=
  let b := batch w in
  let w := log (EvDone i err) w in
  if truthy err then
    set_batch {| total := total b; completed := completed b;
                 called := i :: called b; results := results b;
                 final := None |}
              (call_final [err] w)
  else
    let b' := {| total := total b; completed := S (completed b);
                 called := i :: called b; results := results b;
                 final := final b |} in
    let w := set_batch b' w in
    if (total b <=? S (completed b))%nat then call_final [VNull] w else w.

(** The per-item callback of [Async.each]: [done] guarded so that it
    runs once ([only_once]); a second call throws [already_called] into
    whoever made it. *)
Definition each_done (i : nat) (err : value) : M unit := λ w,
  if decide (i ∈ called (batch w)) then (Throw already_called, w)
  else (Ret tt, item_done i err w).

(** The per-item callback of [Async.map]: [results[i] = v] and then the
    callback of [each]. *)
Definition map_done (i : nat) (args : list value) : M unit := λ w,
  let b := batch w in
  let b' := {| total := total b; completed := completed b;
               called := called b; results := array_set i (arg 1 args) (results b);
               final := final b |} in
  each_done i (arg 0 args) (set_batch b' w).

(** The object [readFiles] builds for a name (index.js:111-117). *)
Definition response (filename : string) (err file : value) : value :=
  if truthy err then VRespError filename err
  else VRespContents filename file.

(** Calling a callback with arguments.  A function of the caller is
    opaque: the call is logged.  The call returns, or the guard of a
    per-item callback throws and the exception goes through the closures
    of the program, which catch nothing. *)
Fixpoint call (cb : callback) (args : list value) : M unit :=
  match cb with
  | User id => modify (log (EvCallback id args))
  | SaveReply inner =>
      (* function(err) { if(callback) { callback(err || null); } } *)
      match inner with
      | Some c => call c [js_or (arg 0 args) VNull]
      | None => mret tt
      end
  | ReadReply filename c =>
      (* function(err, file) { ...; cb(null, response); } *)
      call c [VNull; response filename (arg 0 args) (arg 1 args)]
  | EachDone i => each_done i (arg 0 args)
  | MapDone i => map_done i args
  end.

(** A call made from a turn of the event loop (the completion of a
    filesystem operation, the reply of a listener that answers later):
    an exception has no caller in the program to go to.  It ends the
    turn and is recorded as [EvUncaught]; the loop is taken to go on
    with what is still in flight, as it does when the listener catches
    what its call throws or the process handles ['uncaughtException'].
    What a trace holds after an [EvUncaught] is what happens in a
    process that survives it. *)
Definition settle (r : result unit * world) : world :=
  match r with
  | (Ret _, w) => w
  | (Throw e, w) => log (EvUncaught e) w
  end.

Definition invoke (cb : callback) (args : list value) (w : world) : world :=
  settle (call cb args w).

(** *** The event loop *)

(** An operation in flight completes: the filesystem is read or written
    at that moment and the callback is called with the outcome.  A write
    takes effect as a whole, in one turn: what another operation sees of
    a file while it is being written is not modelled. *)
Definition complete (t : task) (w : world) : world :=
  match t with
  | TWriteFile path data cb =>
      match write_file (disk w) path data with
      | inr fs' => invoke cb [VNull] (set_disk fs' w)
      | inl e => invoke cb [VErrno e path] w
      end
  | TReadFile path cb =>
      match read_file (disk w) path with
      | inr data => invoke cb [VNull; VBuffer data] w
      | inl e => invoke cb [read_error e path] w
      end
  | TReply args cb => invoke cb args w
  end.

(** Taking the [k]-th element out of a list. *)
Fixpoint take_out {A} (k : nat) (l : list A) {struct l} : option (A * list A) :=
  match l with
  | [] => None
  | x :: rest =>
      match k with
      | O => Some (x, rest)
      | S k' =>
          match take_out k' rest with
          | Some (y, rest') => Some (y, x :: rest')
          | None => None
          end
      end
  end.

(** One turn: the operation chosen by [k] (modulo the number in flight)
    completes. *)
Definition step (k : nat) (w : world) : world :=
  match take_out (k mod length (queue w))%nat (queue w) with
  | None => w
  | Some (t, rest) => complete t (set_queue rest w)
  end.

(** The completion order is a parameter: [run sched] completes the
    operations in flight in the order [sched] chooses. *)
Definition run (sched : list nat) (w : world) : world :=
  fold_left (fun w k => step k w) sched w.

(** Whatever is still in flight completes, oldest first. *)
Definition drain (w : world) : world :=
  run (replicate (length (queue w)) 0) w.

(** A complete run: the order [sched] as far as it goes, then the rest. *)
Definition run_all (sched : list nat) (w : world) : world :=
  drain (run sched w).

(** *** [fs] and [events], as the program calls them *)

(** [fs.existsSync(path)] *)
Definition fs_existsSync (path : string) : M bool := λ w,
  let found := exists_path (disk w) path in
  (Ret found, log (EvExistsSync path found) w).

(** [fs.mkdirSync(path, mode)]; the mode is recorded as given (no
    umask). *)
Definition fs_mkdirSync (path : string) (mode : N) : M unit := λ w,
  let w := log (EvMkdirSync path mode) w in
  match mkdir (disk w) path mode with
  | inr fs' => (Ret tt, set_disk fs' w)
  | inl e => (Throw (VErrno e path), w)
  end.

(** The [TypeError] with which [fs.writeFile] refuses a callback that is
    not a function (code [ERR_INVALID_ARG_TYPE], [ERR_INVALID_CALLBACK]
    in Node 10 to 17); only the code is kept. *)
Definition invalid_callback : value := VTypeError "ERR_INVALID_ARG_TYPE".

(** [fs.writeFile(path, data, cb)] and [fs.readFile(path, cb)] start an
    operation and return.  [fs.writeFile] checks its callback first:
    called with [undefined] for it, it throws and starts nothing. *)
Definition fs_writeFile (path : string) (data : list byte)
    (cb : option callback) : M unit :=
  match cb with
  | Some c =>
      modify (λ w, enqueue (TWriteFile path data c) (log (EvWriteFile path data) w))
  | None => λ w, (Throw invalid_callback, w)
  end.

Definition fs_readFile (path : string) (cb : callback) : M unit :=
  modify (λ w, enqueue (TReadFile path cb) (log (EvReadFile path) w)).

(** A listener is handed the completion callback: it calls it before it
    returns, or leaves the call to a later turn. *)
Definition answer (t : timing) (args : list value) (cb : callback) : M unit :=
  match t with
  | Now => call cb args
  | Later => modify (enqueue (TReply args cb))
  end.

(** [emit(event, ..., cb)] of [EventEmitter]: the listeners are called
    one after the other, in registration order; an exception out of a
    listener ends the dispatch and goes to the caller of [emit].  [ev]
    records that a listener is called; [calls] gives, for each listener,
    when it answers and with what. *)
Fixpoint emit (ev : event) (calls : list (timing * list value))
    (cb : callback) : M unit :=
  match calls with
  | [] => mret tt
  | c :: rest =>
      modify (log ev);;
      answer c.1 c.2 cb;;
      emit ev rest cb
  end.

(** [emit('save', filename, contents, cb)] *)
Definition save_calls (ls : list save_handler) (filename : string)
    (data : list byte) : list (timing * list value) :=
  (λ h : save_handler, (save_timing h, [h filename data])) <$> ls.

Definition emit_save (ls : list save_handler) (filename : string)
    (data : list byte) (cb : callback) : M unit :=
  emit (EvEmitSave filename data) (save_calls ls filename data) cb.

(** [emit('read', filename, cb)] *)
Definition read_calls (ls : list read_handler) (filename : string)
    : list (timing * list value) :=
  (λ h : read_handler, (read_timing h, [(h filename).1; (h filename).2])) <$> ls.

Definition emit_read (ls : list read_handler) (filename : string)
    (cb : callback) : M unit :=
  emit (EvEmitRead filename) (read_calls ls filename) cb.

(** [on('save', h)] and [on('read', h)] *)
Definition on_save (h : save_handler) (s : FileStorage) : FileStorage :=
  {| _directory := _directory s; _directoryCreated := _directoryCreated s;
     save_listeners := save_listeners s ++ [h];
     read_listeners := read_listeners s |}.
Definition on_read (h : read_handler) (s : FileStorage) : FileStorage :=
  {| _directory := _directory s; _directoryCreated := _directoryCreated s;
     save_listeners := save_listeners s;
     read_listeners := read_listeners s ++ [h] |}.

(** ** index.js *)

(** The setter of the [directory] property (index.js:17-20). *)
Definition directory_set (newDir : dirvalue) (s : FileStorage) : FileStorage :=
  {| _directory := newDir; _directoryCreated := Some false;
     save_listeners := save_listeners s;
     read_listeners := read_listeners s |}.

(** The getter (index.js:14-16). *)
Definition directory (s : FileStorage) : dirvalue := _directory s.

(** [new FileStorage(directory)] (index.js:12-26). *)
Definition new_FileStorage (dir : dirvalue) : FileStorage :=
  directory_set dir
    {| _directory := DNull; _directoryCreated := None;
       save_listeners := []; read_listeners := [] |}.

Definition mark_directoryCreated (s : FileStorage) : FileStorage :=
  {| _directory := _directory s; _directoryCreated := Some true;
     save_listeners := save_listeners s;
     read_listeners := read_listeners s |}.

Definition is_null (d : dirvalue) : bool :=
  match d with DNull => true | _ => false end.

(** index.js:32-34 *)
Definition isEnabled : M bool :=
  s ← get_this;
  mret ((0 <? length (save_listeners s))%nat && (0 <? length (read_listeners s))%nat
        || negb (is_null (directory s))).

(** [0o750] *)
Definition octal_750 : N := 488.

(** The assignment to [path] in [checkDirExists] (index.js:131-135). *)
Definition next_path (path : string) (index : nat) (dir : string) : string :=
  if (index =? 0)%nat && is_empty dir then "/"
  else path +:+ (if is_empty path then "" else "/") +:+ dir.

(** The body of the [forEach] in [checkDirExists] (index.js:130-140),
    with the variable [path] and the index passed along. *)
Fixpoint checkDirExists_loop (path : string) (index : nat)
    (segs : list string) : M unit :=
  match segs with
  | [] => mret tt
  | dir :: rest =>
      let path := next_path path index dir in
      found ← fs_existsSync path;
      (if found : bool then skip else fs_mkdirSync path octal_750);;
      checkDirExists_loop path (S index) rest
  end.

(** index.js:124-141 *)
Definition checkDirExists (dir : dirvalue) : M unit :=
  if dir_falsy dir then mret tt
  else
    checkDirExists_loop ""
      0 (split_on slash (replace_backslashes (dir_to_string dir))).

Definition not_enabled : value := VError "File storage system is not enabled".

(** index.js:42-69 *)
Definition saveFile (filename : string) (body : contents)
    (callback : option callback) : M unit :=
  enabled ← isEnabled;
  if negb (enabled : bool) then
    match callback with
    | Some cb => call cb [not_enabled]
    | None => skip
    end
  else
    let body := to_buffer body in
    s ← get_this;
    if (0 <? length (save_listeners s))%nat then
      emit_save (save_listeners s) filename body (SaveReply callback)
    else
      checkDirExists (directory s);;
      modify (set_this mark_directoryCreated);;
      s ← get_this;
      fs_writeFile (dir_to_string (directory s) +:+ "/" +:+ filename) body callback.

(** index.js:88-100 *)
Definition readFile (filename : string) (callback : callback) : M unit :=
  enabled ← isEnabled;
  if negb (enabled : bool) then call callback [not_enabled]
  else
    s ← get_this;
    if (0 <? length (read_listeners s))%nat then
      emit_read (read_listeners s) filename callback
    else
      fs_readFile (dir_to_string (directory s) +:+ "/" +:+ filename) callback.

(** ** [Async.each] and [Async.map] *)

(** The iterator is applied to every item in order, each with its own
    callback. *)
Fixpoint iterate {A} (iterator : A → nat → M unit) (i : nat) (arr : list A)
    : M unit :=
  match arr with
  | [] => mret tt
  | x :: rest => iterator x i;; iterate iterator (S i) rest
  end.

(** [Async.each(arr, iterator, callback)]; an empty array completes at
    once. *)
Definition async_each {A} (arr : list A) (iterator : A → nat → M unit)
    (fin : option final_callback) : M unit :=
  modify (set_batch {| total := length arr; completed := 0; called := [];
                       results := []; final := fin |});;
  match arr with
  | [] => modify (call_final [VNull])
  | _ => iterate iterator 0 arr
  end.

(** index.js:76-81.  [files] lists the entries of the object in the order
    of [Object.keys]; [callback || function() { }] is [None] when the
    caller gave no callback. *)
Definition saveFiles (files : list (string * contents)) (callback : option nat)
    : M unit :=
  async_each files
    (λ (entry : string * contents) i,
       saveFile entry.1 entry.2 (Some (EachDone i)))
    (EachFinal <$> callback).

(** index.js:107-122 *)
Definition readFiles (filenames : list string) (callback : nat) : M unit :=
  async_each filenames
    (λ filename i, readFile filename (ReadReply filename (MapDone i)))
    (Some (MapFinal callback)).

(** ** Reading results *)

(** The per-item callback a callback ends up calling, if any. *)
Fixpoint guard_of (cb : callback) : option nat :=
  match cb with
  | User _ => None
  | SaveReply inner =>
      match inner with
      | Some c => guard_of c
      | None => None
      end
  | ReadReply _ c => guard_of c
  | EachDone i | MapDone i => Some i
  end.

(** Listeners that all answer on a later turn. *)
Definition save_later (s : FileStorage) : Prop :=
  Forall (λ h, save_timing h = Later) (save_listeners s).
Definition read_later (s : FileStorage) : Prop :=
  Forall (λ h, read_timing h = Later) (read_listeners s).

(** The value [isEnabled()] returns in a world. *)
Definition enabled (w : world) : bool :=
  match (isEnabled w).1 with
  | Ret b => b
  | Throw _ => false
  end.

(** Stores on which no dispatch of a batch throws: a disabled store,
    listeners that all answer on a later turn, or at most one listener
    (each per-item callback is then called once). *)
Definition read_calm (store : FileStorage) (fs : filesystem) : Prop :=
  enabled (init_world store fs) = false
  ∨ read_later store
  ∨ length (read_listeners store) ≤ 1.
Definition save_calm (store : FileStorage) (fs : filesystem) : Prop :=
  enabled (init_world store fs) = false
  ∨ save_later store
  ∨ length (save_listeners store) ≤ 1.

(** The argument lists a caller's function [id] was called with, in
    order. *)
Fixpoint callbacks_of (id : nat) (tr : list event) : list (list value) :=
  match tr with
  | [] => []
  | EvCallback id' args :: rest =>
      if decide (id' = id) then args :: callbacks_of id rest
      else callbacks_of id rest
  | _ :: rest => callbacks_of id rest
  end.

(** The completions [Async.each] accepted, in completion order. *)
Fixpoint completions (tr : list event) : list (nat * value) :=
  match tr with
  | [] => []
  | EvDone i err :: rest => (i, err) :: completions rest
  | _ :: rest => completions rest
  end.

(** An event of the filesystem or of a listener. *)
Definition is_io (e : event) : bool :=
  match e with
  | EvExistsSync _ _ | EvMkdirSync _ _ | EvWriteFile _ _ | EvReadFile _
  | EvEmitSave _ _ | EvEmitRead _ => true
  | _ => false
  end.

(** The path [saveFile] and [readFile] use for a name (index.js:68, 99). *)
Definition local_path (s : FileStorage) (filename : string) : string :=
  dir_to_string (directory s) +:+ "/" +:+ filename.

(** The events a ['save'] dispatch adds and the replies it leaves in
    flight, one per listener. *)
Definition save_events (s : FileStorage) (filename : string) (data : list byte)
    : list event :=
  (λ _, EvEmitSave filename data) <$> save_listeners s.
Definition save_replies (s : FileStorage) (filename : string) (data : list byte)
    (cb : callback) : list task :=
  (λ h : save_handler, TReply [h filename data] cb) <$> save_listeners s.
Definition read_events (s : FileStorage) (filename : string) : list event :=
  (λ _, EvEmitRead filename) <$> read_listeners s.
Definition read_replies (s : FileStorage) (filename : string) (cb : callback)
    : list task :=
  (λ h : read_handler, TReply [(h filename).1; (h filename).2] cb)
    <$> read_listeners s.

(** The world after a dispatch: events logged and replies in flight. *)
Definition dispatched (evs : list event) (ts : list task) (w : world) : world :=
  World (this w) (disk w) (trace w ++ evs) (queue w ++ ts) (batch w).

(** The events of the directory walk: an existence test, or the
    creation of a directory with mode [0o750]. *)
Definition is_walk (e : event) : bool :=
  match e with
  | EvExistsSync _ _ => true
  | EvMkdirSync _ mode => (mode =? octal_750)%N
  | _ => false
  end.

(** The successive values of [path] in [checkDirExists]. *)
Fixpoint prefixes_from (path : string) (index : nat) (segs : list string)
    : list string :=
  match segs with
  | [] => []
  | dir :: rest =>
      let path := next_path path index dir in
      path :: prefixes_from path (S index) rest
  end.

(** The paths [checkDirExists] goes through for a value of [directory]:
    none for a falsy value, else the prefixes of the path with its
    backslashes replaced. *)
Definition walked (dir : dirvalue) : list string :=
  if dir_falsy dir then []
  else prefixes_from "" 0 (split_on slash (replace_backslashes (dir_to_string dir))).

(** [fs'] has every node of [fs], unchanged, and the same working
    directory. *)
Definition extends (fs fs' : filesystem) : Prop :=
  cwd fs' = cwd fs ∧ ∀ k n, nodes fs !! k = Some n → nodes fs' !! k = Some n.

(** The helper leaves every path it went through in existence. *)
Definition creates_missing_prefixes (dir : dirvalue) (w : world) : Prop :=
  ∀ p, p ∈ walked dir → exists_path (disk (checkDirExists dir w).2) p = true.

(** The paths tested with [existsSync] and the directories created with
    [mkdirSync], in order. *)
Fixpoint tested (tr : list event) : list string :=
  match tr with
  | [] => []
  | EvExistsSync p _ :: rest => p :: tested rest
  | _ :: rest => tested rest
  end.

Fixpoint created (tr : list event) : list (string * N) :=
  match tr with
  | [] => []
  | EvMkdirSync p mode :: rest => (p, mode) :: created rest
  | _ :: rest => created rest
  end.

(** The world with an empty trace, to read what one call adds. *)
Definition clear_trace (w : world) : world :=
  World (this w) (disk w) [] (queue w) (batch w).

(** Saving under a name from a world with nothing in flight, the caller's
    callback being function 1, and letting the event loop run. *)
Definition saved (store : FileStorage) (fs : filesystem) (name : string)
    (body : contents) (sched : list nat) : world :=
  run_all sched (saveFile name body (Some (User 1)) (init_world store fs)).2.

(** Then reading the name, the callback being function 2. *)
Definition read_back (w : world) (name : string) (sched : list nat) : world :=
  run_all sched (readFile name (User 2) w).2.

(** The round trip as a property of a store, a filesystem, a name and
    contents: the save returns and reports success, and the read reports
    the bytes saved. *)
Definition round_trip (store : FileStorage) (fs : filesystem) (name : string)
    (body : contents) : Prop :=
  ∀ s1 s2,
    (saveFile name body (Some (User 1)) (init_world store fs)).1 = Ret tt
    ∧ callbacks_of 1 (trace (saved store fs name body s1)) = [[VNull]]
    ∧ callbacks_of 2 (trace (read_back (saved store fs name body s1) name s2))
      = [[VNull; VBuffer (to_buffer body)]].

(** *** What holds of a batch while it runs *)

(** What [readFile] can report for a name on a store and a filesystem,
    as the object [readFiles] builds from it: the not-enabled error on a
    disabled store, what a ['read'] listener answers when there are
    listeners, else what reading [directory + '/' + name] gives. *)
Definition read_outcomes (store : FileStorage) (fs : filesystem)
    (name : string) : list value :=
  if enabled (init_world store fs) then
    match read_listeners store with
    | [] =>
        match read_file fs (local_path store name) with
        | inr data => [response name VNull (VBuffer data)]
        | inl e => [response name (read_error e (local_path store name)) VUndefined]
        end
    | hs => (λ h : read_handler, response name (h name).1 (h name).2) <$> hs
    end
  else [response name not_enabled VUndefined].

(** A results array for a list of names: as long, and at each index an
    outcome for the name at that index. *)
Definition good_results (store : FileStorage) (fs : filesystem)
    (names : list string) (rs : list value) : Prop :=
  length rs = length names
  ∧ ∀ i name, names !! i = Some name →
      ∃ r, rs !! i = Some r ∧ r ∈ read_outcomes store fs name.

(** The operations [readFiles] leaves in flight for the name at index
    [i]. *)
Inductive read_item (store : FileStorage) (fs : filesystem)
    (names : list string) (i : nat) : task → Prop :=
  | read_item_fs name :
      names !! i = Some name →
      enabled (init_world store fs) = true →
      read_listeners store = [] →
      read_item store fs names i
        (TReadFile (local_path store name) (ReadReply name (MapDone i)))
  | read_item_reply name (h : read_handler) :
      names !! i = Some name →
      enabled (init_world store fs) = true →
      h ∈ read_listeners store →
      read_item store fs names i
        (TReply [(h name).1; (h name).2] (ReadReply name (MapDone i))).

(** The batch of [readFiles names id] on a store and a filesystem, once
    the names below [j] have been handed to [readFile]. *)
Record read_core (store : FileStorage) (fs : filesystem)
    (names : list string) (id j : nat) (w : world) : Prop := {
  rc_this : this w = store;
  rc_disk : disk w = fs;
  rc_total : total (batch w) = length names;
  rc_final : final (batch w) = Some (MapFinal id);
  rc_nodup : NoDup (called (batch w));
  rc_called : ∀ i, i ∈ called (batch w) → i < j;
  rc_j : j ≤ length names;
  rc_completed : completed (batch w) = length (called (batch w));
  rc_length : length (results (batch w)) ≤ length names;
  rc_results : ∀ i, i ∈ called (batch w) →
    ∃ name r, names !! i = Some name
              ∧ results (batch w) !! i = Some r
              ∧ r ∈ read_outcomes store fs name;
  rc_log :
    (length (called (batch w)) < length names
     ∧ callbacks_of id (trace w) = [])
    ∨ (length (called (batch w)) = length names
       ∧ ∃ rs, callbacks_of id (trace w) = [[VNull; VArray rs]]
               ∧ good_results store fs names rs)
}.

Definition read_queue (store : FileStorage) (fs : filesystem)
    (names : list string) (j : nat) (w : world) : Prop :=
  ∀ t, t ∈ queue w → ∃ i, i < j ∧ read_item store fs names i t.

Definition read_pending (store : FileStorage) (fs : filesystem)
    (names : list string) (j : nat) (w : world) : Prop :=
  ∀ i, i < j → i ∉ called (batch w) →
    ∃ t, t ∈ queue w ∧ read_item store fs names i t.

Definition read_inv (store : FileStorage) (fs : filesystem)
    (names : list string) (id j : nat) (w : world) : Prop :=
  read_core store fs names id j w
  ∧ read_queue store fs names j w
  ∧ read_pending store fs names j w.

(** The events with which a save is handed over: a write issued or a
    ['save'] listener called. *)
Definition is_issue (e : event) : bool :=
  match e with
  | EvWriteFile _ _ | EvEmitSave _ _ => true
  | _ => false
  end.


(** Two stores with the same directory and the same listeners. *)
Definition same_config (s s' : FileStorage) : Prop :=
  _directory s = _directory s'
  ∧ save_listeners s = save_listeners s'
  ∧ read_listeners s = read_listeners s'.

(** The first error among the completions, in completion order. *)
Fixpoint first_error (cs : list (nat * value)) : option value :=
  match cs with
  | [] => None
  | (_, e) :: rest => if truthy e then Some e else first_error rest
  end.

(** What the final callback of [saveFiles] over [n] entries has been
    called with, given the completions so far: the first error once
    there is one, [null] once all [n] have completed without one. *)
Definition reported (n : nat) (cs : list (nat * value)) : list (list value) :=
  match first_error cs with
  | Some e => [[e]]
  | None => if n <=? length cs then [[VNull]] else []
  end.

(** The operations [saveFiles] leaves in flight for the entry at index
    [i]. *)
Inductive save_item (i : nat) : task → Prop :=
  | save_item_fs p data :
      save_item i (TWriteFile p data (EachDone i))
  | save_item_reply args :
      save_item i (TReply args (SaveReply (Some (EachDone i)))).

(** The batch of [saveFiles] over [n] entries with final callback [fin]
    once the entries below [j] have been handed to [saveFile]. *)
Record save_core (n : nat) (fin : option nat) (j : nat) (w : world) : Prop := {
  sc_total : total (batch w) = n;
  sc_j : j ≤ n;
  sc_nodup : NoDup (called (batch w));
  sc_called : ∀ i, i ∈ called (batch w) → i < j;
  sc_completions : (completions (trace w)).*1 = rev (called (batch w));
  sc_completed :
    first_error (completions (trace w)) = None →
    completed (batch w) = length (completions (trace w));
  sc_final :
    final (batch w) =
      match first_error (completions (trace w)) with
      | Some _ => None
      | None => EachFinal <$> fin
      end;
  sc_log : ∀ id, fin = Some id →
    callbacks_of id (trace w) = reported n (completions (trace w))
}.

Definition save_queue (j : nat) (w : world) : Prop :=
  ∀ t, t ∈ queue w → ∃ i, i < j ∧ save_item i t.

Definition save_pending (j : nat) (w : world) : Prop :=
  ∀ i, i < j → i ∉ called (batch w) → ∃ t, t ∈ queue w ∧ save_item i t.

Definition save_inv (n : nat) (fin : option nat) (j : nat) (w : world) : Prop :=
  save_core n fin j w ∧ save_queue j w ∧ save_pending j w.

(** *** Properties as the specification states them *)

(** A directory is configured: a path was given for it. *)
Definition directory_configured (d : dirvalue) : bool :=
  match d with
  | DStr _ => true
  | DNull | DUndefined => false
  end.

(** The store is enabled if and only if a directory is configured or
    both a save and a read handler are registered. *)
Definition enabled_as_specified (s : FileStorage) (fs : filesystem) : Prop :=
  enabled (init_world s fs) = true
  ↔ directory_configured (directory s) = true
    ∨ (save_listeners s ≠ [] ∧ read_listeners s ≠ []).



(** *** Worlds used as examples *)

(** The working directory is the root; [data] is a directory, [data/n] a
    directory and [f] a regular file. *)
Definition example_fs : filesystem :=
  Filesystem []
    (<[ ["data"] := Dir 493 ]>
       (<[ ["n"; "data"] := Dir 493 ]>
          (<[ ["f"] := File [] ]> ∅))).

(** The root holds one directory, [a]. *)
Definition example_fs_a : filesystem :=
  Filesystem [] (<[ ["a"] := Dir 493 ]> ∅).

Definition example_store : FileStorage := new_FileStorage (DStr "data").

Definition example_world : world := init_world example_store example_fs.

Definition example_save_handler : save_handler :=
  SaveHandler Later (λ _ _, VError "remote").
Definition example_read_handler : read_handler :=
  ReadHandler Later (λ _, (VNull, VBuffer [])).



Definition is_fs (e : event) : bool :=
  match e with
  | EvExistsSync _ _ | EvMkdirSync _ _ | EvWriteFile _ _ | EvReadFile _ => true
  | _ => false
  end.


(** *** Further readings of paths, queues and traces *)

(** A path that begins with a separator. *)
Definition is_absolute (p : string) : bool :=
  match p with
  | String c _ => Ascii.eqb c slash
  | EmptyString => false
  end.

(** The path the walk of a directory ends on: the directory with its
    backslashes replaced, after one more [/] when it is absolute
    (index.js:131-135: [path] is ['/'] after the empty first segment and
    every later segment is appended after a ['/']). *)
Definition walk_end (d : string) : string :=
  let n := replace_backslashes d in
  if is_absolute n then "/" +:+ n else n.

(** The arguments a listener's pending reply carries. *)
Definition reply_args (t : task) : list value :=
  match t with
  | TReply args _ => args
  | _ => []
  end.

(** The segments of a path, each after a [/]. *)
Fixpoint slashes (segs : list string) : string :=
  match segs with
  | [] => ""
  | s :: rest => "/" +:+ s +:+ slashes rest
  end.

(** What an operation may do to the store: nothing, or set
    [_directoryCreated] to [true] (index.js:66). *)
Definition config_kept (s s' : FileStorage) : Prop :=
  s' = s ∨ s' = mark_directoryCreated s.

(** A write in flight. *)
Definition is_write (t : task) : bool :=
  match t with
  | TWriteFile _ _ _ => true
  | _ => false
  end.

(** A store without directory and with two ['save'] listeners, of which
    the first answers with an error and the second with [null], and one
    ['read'] listener. *)
Definition example_remote : FileStorage :=
  on_read example_read_handler
    (on_save (SaveHandler Later (λ _ _, VNull))
       (on_save example_save_handler (new_FileStorage DNull))).

(** The argument lists [readFile] passes to its callback for a name on a
    store and a filesystem: the not-enabled error on a disabled store
    (index.js:90), what each ['read'] listener answers when there are
    listeners (index.js:95), else the outcome of reading
    [directory + '/' + name] (index.js:99): [null] and the bytes, or the
    error alone (with its path, but for a directory, whose error carries
    none). *)
Definition read_answers (store : FileStorage) (fs : filesystem)
    (name : string) : list (list value) :=
  if enabled (init_world store fs) then
    match read_listeners store with
    | [] =>
        match read_file fs (local_path store name) with
        | inr data => [[VNull; VBuffer data]]
        | inl e =>
            [[match e with
              | EISDIR => VErrnoNoPath EISDIR
              | _ => VErrno e (local_path store name)
              end]]
        end
    | hs => (λ h : read_handler, [(h name).1; (h name).2]) <$> hs
    end
  else [[not_enabled]].

(** [fs'] is [fs] but for directories with mode [0o750] that are new and
    for at most one regular file, new or replaced, which holds [data];
    no directory has been removed or replaced. *)
Definition one_file_changed (fs fs' : filesystem) (data : list byte) : Prop :=
  cwd fs' = cwd fs
  ∧ ∃ target,
      (∀ k n, k ≠ target → nodes fs !! k = Some n → nodes fs' !! k = Some n)
      ∧ (∀ n, nodes fs !! target = Some n →
           nodes fs' !! target = Some n
           ∨ ((∃ d, n = File d) ∧ nodes fs' !! target = Some (File data)))
      ∧ (∀ k n, nodes fs !! k = None → nodes fs' !! k = Some n →
           n = Dir octal_750 ∨ (k = target ∧ n = File data)).

(** A world in which [saveFile] does not walk, or walks a directory whose
    prefixes all exist. *)
Definition walk_settled (w : world) : Prop :=
  enabled w = false
  ∨ save_listeners (this w) ≠ []
  ∨ ∀ p, p ∈ walked (directory (this w)) → exists_path (disk w) p = true.

(** What [readFiles] reports for a name when the store is disabled or has
    at most one ['read'] listener: the one outcome of [readFile] as the
    object of index.js:111-117. *)
Definition read_outcome (store : FileStorage) (fs : filesystem)
    (name : string) : value :=
  if enabled (init_world store fs) then
    match read_listeners store with
    | [] =>
        match read_file fs (local_path store name) with
        | inr data => VRespContents name (VBuffer data)
        | inl e =>
            VRespError name
              match e with
              | EISDIR => VErrnoNoPath EISDIR
              | _ => VErrno e (local_path store name)
              end
        end
    | h :: _ => response name (h name).1 (h name).2
    end
  else VRespError name not_enabled.

(** A name without separator that is not empty, [.] or [..]. *)
Definition plain_name (name : string) : Prop :=
  split_on slash name = [name] ∧ is_empty name = false ∧ is_dot name = false.

(** The write [saveFiles] leaves in flight for an entry on a store
    without ['save'] listeners. *)
Definition write_task (store : FileStorage) (files : list (string * contents))
    (t : task) : Prop :=
  ∃ i name body,
    files !! i = Some (name, body)
    ∧ t = TWriteFile (local_path store name) (to_buffer body) (EachDone i).

(** What holds of the filesystem while such a batch runs: what is in
    flight are writes of entries, and every entry that has completed
    without error reads back as its bytes. *)
Definition batch_written (store : FileStorage)
    (files : list (string * contents)) (w : world) : Prop :=
  (∀ t, t ∈ queue w → write_task store files t)
  ∧ ∀ i err, (i, err) ∈ completions (trace w) → truthy err = false →
      ∃ name body,
        files !! i = Some (name, body)
        ∧ read_file (disk w) (local_path store name) = inr (to_buffer body).

(** What holds while a batch of saves that cannot fail runs: what is in
    flight are writes of entries, the directory [d] is in place at [k],
    no entry's target is a directory and no entry has failed. *)
Definition batch_ok (store : FileStorage) (files : list (string * contents))
    (d : string) (k : list string) (w : world) : Prop :=
  (∀ t, t ∈ queue w → write_task store files t)
  ∧ resolve (disk w) d = inr k
  ∧ (∃ m, node_at (nodes (disk w)) k = Some (Dir m))
  ∧ (∀ name, name ∈ files.*1 →
       ∀ m', node_at (nodes (disk w)) (name :: k) ≠ Some (Dir m'))
  ∧ first_error (completions (trace w)) = None.

(** The errors thrown into callers of a per-item callback that had
    already been called, in order. *)
Fixpoint uncaught (tr : list event) : list value :=
  match tr with
  | [] => []
  | EvUncaught e :: rest => e :: uncaught rest
  | _ :: rest => uncaught rest
  end.

(** An operation in flight whose completion calls a per-item callback of
    [Async.each], and only that. *)
Definition item_task (t : task) : Prop :=
  ∀ w, ∃ i err w',
    complete t w = settle (each_done i err w')
    ∧ called (batch w') = called (batch w)
    ∧ trace w' = trace w ∧ queue w' = queue w.

(** The store with [_directoryCreated] replaced. *)
Definition with_flag (b : option bool) (s : FileStorage) : FileStorage :=
  {| _directory := _directory s; _directoryCreated := b;
     save_listeners := save_listeners s;
     read_listeners := read_listeners s |}.

(** What [fs.readFile] and [fs.writeFile] pass to their callback. *)
Definition read_reply (fs : filesystem) (p : string) : list value :=
  match read_file fs p with
  | inr data => [VNull; VBuffer data]
  | inl e => [read_error e p]
  end.

Definition write_reply (fs : filesystem) (p : string) (data : list byte)
    : list value :=
  match write_file fs p data with
  | inr _ => [VNull]
  | inl e => [VErrno e p]
  end.

(** The filesystem after a write, as it was when the write fails. *)
Definition written (fs : filesystem) (p : string) (data : list byte)
    : filesystem :=
  match write_file fs p data with
  | inr fs' => fs'
  | inl _ => fs
  end.

(** What a batch of saves may leave of a filesystem [fs]: every
    directory that was there, a file where there was a file, and nothing
    new or changed but directories with mode [0o750] and files that hold
    the bytes of an entry. *)
Definition batch_frame (fs : filesystem) (files : list (string * contents))
    (fs' : filesystem) : Prop :=
  cwd fs' = cwd fs
  ∧ (∀ k m, nodes fs !! k = Some (Dir m) → nodes fs' !! k = Some (Dir m))
  ∧ (∀ k d, nodes fs !! k = Some (File d) → ∃ d', nodes fs' !! k = Some (File d'))
  ∧ ∀ k n, nodes fs' !! k = Some n →
      nodes fs !! k = Some n
      ∨ n = Dir octal_750
      ∨ ∃ name body, (name, body) ∈ files ∧ n = File (to_buffer body).

(** Every write in flight carries the bytes of an entry. *)
Definition entry_writes (files : list (string * contents)) (w : world) : Prop :=
  ∀ p data cb, TWriteFile p data cb ∈ queue w →
    ∃ name body, (name, body) ∈ files ∧ data = to_buffer body.
(** * Properties *)

(** ** Constants and encodings *)

Example octal_750_digits : octal_750 = (7 * 8 * 8 + 5 * 8 + 0)%N.
Proof. reflexivity. Qed.

(** An ASCII string is its own bytes; U+00E9 takes two. *)
Example utf8_encode_example :
  utf8_encode "hi" = ["h"%byte; "i"%byte]
  ∧ utf8_encode (String (ascii_of_nat 233) "") = [xc3; xa9].
Proof. split; reflexivity. Qed.

Example split_on_example :
  split_on slash "/a/b" = [""; "a"; "b"]
  ∧ split_on slash "a//b/" = ["a"; ""; "b"; ""]
  ∧ split_on slash "" = [""].
Proof. repeat split; reflexivity. Qed.

(** ** Unfolding the monad *)

Lemma bind_Ret {A B} (m : M A) (f : A → M B) w a w' :
  m w = (Ret a, w') → (m ≫= f) w = f a w'.
Proof. intros H. unfold mbind, M_bind. by rewrite H. Qed.

Lemma isEnabled_eq w : isEnabled w = (Ret (enabled w), w).
Proof. reflexivity. Qed.

Lemma enabled_unfold w :
  enabled w =
    ((0 <? length (save_listeners (this w)))%nat
     && (0 <? length (read_listeners (this w)))%nat
     || negb (is_null (directory (this w)))).
Proof. reflexivity. Qed.

Lemma length_pos_nonempty {A} (l : list A) : (0 <? length l)%nat = true ↔ l ≠ [].
Proof. destruct l; unfold Nat.ltb; simpl; split; intros; congruence. Qed.

Lemma is_null_false d : is_null d = false ↔ d ≠ DNull.
Proof. destruct d; simpl; split; intros; congruence. Qed.

(** ** Calling callbacks *)

Lemma settle_each_done i err w :
  settle (each_done i err w) =
    if decide (i ∈ called (batch w)) then log (EvUncaught already_called) w
    else item_done i err w.
Proof. unfold each_done. by case_decide. Qed.

(** A call returns when the per-item callback it ends on, if any, has
    not been used. *)
Lemma call_fresh :
  ∀ cb args w,
    (∀ i, guard_of cb = Some i → i ∉ called (batch w)) →
    call cb args w = (Ret tt, invoke cb args w).
Proof.
  fix IH 1. intros [id|[c|]|name c|i|i] args w H.
  - reflexivity.
  - exact (IH c _ w H).
  - reflexivity.
  - exact (IH c _ w H).
  - clear IH. unfold invoke. simpl. unfold each_done.
    by rewrite decide_False by (by apply H).
  - clear IH. unfold invoke. simpl. unfold map_done, each_done. simpl.
    by rewrite decide_False by (by apply H).
Qed.

Lemma call_free cb args w :
  guard_of cb = None → call cb args w = (Ret tt, invoke cb args w).
Proof. intros H. apply call_fresh. intros i. by rewrite H. Qed.

(** A call throws only [already_called], out of the guard of a per-item
    callback that has been used; nothing has been logged then. *)
Lemma call_throws :
  ∀ cb args w e w',
    call cb args w = (Throw e, w') →
    e = already_called
    ∧ (∃ i, guard_of cb = Some i ∧ i ∈ called (batch w))
    ∧ this w' = this w ∧ disk w' = disk w ∧ queue w' = queue w
    ∧ trace w' = trace w ∧ called (batch w') = called (batch w)
    ∧ final (batch w') = final (batch w).
Proof.
  fix IH 1. intros [id|[c|]|name c|i|i] args w e w' H.
  - discriminate.
  - exact (IH c _ w e w' H).
  - discriminate.
  - exact (IH c _ w e w' H).
  - clear IH. simpl in H. unfold each_done in H.
    case_decide as Hin; inversion H; subst. eauto 10.
  - clear IH. simpl in H. unfold map_done, each_done in H. simpl in H.
    case_decide as Hin; inversion H; subst. simpl. eauto 10.
Qed.

Lemma queue_call_final args w : queue (call_final args w) = queue w.
Proof. unfold call_final. by destruct (final (batch w)) as [[]|]. Qed.

Lemma queue_each_done i err w : queue (settle (each_done i err w)) = queue w.
Proof.
  rewrite settle_each_done. unfold item_done. case_decide; [done|].
  destruct (truthy err); simpl.
  - by rewrite queue_call_final.
  - destruct (total (batch w) <=? S (completed (batch w)))%nat; [|done].
    by rewrite queue_call_final.
Qed.

Lemma queue_invoke : ∀ cb args w, queue (invoke cb args w) = queue w.
Proof.
  fix IH 1. intros [id|[c|]|name c|i|i] args w.
  - reflexivity.
  - exact (IH c _ w).
  - reflexivity.
  - exact (IH c _ w).
  - apply queue_each_done.
  - unfold invoke. simpl. unfold map_done. by rewrite queue_each_done.
Qed.

Lemma this_disk_each_done i err w :
  this (settle (each_done i err w)) = this w
  ∧ disk (settle (each_done i err w)) = disk w.
Proof.
  rewrite settle_each_done. unfold item_done, call_final. case_decide; [done|].
  destruct (truthy err); cbn [batch log set_batch final].
  - by destruct (final (batch w)) as [[]|].
  - destruct (total (batch w) <=? S (completed (batch w))); [|done].
    by destruct (final (batch w)) as [[]|].
Qed.

Lemma this_disk_invoke :
  ∀ cb args w, this (invoke cb args w) = this w ∧ disk (invoke cb args w) = disk w.
Proof.
  fix IH 1. intros [id|[c|]|name c|i|i] args w.
  - clear IH. split; reflexivity.
  - exact (IH c _ w).
  - clear IH. split; reflexivity.
  - exact (IH c _ w).
  - clear IH. apply this_disk_each_done.
  - clear IH. unfold invoke. simpl. unfold map_done.
    by rewrite !(proj1 (this_disk_each_done _ _ _)),
      !(proj2 (this_disk_each_done _ _ _)).
Qed.

Lemma filter_io_snoc tr e :
  is_io e = false → List.filter is_io (tr ++ [e]) = List.filter is_io tr.
Proof. intros He. rewrite List.filter_app. simpl. by rewrite He, app_nil_r. Qed.

Lemma each_done_io i err w :
  List.filter is_io (trace (settle (each_done i err w)))
  = List.filter is_io (trace w).
Proof.
  rewrite settle_each_done. unfold item_done, call_final.
  case_decide; [by apply filter_io_snoc|].
  destruct (truthy err); cbn [batch log set_batch final trace].
  - destruct (final (batch w)) as [[]|]; simpl;
      by rewrite !filter_io_snoc.
  - destruct (total (batch w) <=? S (completed (batch w)))%nat;
      [|by apply filter_io_snoc].
    destruct (final (batch w)) as [[]|]; simpl;
      by rewrite !filter_io_snoc.
Qed.

Lemma invoke_io :
  ∀ cb args w,
    List.filter is_io (trace (invoke cb args w)) = List.filter is_io (trace w).
Proof.
  fix IH 1. intros [id|[c|]|name c|i|i] args w.
  - clear IH. by apply filter_io_snoc.
  - exact (IH c _ w).
  - clear IH. reflexivity.
  - exact (IH c _ w).
  - clear IH. apply each_done_io.
  - clear IH. unfold invoke. simpl. unfold map_done. by rewrite each_done_io.
Qed.

(** The world a call leaves, whether it returns or throws, is the world
    the same call leaves on a later turn, but for the record of the
    exception. *)
Lemma call_world cb args w :
  this (call cb args w).2 = this w
  ∧ disk (call cb args w).2 = disk w
  ∧ queue (call cb args w).2 = queue w
  ∧ batch (call cb args w).2 = batch (invoke cb args w)
  ∧ List.filter is_io (trace (call cb args w).2) = List.filter is_io (trace w).
Proof.
  pose proof (this_disk_invoke cb args w) as [Ht Hd].
  pose proof (queue_invoke cb args w) as Hq.
  pose proof (invoke_io cb args w) as Hio.
  unfold invoke in *.
  destruct (call cb args w) as [[[]|e] w'] eqn:Hc; simpl in *; [done|].
  rewrite filter_io_snoc in Hio by done. done.
Qed.

(** ** Enablement *)

Lemma enabled_iff w :
  enabled w = true ↔
    directory (this w) ≠ DNull
    ∨ (save_listeners (this w) ≠ [] ∧ read_listeners (this w) ≠ []).
Proof.
  rewrite enabled_unfold, orb_true_iff, andb_true_iff, negb_true_iff.
  rewrite !length_pos_nonempty, is_null_false. tauto.
Qed.

(** C3.  [isEnabled()] returns [true] exactly when the [directory]
    property is not [null] or both a ['save'] and a ['read'] listener are
    registered, and the call leaves the store, the filesystem, the trace
    and the operations in flight as they were.  With a [null] directory
    one kind of listener alone does not enable the store.  A store built
    without a directory argument has [directory] [undefined], which is
    not [null]: it is enabled whatever its listeners; apart from that
    value, the store is enabled exactly when a directory is configured
    or both kinds of listener are registered. *)
Theorem isEnabled_spec (w : world) :
  isEnabled w = (Ret (enabled w), w)
  ∧ (enabled w = true ↔
       directory (this w) ≠ DNull
       ∨ (save_listeners (this w) ≠ [] ∧ read_listeners (this w) ≠ []))
  ∧ (directory (this w) = DNull ∧
     (save_listeners (this w) = [] ∨ read_listeners (this w) = []) →
     enabled w = false)
  ∧ (directory (this w) = DUndefined → enabled w = true)
  ∧ (directory (this w) ≠ DUndefined →
     (enabled w = true ↔
        directory_configured (directory (this w)) = true
        ∨ (save_listeners (this w) ≠ [] ∧ read_listeners (this w) ≠ []))).
Proof.
  split; [reflexivity|].
  pose proof (enabled_iff w) as Hiff.
  split; [exact Hiff|]. split; [|split].
  - intros [Hd Hl]. apply not_true_is_false. rewrite Hiff.
    intros [H|[H1 H2]]; [congruence|]. destruct Hl; congruence.
  - intros Hd. apply Hiff. left. by rewrite Hd.
  - intros Hd. rewrite Hiff.
    destruct (directory (this w)) as [| |s]; simpl; [|done|].
    + split; (intros [H|H]; [done|by right]).
    + split; intros _; by left.
Qed.

(** C3 (as stated, refuted).  A store built without a directory argument
    has no directory configured; it is enabled all the same, without
    listeners and with a ['save'] listener alone. *)
Lemma isEnabled_without_directory :
  (isEnabled (init_world (new_FileStorage DUndefined) example_fs)).1 = Ret true
  ∧ (isEnabled
       (init_world (on_save example_save_handler (new_FileStorage DUndefined))
          example_fs)).1 = Ret true
  ∧ ¬ enabled_as_specified (new_FileStorage DUndefined) example_fs
  ∧ ¬ enabled_as_specified
        (on_save example_save_handler (new_FileStorage DUndefined)) example_fs.
Proof.
  split; [reflexivity|]. split; [reflexivity|].
  split; intros [H _]; (destruct H as [H|[H1 H2]]; [reflexivity|discriminate|]);
    try (by apply H2); by apply H1.
Qed.

(** ** A disabled store *)

Lemma saveFile_disabled w filename body callback :
  enabled w = false →
  saveFile filename body callback w =
    match callback with
    | Some cb => call cb [not_enabled] w
    | None => (Ret tt, w)
    end.
Proof.
  intros H. unfold saveFile.
  rewrite (bind_Ret _ _ _ _ _ (isEnabled_eq w)), H. simpl.
  by destruct callback.
Qed.

Lemma readFile_disabled w filename callback :
  enabled w = false →
  readFile filename callback w = call callback [not_enabled] w.
Proof.
  intros H. unfold readFile.
  by rewrite (bind_Ret _ _ _ _ _ (isEnabled_eq w)), H.
Qed.

(** C1.  On a store for which [isEnabled()] is false, [saveFile] and
    [readFile] return after calling the callback once with the error
    [new Error("File storage system is not enabled")], a truthy value;
    that call is the only thing added to the trace (no filesystem call,
    no listener called), and the store, the filesystem and the
    operations in flight are unchanged. *)
Theorem disabled_fails_fast (w : world) (filename : string) (body : contents)
    (id : nat) :
  enabled w = false →
  saveFile filename body (Some (User id)) w
    = (Ret tt,
       log (EvCallback id [VError "File storage system is not enabled"]) w)
  ∧ readFile filename (User id) w
    = (Ret tt,
       log (EvCallback id [VError "File storage system is not enabled"]) w)
  ∧ truthy (VError "File storage system is not enabled") = true
  ∧ List.filter is_io
      (trace (log (EvCallback id [VError "File storage system is not enabled"]) w))
    = List.filter is_io (trace w).
Proof.
  intros H. split; [|split; [|split]].
  - by rewrite saveFile_disabled.
  - by rewrite readFile_disabled.
  - reflexivity.
  - simpl. by rewrite List.filter_app, app_nil_r.
Qed.

(** On a store built with a [null] directory and no listeners. *)
Lemma disabled_fails_fast_witness :
  enabled (init_world (new_FileStorage DNull) example_fs) = false
  ∧ trace (saveFile "a" (CString "x") (Some (User 1))
             (init_world (new_FileStorage DNull) example_fs)).2
    = [EvCallback 1 [VError "File storage system is not enabled"]]
  ∧ trace (readFile "a" (User 1)
             (init_world (new_FileStorage DNull) example_fs)).2
    = [EvCallback 1 [VError "File storage system is not enabled"]].
Proof.
  assert (H : enabled (init_world (new_FileStorage DNull) example_fs) = false)
    by reflexivity.
  split; [exact H|].
  destruct (disabled_fails_fast (init_world (new_FileStorage DNull) example_fs)
              "a" (CString "x") 1 H) as (Hs & Hr & _).
  rewrite Hs, Hr. split; reflexivity.
Defined.

(** C10.  On a disabled store [saveFile] without a callback returns
    without throwing and changes nothing: no event, no operation in
    flight, the same store and filesystem. *)
Theorem saveFile_disabled_no_callback (w : world) (filename : string)
    (body : contents) :
  enabled w = false →
  saveFile filename body None w = (Ret tt, w).
Proof. intros H. by rewrite saveFile_disabled. Qed.

(** On the same disabled store. *)
Lemma saveFile_disabled_no_callback_witness :
  enabled (init_world (new_FileStorage DNull) example_fs) = false
  ∧ saveFile "a" (CString "x") None (init_world (new_FileStorage DNull) example_fs)
    = (Ret tt, init_world (new_FileStorage DNull) example_fs).
Proof.
  split; [reflexivity|].
  apply (saveFile_disabled_no_callback
           (init_world (new_FileStorage DNull) example_fs) "a" (CString "x")).
  reflexivity.
Defined.

(** ** Handlers *)

Lemma dispatched_nil w : dispatched [] [] w = w.
Proof. destruct w. unfold dispatched. simpl. by rewrite !app_nil_r. Qed.

(** The dispatch to listeners that answer later: every listener is
    called and its reply is in flight. *)
Lemma emit_later ev calls cb w :
  Forall (λ c, c.1 = Later) calls →
  emit ev calls cb w =
    (Ret tt, dispatched ((λ _, ev) <$> calls) ((λ c, TReply c.2 cb) <$> calls) w).
Proof.
  intros Hl. revert w. induction Hl as [|c calls Hc Hl IH]; intros w; simpl.
  - by rewrite dispatched_nil.
  - unfold mbind, M_bind, modify. rewrite Hc. simpl. unfold modify.
    rewrite IH. f_equal.
    unfold dispatched, enqueue, log. simpl. by rewrite <- !app_assoc.
Qed.

Lemma emit_save_eq ls filename data cb w :
  Forall (λ h, save_timing h = Later) ls →
  emit_save ls filename data cb w =
    (Ret tt, dispatched ((λ _, EvEmitSave filename data) <$> ls)
                        ((λ h : save_handler, TReply [h filename data] cb) <$> ls) w).
Proof.
  intros Hl. unfold emit_save, save_calls. rewrite emit_later.
  - by rewrite <- !list_fmap_compose.
  - by apply Forall_fmap.
Qed.

Lemma emit_read_eq ls filename cb w :
  Forall (λ h, read_timing h = Later) ls →
  emit_read ls filename cb w =
    (Ret tt, dispatched ((λ _, EvEmitRead filename) <$> ls)
                        ((λ h : read_handler,
                            TReply [(h filename).1; (h filename).2] cb) <$> ls) w).
Proof.
  intros Hl. unfold emit_read, read_calls. rewrite emit_later.
  - by rewrite <- !list_fmap_compose.
  - by apply Forall_fmap.
Qed.

(** With a listener, the operation is the dispatch. *)
Lemma saveFile_emit w filename body callback :
  enabled w = true → save_listeners (this w) ≠ [] →
  saveFile filename body callback w =
    emit_save (save_listeners (this w)) filename (to_buffer body)
      (SaveReply callback) w.
Proof.
  intros He Hl. unfold saveFile.
  rewrite (bind_Ret _ _ _ _ _ (isEnabled_eq w)), He. simpl.
  unfold mbind at 1, M_bind, get_this.
  apply length_pos_nonempty in Hl. by rewrite Hl.
Qed.

Lemma readFile_emit w filename callback :
  enabled w = true → read_listeners (this w) ≠ [] →
  readFile filename callback w =
    emit_read (read_listeners (this w)) filename callback w.
Proof.
  intros He Hl. unfold readFile.
  rewrite (bind_Ret _ _ _ _ _ (isEnabled_eq w)), He. simpl.
  unfold mbind at 1, M_bind, get_this.
  apply length_pos_nonempty in Hl. by rewrite Hl.
Qed.

Lemma saveFile_handler w filename body callback :
  enabled w = true → save_listeners (this w) ≠ [] → save_later (this w) →
  saveFile filename body callback w =
    (Ret tt, dispatched (save_events (this w) filename (to_buffer body))
               (save_replies (this w) filename (to_buffer body) (SaveReply callback))
               w).
Proof.
  intros He Hl Hlater. rewrite saveFile_emit by done. by apply emit_save_eq.
Qed.

Lemma readFile_handler w filename callback :
  enabled w = true → read_listeners (this w) ≠ [] → read_later (this w) →
  readFile filename callback w =
    (Ret tt, dispatched (read_events (this w) filename)
               (read_replies (this w) filename callback) w).
Proof.
  intros He Hl Hlater. rewrite readFile_emit by done. by apply emit_read_eq.
Qed.

Lemma readFile_local w filename callback :
  enabled w = true → read_listeners (this w) = [] →
  readFile filename callback w =
    (Ret tt, dispatched [EvReadFile (local_path (this w) filename)]
               [TReadFile (local_path (this w) filename) callback] w).
Proof.
  intros He Hl. unfold readFile.
  rewrite (bind_Ret _ _ _ _ _ (isEnabled_eq w)), He. simpl.
  unfold mbind at 1, M_bind, get_this. by rewrite Hl.
Qed.

(** The dispatch to one listener that answers before it returns. *)
Lemma emit_now ev args cb w :
  emit ev [(Now, args)] cb w = call cb args (log ev w).
Proof.
  cbn [emit]. unfold mbind, M_bind, modify. cbn [answer fst snd].
  by destruct (call _ _ _) as [[[]|e] w'].
Qed.

Lemma emit_save_now (h : save_handler) filename data cb w :
  save_timing h = Now →
  emit_save [h] filename data cb w =
    call cb [h filename data] (log (EvEmitSave filename data) w).
Proof.
  intros H. unfold emit_save, save_calls. rewrite fmap_cons, H. apply emit_now.
Qed.

Lemma emit_read_now (h : read_handler) filename cb w :
  read_timing h = Now →
  emit_read [h] filename cb w =
    call cb [(h filename).1; (h filename).2] (log (EvEmitRead filename) w).
Proof.
  intros H. unfold emit_read, read_calls. rewrite fmap_cons, H. apply emit_now.
Qed.

(** What holds of a world and is kept by a listener being called, by a
    reply being put in flight and by a call of the callback, holds after
    the dispatch, whether it returns or throws. *)
Lemma emit_preserves (P : world → Prop) ev calls cb w :
  (∀ w, P w → P (log ev w)) →
  (∀ w args, P w → P (enqueue (TReply args cb) w)) →
  (∀ w args, P w → P (call cb args w).2) →
  P w → P (emit ev calls cb w).2.
Proof.
  intros Hlog Henq Hcall. revert w.
  induction calls as [|c calls IH]; intros w Hw; [done|].
  simpl. unfold mbind, M_bind, modify.
  assert (Ha : P (answer c.1 c.2 cb (log ev w)).2).
  { destruct c.1; simpl; auto. }
  destruct (answer _ _ _ _) as [[[]|e] w1]; simpl in *; auto.
Qed.

(** ** The directory walk leaves the rest of the world alone *)

Lemma checkDirExists_loop_cons path index dir rest w :
  checkDirExists_loop path index (dir :: rest) w =
    let p := next_path path index dir in
    if exists_path (disk w) p then
      checkDirExists_loop p (S index) rest (log (EvExistsSync p true) w)
    else
      match mkdir (disk w) p octal_750 with
      | inr fs' =>
          checkDirExists_loop p (S index) rest
            (set_disk fs' (log (EvMkdirSync p octal_750)
                             (log (EvExistsSync p false) w)))
      | inl e =>
          (Throw (VErrno e p),
           log (EvMkdirSync p octal_750) (log (EvExistsSync p false) w))
      end.
Proof.
  simpl. unfold mbind, M_bind, fs_existsSync, fs_mkdirSync, skip, mret, M_ret.
  simpl. destruct (exists_path (disk w) (next_path path index dir)); [done|].
  change (disk (log (EvExistsSync (next_path path index dir) false) w))
    with (disk w).
  by destruct (mkdir (disk w) (next_path path index dir) octal_750).
Qed.

Lemma mkdir_cwd fs p mode fs' : mkdir fs p mode = inr fs' → cwd fs' = cwd fs.
Proof.
  unfold mkdir. intros H.
  repeat (match type of H with
          | context [match ?x with _ => _ end] => destruct x
          | context [if ?x then _ else _] => destruct x
          end; try discriminate).
  by inversion H.
Qed.

Lemma checkDirExists_loop_frame segs path index w :
  let r := checkDirExists_loop path index segs w in
  this r.2 = this w ∧ queue r.2 = queue w ∧ batch r.2 = batch w
  ∧ cwd (disk r.2) = cwd (disk w)
  ∧ ∃ evs, trace r.2 = trace w ++ evs ∧ forallb is_walk evs = true.
Proof.
  revert path index w. induction segs as [|dir rest IH]; intros path index w.
  - simpl. repeat split; try done. exists []. by rewrite app_nil_r.
  - rewrite checkDirExists_loop_cons. cbv zeta.
    set (p := next_path path index dir).
    destruct (exists_path (disk w) p).
    + destruct (IH p (S index) (log (EvExistsSync p true) w))
        as (H1 & H2 & H3 & H4 & evs & H5 & H6).
      repeat split; try done.
      exists (EvExistsSync p true :: evs). split; [|done].
      rewrite H5. simpl. by rewrite <- app_assoc.
    + destruct (mkdir (disk w) p octal_750) as [e|fs'] eqn:Hm.
      * simpl. repeat split; try done.
        exists [EvExistsSync p false; EvMkdirSync p octal_750].
        split; [by rewrite <- app_assoc|done].
      * destruct (IH p (S index)
                    (set_disk fs' (log (EvMkdirSync p octal_750)
                                     (log (EvExistsSync p false) w))))
          as (H1 & H2 & H3 & H4 & evs & H5 & H6).
        repeat split; try done.
        { rewrite H4. simpl. by eapply mkdir_cwd. }
        exists (EvExistsSync p false :: EvMkdirSync p octal_750 :: evs).
        split; [|done]. rewrite H5. simpl. by rewrite <- !app_assoc.
Qed.

Lemma checkDirExists_frame dir w :
  let r := checkDirExists dir w in
  this r.2 = this w ∧ queue r.2 = queue w ∧ batch r.2 = batch w
  ∧ cwd (disk r.2) = cwd (disk w)
  ∧ ∃ evs, trace r.2 = trace w ++ evs ∧ forallb is_walk evs = true.
Proof.
  unfold checkDirExists. destruct (dir_falsy dir).
  - simpl. repeat split; try done. exists []. by rewrite app_nil_r.
  - apply checkDirExists_loop_frame.
Qed.

Lemma saveFile_local_opt w filename body callback :
  enabled w = true → save_listeners (this w) = [] →
  saveFile filename body callback w =
    match checkDirExists (directory (this w)) w with
    | (Ret _, w1) =>
        fs_writeFile (local_path (this w) filename) (to_buffer body) callback
          (set_this mark_directoryCreated w1)
    | (Throw e, w1) => (Throw e, w1)
    end.
Proof.
  intros He Hl. unfold saveFile.
  rewrite (bind_Ret _ _ _ _ _ (isEnabled_eq w)), He. simpl.
  unfold mbind at 1, M_bind, get_this. rewrite Hl. simpl.
  pose proof (checkDirExists_frame (directory (this w)) w) as Hf.
  unfold mbind, M_bind.
  destruct (checkDirExists (directory (this w)) w) as [[[]|e] w1]; [|done].
  simpl in Hf. destruct Hf as (Hthis & _). simpl.
  unfold local_path. simpl. by rewrite Hthis.
Qed.

Lemma saveFile_local w filename body cb :
  enabled w = true → save_listeners (this w) = [] →
  saveFile filename body (Some cb) w =
    match checkDirExists (directory (this w)) w with
    | (Ret _, w1) =>
        (Ret tt,
         dispatched [EvWriteFile (local_path (this w) filename) (to_buffer body)]
           [TWriteFile (local_path (this w) filename) (to_buffer body) cb]
           (set_this mark_directoryCreated w1))
    | (Throw e, w1) => (Throw e, w1)
    end.
Proof.
  intros He Hl. rewrite saveFile_local_opt by done.
  by destruct (checkDirExists (directory (this w)) w) as [[[]|e] w1].
Qed.

(** ** Routing *)

Lemma filter_fs_io l :
  List.filter is_fs l = List.filter is_fs (List.filter is_io l).
Proof.
  induction l as [|e l IH]; [done|].
  destruct e; simpl; by rewrite ?IH.
Qed.

(** A dispatch calls no function of [fs] and leaves the store and the
    filesystem as they are, whenever the listeners answer. *)
Lemma emit_frame ev calls cb w :
  is_fs ev = false →
  let w' := (emit ev calls cb w).2 in
  this w' = this w ∧ disk w' = disk w
  ∧ List.filter is_fs (trace w') = List.filter is_fs (trace w).
Proof.
  intros Hev.
  apply (emit_preserves
           (λ w', this w' = this w ∧ disk w' = disk w
                  ∧ List.filter is_fs (trace w') = List.filter is_fs (trace w)));
    [| | |done].
  - intros w' (Ht & Hd & Hf). simpl. repeat split; try done.
    rewrite List.filter_app. simpl. by rewrite Hev, app_nil_r.
  - intros w' args (Ht & Hd & Hf). done.
  - intros w' args (Ht & Hd & Hf).
    destruct (call_world cb args w') as (Ht' & Hd' & _ & _ & Hio).
    repeat split; try congruence.
    by rewrite filter_fs_io, Hio, <- filter_fs_io.
Qed.

Lemma emit_save_frame ls filename data cb w :
  let w' := (emit_save ls filename data cb w).2 in
  this w' = this w ∧ disk w' = disk w
  ∧ List.filter is_fs (trace w') = List.filter is_fs (trace w).
Proof. by apply emit_frame. Qed.

Lemma emit_read_frame ls filename cb w :
  let w' := (emit_read ls filename cb w).2 in
  this w' = this w ∧ disk w' = disk w
  ∧ List.filter is_fs (trace w') = List.filter is_fs (trace w).
Proof. by apply emit_frame. Qed.

(** C9.  With the directory set, each operation looks at its own
    listeners only.  With a ['save'] listener and no ['read'] listener,
    [saveFile] is the dispatch to the ['save'] listeners, which calls no
    function of [fs] (and, when the listeners answer later, leaves their
    replies in flight and returns), while [readFile] issues [fs.readFile]
    on [directory + '/' + filename]; with a ['read'] listener and no
    ['save'] listener, [readFile] is the dispatch to the ['read']
    listeners and [saveFile] walks the directory and issues
    [fs.writeFile] on [directory + '/' + filename] (or throws what the
    walk throws). *)
Theorem routing_per_operation (w : world) (filename : string)
    (body : contents) (cb : callback) :
  directory (this w) ≠ DNull →
  (save_listeners (this w) ≠ [] → read_listeners (this w) = [] →
   saveFile filename body (Some cb) w
     = emit_save (save_listeners (this w)) filename (to_buffer body)
         (SaveReply (Some cb)) w
   ∧ List.filter is_fs (trace (saveFile filename body (Some cb) w).2)
     = List.filter is_fs (trace w)
   ∧ (save_later (this w) →
      saveFile filename body (Some cb) w =
        (Ret tt, dispatched (save_events (this w) filename (to_buffer body))
                   (save_replies (this w) filename (to_buffer body)
                      (SaveReply (Some cb))) w))
   ∧ readFile filename cb w =
     (Ret tt, dispatched [EvReadFile (local_path (this w) filename)]
                [TReadFile (local_path (this w) filename) cb] w))
  ∧ (save_listeners (this w) = [] → read_listeners (this w) ≠ [] →
     readFile filename cb w
       = emit_read (read_listeners (this w)) filename cb w
     ∧ List.filter is_fs (trace (readFile filename cb w).2)
       = List.filter is_fs (trace w)
     ∧ (read_later (this w) →
        readFile filename cb w =
          (Ret tt, dispatched (read_events (this w) filename)
                     (read_replies (this w) filename cb) w))
     ∧ saveFile filename body (Some cb) w =
       match checkDirExists (directory (this w)) w with
       | (Ret _, w1) =>
           (Ret tt,
            dispatched
              [EvWriteFile (local_path (this w) filename) (to_buffer body)]
              [TWriteFile (local_path (this w) filename) (to_buffer body) cb]
              (set_this mark_directoryCreated w1))
       | (Throw e, w1) => (Throw e, w1)
       end).
Proof.
  intros Hd.
  assert (He : enabled w = true).
  { apply enabled_iff. by left. }
  split; intros Hs Hr; (split; [|split; [|split]]).
  - by apply saveFile_emit.
  - rewrite saveFile_emit by done. apply emit_save_frame.
  - intros Hl. by apply saveFile_handler.
  - by apply readFile_local.
  - by apply readFile_emit.
  - rewrite readFile_emit by done. apply emit_read_frame.
  - intros Hl. by apply readFile_handler.
  - by apply saveFile_local.
Qed.

(** With the directory [data] and a ['save'] listener only, the save is
    dispatched and the read goes to [data/a]; with a ['read'] listener
    only, the read is dispatched and the save goes to [data/a]. *)
Lemma routing_per_operation_witness :
  (trace (readFile "a" (User 1)
            (set_this (on_save example_save_handler) example_world)).2
     = [EvReadFile "data/a"]
   ∧ trace (saveFile "a" (CString "x") (Some (User 1))
              (set_this (on_save example_save_handler) example_world)).2
     = [EvEmitSave "a" ["x"%byte]])
  ∧ (trace (readFile "a" (User 1)
              (set_this (on_read example_read_handler) example_world)).2
       = [EvEmitRead "a"]
     ∧ trace (saveFile "a" (CString "x") (Some (User 1))
                (set_this (on_read example_read_handler) example_world)).2
       = [EvExistsSync "data" true; EvWriteFile "data/a" ["x"%byte]]).
Proof.
  split.
  - destruct (routing_per_operation
                (set_this (on_save example_save_handler) example_world)
                "a" (CString "x") (User 1)) as [H _]; [discriminate|].
    destruct H as (_ & _ & Hs & Hr); [discriminate|reflexivity|].
    rewrite Hs, Hr by (by repeat constructor). split; reflexivity.
  - destruct (routing_per_operation
                (set_this (on_read example_read_handler) example_world)
                "a" (CString "x") (User 1)) as [_ H]; [discriminate|].
    destruct H as (_ & _ & Hr & Hs); [reflexivity|discriminate|].
    rewrite Hs, Hr by (by repeat constructor). split; reflexivity.
Defined.

(** ** The [_directoryCreated] mark *)

(** Whatever the mark, a local save into a non-empty directory path
    starts by testing the first prefix of the path: the mark is written
    (index.js:19, 66) and never read. *)
Lemma fs_writeFile_trace path data cb w :
  ∃ evs, trace (fs_writeFile path data cb w).2 = trace w ++ evs.
Proof.
  destruct cb as [c|]; simpl.
  - by exists [EvWriteFile path data].
  - exists []. by rewrite app_nil_r.
Qed.

Lemma local_save_always_walks (w : world) (name : string) (body : contents)
    (cb : option callback) (d : string) :
  enabled w = true → save_listeners (this w) = [] →
  directory (this w) = DStr d → d ≠ "" →
  ∃ p found evs,
    trace (saveFile name body cb w).2 = trace w ++ EvExistsSync p found :: evs.
Proof.
  intros He Hl Hd Hne. rewrite saveFile_local_opt by done. rewrite Hd.
  unfold checkDirExists, dir_falsy, dir_to_string.
  destruct (String.eqb d "") eqn:Hd0; [by apply String.eqb_eq in Hd0|].
  destruct (split_on slash (replace_backslashes d)) as [|seg segs] eqn:Hs.
  { destruct (replace_backslashes d) as [|c r]; simpl in Hs; [done|].
    destruct (Ascii.eqb c slash); [done|]. by destruct (split_on slash r). }
  rewrite checkDirExists_loop_cons. cbv zeta.
  set (p := next_path "" 0 seg).
  set (path := local_path (this w) name).
  assert (Hgen : ∀ w1 found evs0,
    trace w1 = trace w ++ EvExistsSync p found :: evs0 →
    ∃ evs,
      trace (match checkDirExists_loop p 1 segs w1 with
             | (Ret _, w2) =>
                 fs_writeFile path (to_buffer body) cb
                   (set_this mark_directoryCreated w2)
             | (Throw e, w2) => (Throw e, w2)
             end).2 = trace w ++ EvExistsSync p found :: evs).
  { intros w1 found evs0 Hw1.
    pose proof (checkDirExists_loop_frame segs p 1 w1) as Hf.
    destruct (checkDirExists_loop p 1 segs w1) as [[[]|e] w2]; simpl in Hf;
      destruct Hf as (_ & _ & _ & _ & evs & Htr & _).
    - destruct (fs_writeFile_trace path (to_buffer body) cb
                  (set_this mark_directoryCreated w2)) as [evs' Hw].
      exists (evs0 ++ evs ++ evs'). rewrite Hw. simpl.
      rewrite Htr, Hw1, <- !app_assoc. done.
    - exists (evs0 ++ evs). simpl. rewrite Htr, Hw1, <- !app_assoc. done. }
  destruct (exists_path (disk w) p).
  - exists p, true. by apply (Hgen _ _ []).
  - destruct (mkdir (disk w) p octal_750) as [e|fs1].
    + exists p, false, [EvMkdirSync p octal_750]. simpl.
      by rewrite <- app_assoc.
    + exists p, false. apply (Hgen _ _ [EvMkdirSync p octal_750]). simpl.
      by rewrite <- app_assoc.
Qed.

(** C4 (what the code does).  The specification has the local saves
    that follow a first one skip the directory walk until the directory
    is reassigned.  The code does not: after a first local save into
    [data] the mark is [true], and a second local save tests the
    directory again all the same, its events starting with
    [existsSync('data')]. *)
Theorem second_save_walks_again :
  let w1 :=
    run_all [] (saveFile "a" (CString "x") (Some (User 1)) example_world).2 in
  _directoryCreated (this w1) = Some true
  ∧ callbacks_of 1 (trace w1) = [[VNull]]
  ∧ trace (saveFile "b" (CString "y") (Some (User 2)) (clear_trace w1)).2
    = [EvExistsSync "data" true; EvWriteFile "data/b" ["y"%byte]].
Proof. vm_compute. repeat split; reflexivity. Qed.

(** ** The filesystem *)

Lemma walk_app t cur l1 l2 :
  walk t cur (l1 ++ l2) =
    match walk t cur l1 with
    | inl e => inl e
    | inr c => walk t c l2
    end.
Proof.
  revert cur. induction l1 as [|s l1 IH]; intros cur; simpl; [done|].
  destruct (node_at t cur) as [[m|d]|]; try done.
  destruct (is_empty s || String.eqb s "."); [apply IH|].
  destruct (String.eqb s ".."); apply IH.
Qed.

Lemma node_at_keep (t t' : gmap (list string) node) :
  (∀ k m, t !! k = Some (Dir m) → t' !! k = Some (Dir m)) →
  ∀ k m, node_at t k = Some (Dir m) → node_at t' k = Some (Dir m).
Proof. intros H [|s k] m; simpl; [done|apply H]. Qed.

Lemma walk_keep (t t' : gmap (list string) node) segs :
  (∀ k m, t !! k = Some (Dir m) → t' !! k = Some (Dir m)) →
  ∀ cur c, walk t cur segs = inr c → walk t' cur segs = inr c.
Proof.
  intros Hk. induction segs as [|s segs IH]; intros cur c; simpl; [done|].
  destruct (node_at t cur) as [[m|d]|] eqn:Hn; try done.
  rewrite (node_at_keep _ _ Hk _ _ Hn).
  destruct (is_empty s || String.eqb s "."); [apply IH|].
  destruct (String.eqb s ".."); apply IH.
Qed.

Lemma walk_empties t cur m es :
  node_at t cur = Some (Dir m) →
  Forall (λ s, is_empty s = true) es →
  walk t cur es = inr cur.
Proof.
  intros Hn. induction 1 as [|s es Hs _ IH]; simpl; [done|].
  by rewrite Hn, Hs.
Qed.

Lemma unsnoc_app {A} (l : list A) init x :
  unsnoc l = Some (init, x) → l = init ++ [x].
Proof.
  revert init x. induction l as [|y l IH]; intros init x; simpl; [done|].
  destruct (unsnoc l) as [[i z]|] eqn:Hu.
  - intros [= <- <-]. simpl. f_equal. by apply IH.
  - intros [= <- <-]. destruct l as [|y' l]; [done|].
    simpl in Hu. by destruct (unsnoc l) as [[] |].
Qed.

Lemma strip_trailing_empty_app l :
  ∃ es, l = strip_trailing_empty l ++ es ∧ Forall (λ s, is_empty s = true) es.
Proof.
  induction l as [|s l (es & Hl & Hes)]; simpl.
  - by exists [].
  - destruct (strip_trailing_empty l) as [|r rs] eqn:Hs.
    + destruct (is_empty s) eqn:He.
      * exists (s :: l). split; [done|]. simpl in Hl. rewrite Hl.
        by constructor.
      * exists es. simpl in *. by rewrite Hl at 1.
    + exists es. split; [|done]. simpl. by rewrite Hl at 1.
Qed.

Lemma start_of_cwd fs fs' p : cwd fs' = cwd fs → start_of fs' p = start_of fs p.
Proof. intros H. unfold start_of. by rewrite H. Qed.

(** What a successful [write_file] did. *)
Lemma write_file_inv fs p data fs' :
  write_file fs p data = inr fs' →
  ∃ init name cur m,
    is_empty p = false
    ∧ split_on slash p = init ++ [name]
    ∧ walk (nodes fs) (start_of fs p) init = inr cur
    ∧ node_at (nodes fs) cur = Some (Dir m)
    ∧ is_empty name = false ∧ is_dot name = false
    ∧ (∀ m', node_at (nodes fs) (name :: cur) ≠ Some (Dir m'))
    ∧ fs' = Filesystem (cwd fs) (<[name :: cur := File data]> (nodes fs)).
Proof.
  unfold write_file. intros H.
  destruct (is_empty p) eqn:Hp; [done|].
  destruct (unsnoc (split_on slash p)) as [[init name]|] eqn:Hu; [|done].
  destruct (is_empty name) eqn:He.
  { destruct (walk _ _ _) as [e|cur]; [done|].
    by destruct (node_at (nodes fs) cur) as [[m|d]|]. }
  destruct (walk (nodes fs) (start_of fs p) init) as [e|cur] eqn:Hw; [done|].
  destruct (node_at (nodes fs) cur) as [[m|d]|] eqn:Hn; try done.
  destruct (is_dot name) eqn:Hd; [done|]. simpl in H.
  exists init, name, cur, m.
  repeat split; try done.
  - by apply unsnoc_app.
  - intros m' Hm. simpl in Hm. rewrite Hm in H. done.
  - destruct (nodes fs !! (name :: cur)) as [[m'|d]|]; by inversion H.
Qed.

Lemma walk_name t cur m name :
  node_at t cur = Some (Dir m) →
  is_empty name = false → is_dot name = false →
  walk t cur [name] = inr (name :: cur).
Proof.
  intros Hn He Hd. simpl. rewrite Hn, He. unfold is_dot in Hd.
  apply orb_false_iff in Hd as [-> ->]. done.
Qed.

(** Reading back the path just written gives the bytes written. *)
Lemma write_then_read fs p data fs' :
  write_file fs p data = inr fs' → read_file fs' p = inr data.
Proof.
  intros H.
  destruct (write_file_inv _ _ _ _ H)
    as (init & name & cur & m & Hp & Hsplit & Hw & Hn & He & Hd & Hnd & ->).
  assert (Hk : ∀ k m0, nodes fs !! k = Some (Dir m0) →
               <[name :: cur := File data]> (nodes fs) !! k = Some (Dir m0)).
  { intros k m0 Hk. destruct (decide (k = name :: cur)) as [->|Hne].
    - exfalso. by apply (Hnd m0).
    - by rewrite lookup_insert_ne. }
  unfold read_file, stat, resolve. rewrite Hp, Hsplit, walk_app.
  rewrite (start_of_cwd fs (Filesystem (cwd fs) _) p eq_refl). cbn [nodes].
  rewrite (walk_keep _ _ _ Hk _ _ Hw).
  rewrite (walk_name _ _ m); try done.
  - simpl. by rewrite lookup_insert_eq.
  - by apply (node_at_keep _ _ Hk).
Qed.

(** ** The event loop *)

Lemma step_idle k w : queue w = [] → step k w = w.
Proof. intros H. unfold step. by rewrite H. Qed.

Lemma run_idle sched w : queue w = [] → run sched w = w.
Proof.
  intros H. induction sched as [|k sched IH]; simpl; [done|].
  by rewrite step_idle.
Qed.

Lemma run_all_idle sched w : queue w = [] → run_all sched w = w.
Proof.
  intros H. unfold run_all, drain. rewrite (run_idle sched w H).
  by rewrite H.
Qed.

Lemma step_single k w t :
  queue w = [t] → step k w = complete t (set_queue [] w).
Proof.
  intros H. unfold step. rewrite H.
  replace (k `mod` length [t])%nat with 0%nat; [done|].
  symmetry. exact (Nat.mod_1_r k).
Qed.

Lemma run_all_single sched w t :
  queue w = [t] →
  queue (complete t (set_queue [] w)) = [] →
  run_all sched w = complete t (set_queue [] w).
Proof.
  intros Hq Hc. destruct sched as [|k sched].
  - unfold run_all, drain. simpl. rewrite Hq. simpl.
    by rewrite (step_single 0 w t).
  - unfold run_all. simpl. rewrite (step_single k w t Hq).
    rewrite (run_idle sched _ Hc). unfold drain. by rewrite Hc.
Qed.

Lemma callbacks_of_app id a b :
  callbacks_of id (a ++ b) = callbacks_of id a ++ callbacks_of id b.
Proof.
  induction a as [|e a IH]; simpl; [done|].
  destruct e; try done. case_decide; simpl; by rewrite IH.
Qed.

Lemma callbacks_of_walk id evs :
  forallb is_walk evs = true → callbacks_of id evs = [].
Proof.
  induction evs as [|e evs IH]; simpl; [done|].
  intros [He Hevs]%andb_true_iff. destruct e; try done; by apply IH.
Qed.

(** ** Saving and reading back *)

Lemma enabled_init store fs :
  directory store ≠ DNull → enabled (init_world store fs) = true.
Proof. intros H. apply enabled_iff. by left. Qed.

(** What a local save from a world with nothing in flight leads to:
    either the walk threw and no callback was called, or the write was
    attempted once the walk was done. *)
Lemma saved_local store fs name body sched :
  directory store ≠ DNull → save_listeners store = [] →
  let w := saved store fs name body sched in
  let p := local_path store name in
  (∃ e, (checkDirExists (directory store) (init_world store fs)).1 = Throw e
        ∧ callbacks_of 1 (trace w) = [] ∧ callbacks_of 2 (trace w) = [])
  ∨ ∃ w1 outcome,
      checkDirExists (directory store) (init_world store fs) = (Ret tt, w1)
      ∧ this w = mark_directoryCreated store
      ∧ queue w = []
      ∧ trace w = trace w1 ++ [EvWriteFile p (to_buffer body);
                               EvCallback 1 [outcome]]
      ∧ forallb is_walk (trace w1) = true
      ∧ match write_file (disk w1) p (to_buffer body) with
        | inr fs' => outcome = VNull ∧ disk w = fs'
        | inl e => outcome = VErrno e p ∧ disk w = disk w1
        end.
Proof.
  intros Hd Hs. unfold saved.
  rewrite saveFile_local; [|by apply enabled_init|done].
  change (this (init_world store fs)) with store.
  pose proof (checkDirExists_frame (directory store) (init_world store fs)) as Hf.
  destruct (checkDirExists (directory store) (init_world store fs))
    as [[[]|e] w1]; simpl in Hf;
    destruct Hf as (Hthis & Hq & Hb & Hc & evs & Htr & Hw).
  - right. cbn [fst snd].
    set (p := local_path store name).
    set (t := TWriteFile p (to_buffer body) (User 1)).
    set (wq := dispatched _ _ _).
    assert (Hqq : queue wq = [t]) by (unfold wq; simpl; by rewrite Hq).
    assert (Hcomp : complete t (set_queue [] wq) =
              match write_file (disk w1) p (to_buffer body) with
              | inr fs' => log (EvCallback 1 [VNull])
                             (set_disk fs' (set_queue [] wq))
              | inl e => log (EvCallback 1 [VErrno e p]) (set_queue [] wq)
              end).
    { simpl. by destruct (write_file (disk w1) p (to_buffer body)). }
    rewrite (run_all_single sched wq t Hqq).
    2:{ rewrite Hcomp. by destruct (write_file (disk w1) p (to_buffer body)). }
    rewrite Hcomp.
    destruct (write_file (disk w1) p (to_buffer body)) as [e|fs'] eqn:Hwf.
    + exists w1, (VErrno e p). rewrite Hwf. simpl.
      rewrite Hthis, Htr, <- app_assoc. simpl. by rewrite Hw.
    + exists w1, VNull. rewrite Hwf. simpl.
      rewrite Hthis, Htr, <- app_assoc. simpl. by rewrite Hw.
  - left. exists e. cbn [fst snd]. rewrite run_all_idle by (by rewrite Hq).
    rewrite Htr. simpl. by rewrite !callbacks_of_walk.
Qed.

(** C2 (amended).  On a store with the directory set and no listeners,
    when a save of [body] under [name] has reported success to its
    callback, a read of [name] reports success with exactly the bytes of
    [body], whatever the order in which the event loop completes what is
    in flight. *)
Theorem round_trip_after_success (store : FileStorage) (fs : filesystem)
    (name : string) (body : contents) (s1 s2 : list nat) :
  directory store ≠ DNull →
  save_listeners store = [] →
  read_listeners store = [] →
  callbacks_of 1 (trace (saved store fs name body s1)) = [[VNull]] →
  callbacks_of 2 (trace (read_back (saved store fs name body s1) name s2))
    = [[VNull; VBuffer (to_buffer body)]].
Proof.
  intros Hd Hs Hr Hok.
  destruct (saved_local store fs name body s1 Hd Hs)
    as [(e & _ & H1 & _)|(w1 & outcome & _ & Hthis & Hq & Htr & Hw & Hwf)].
  { rewrite H1 in Hok. discriminate. }
  set (w := saved store fs name body s1) in *.
  set (p := local_path store name) in *.
  assert (Hout : outcome = VNull).
  { rewrite Htr, callbacks_of_app, callbacks_of_walk in Hok by done.
    simpl in Hok. congruence. }
  destruct (write_file (disk w1) p (to_buffer body)) as [e|fs'] eqn:Hwrite.
  { destruct Hwf as [-> _]. discriminate. }
  destruct Hwf as [_ Hdisk].
  assert (He : enabled w = true).
  { apply enabled_iff. left. by rewrite Hthis. }
  assert (Hrl : read_listeners (this w) = []) by (by rewrite Hthis).
  unfold read_back. rewrite (readFile_local w name (User 2) He Hrl).
  cbn [snd].
  assert (Hp : local_path (this w) name = p) by (by rewrite Hthis).
  rewrite Hp.
  set (wq := dispatched _ _ w).
  assert (Hcomp : complete (TReadFile p (User 2)) (set_queue [] wq)
                  = log (EvCallback 2 [VNull; VBuffer (to_buffer body)])
                      (set_queue [] wq)).
  { simpl. rewrite Hdisk. by rewrite (write_then_read _ _ _ _ Hwrite). }
  rewrite (run_all_single s2 wq (TReadFile p (User 2))).
  - rewrite Hcomp. simpl. rewrite Htr, !callbacks_of_app.
    rewrite callbacks_of_walk by done. reflexivity.
  - unfold wq. simpl. by rewrite Hq.
  - by rewrite Hcomp.
Qed.

(** Saving [hi] under [a] in [data], which exists, and reading it
    back. *)
Lemma round_trip_after_success_witness :
  callbacks_of 1 (trace (saved example_store example_fs "a" (CString "hi") []))
    = [[VNull]]
  ∧ callbacks_of 2
      (trace (read_back (saved example_store example_fs "a" (CString "hi") [])
                "a" []))
    = [[VNull; VBuffer ["h"%byte; "i"%byte]]].
Proof.
  assert (H : callbacks_of 1
                (trace (saved example_store example_fs "a" (CString "hi") []))
              = [[VNull]]) by (vm_compute; reflexivity).
  split; [exact H|].
  apply (round_trip_after_success example_store example_fs "a" (CString "hi")
           [] []); [discriminate|reflexivity|reflexivity|exact H].
Defined.

(** *** When a save succeeds *)

Lemma split_on_nonempty sep s : split_on sep s ≠ [].
Proof.
  destruct s as [|c s]; simpl; [done|].
  destruct (Ascii.eqb c sep); [done|]. by destruct (split_on sep s).
Qed.

Lemma split_on_append a b :
  split_on slash (a +:+ String slash b) = split_on slash a ++ split_on slash b.
Proof.
  induction a as [|c a IH]; simpl.
  - reflexivity.
  - destruct (Ascii.eqb c slash); [by rewrite IH|].
    rewrite IH. pose proof (split_on_nonempty slash a) as Hne.
    by destruct (split_on slash a).
Qed.

Lemma unsnoc_snoc {A} (l : list A) x : unsnoc (l ++ [x]) = Some (l, x).
Proof.
  induction l as [|y l IH]; [done|].
  change (unsnoc ((y :: l) ++ [x]))
    with (match unsnoc (l ++ [x]) with
          | None => Some ([], y)
          | Some (init, z) => Some (y :: init, z)
          end).
  by rewrite IH.
Qed.

(** Writing a plain name (no separator, not empty, not [.] or [..])
    under a path that is a directory succeeds unless the target is
    itself a directory. *)
Lemma write_file_plain fs d name data k m :
  resolve fs d = inr k → node_at (nodes fs) k = Some (Dir m) →
  split_on slash name = [name] → is_empty name = false → is_dot name = false →
  (∀ m', node_at (nodes fs) (name :: k) ≠ Some (Dir m')) →
  ∃ fs', write_file fs (d +:+ "/" +:+ name) data = inr fs'.
Proof.
  intros Hres Hk Hplain He Hdot Hnd. unfold resolve in Hres.
  destruct d as [|c d]; [done|].
  change (is_empty (String c d)) with false in Hres. cbv iota in Hres.
  unfold write_file.
  replace (is_empty (String c d +:+ "/" +:+ name)) with false by done.
  change ("/" +:+ name) with (String slash name).
  rewrite split_on_append, Hplain, unsnoc_snoc.
  change (start_of fs (String c d +:+ String slash name))
    with (start_of fs (String c d)).
  rewrite He, Hres, Hk, Hdot. simpl.
  destruct (nodes fs !! (name :: k)) as [[m'|data']|] eqn:Hn; eauto.
  by destruct (Hnd m').
Qed.

(** So does the save: when the walk of the directory returns and leaves
    the directory in place, saving a plain name that is not a directory
    reports success (and the read then finds the bytes, by the round
    trip above). *)
Lemma plain_save_succeeds (store : FileStorage) (fs : filesystem)
    (d name : string) (body : contents) (s1 : list nat) (w1 : world)
    (k : list string) (m : N) :
  directory store = DStr d →
  save_listeners store = [] →
  checkDirExists (DStr d) (init_world store fs) = (Ret tt, w1) →
  resolve (disk w1) d = inr k →
  node_at (nodes (disk w1)) k = Some (Dir m) →
  split_on slash name = [name] → is_empty name = false → is_dot name = false →
  (∀ m', node_at (nodes (disk w1)) (name :: k) ≠ Some (Dir m')) →
  callbacks_of 1 (trace (saved store fs name body s1)) = [[VNull]].
Proof.
  intros Hd Hs Hchk Hres Hk Hplain He Hdot Hnd.
  assert (Hdn : directory store ≠ DNull) by (by rewrite Hd).
  destruct (saved_local store fs name body s1 Hdn Hs)
    as [(e & Hthrow & _)|(w1' & outcome & Hchk' & _ & _ & Htr & Hw & Hwf)].
  { rewrite Hd, Hchk in Hthrow. done. }
  rewrite Hd, Hchk in Hchk'. injection Hchk' as <-.
  destruct (write_file_plain (disk w1) d name (to_buffer body) k m)
    as [fs' Hwr]; try done.
  unfold local_path in Hwf. rewrite Hd in Hwf. simpl in Hwf.
  rewrite Hwr in Hwf. destruct Hwf as [-> _].
  rewrite Htr, callbacks_of_app, callbacks_of_walk by done.
  simpl. done.
Qed.

Example plain_save_succeeds_example :
  callbacks_of 1 (trace (saved example_store example_fs "a" (CString "hi") []))
  = [[VNull]].
Proof.
  refine (plain_save_succeeds example_store example_fs "data" "a"
            (CString "hi") []
            (checkDirExists (DStr "data") example_world).2
            ["data"] 493 _ _ _ _ _ _ _ _ _);
    try reflexivity.
  intros m'. vm_compute. discriminate.
Qed.

(** C2 (as stated, refuted).  With the directory set to [data] and no
    listeners, the round trip fails for the name [n] where [data/n] is a
    directory, and for the name [sub/f] where [data/sub] does not exist:
    in both cases the save reports an error. *)
Lemma round_trip_fails :
  ¬ round_trip example_store example_fs "n" (CBuffer ["x"%byte])
  ∧ ¬ round_trip example_store example_fs "sub/f" (CBuffer ["x"%byte]).
Proof.
  split; intros H; destruct (H [] []) as (_ & H1 & _);
    vm_compute in H1; discriminate.
Qed.

(** ** Creating directories *)

Lemma unsnoc_cons_is_Some {A} (x : A) l : ∃ init y, unsnoc (x :: l) = Some (init, y).
Proof.
  revert x. induction l as [|z l IH]; intros x; [by exists [], x|].
  destruct (IH z) as (init & y & H).
  exists (x :: init), y. change (unsnoc (x :: z :: l))
    with (match unsnoc (z :: l) with
          | None => Some ([], x)
          | Some (init, y) => Some (x :: init, y)
          end).
  by rewrite H.
Qed.

Lemma strip_last_nonempty l init x :
  unsnoc (strip_trailing_empty l) = Some (init, x) → is_empty x = false.
Proof.
  revert init x. induction l as [|s l IH]; intros init x; simpl; [done|].
  destruct (strip_trailing_empty l) as [|r rs] eqn:Hs.
  - destruct (is_empty s) eqn:He; simpl; [done|]. by intros [= <- <-].
  - destruct (unsnoc_cons_is_Some r rs) as (i & y & Hu).
    change (unsnoc (s :: r :: rs))
      with (match unsnoc (r :: rs) with
            | None => Some ([], s)
            | Some (init, y) => Some (s :: init, y)
            end).
    rewrite Hu. intros [= <- <-]. by apply (IH i).
Qed.

(** What a successful [mkdir] did. *)
Lemma mkdir_inv fs p mode fs' :
  mkdir fs p mode = inr fs' →
  ∃ init name cur es m,
    is_empty p = false
    ∧ split_on slash p = init ++ [name] ++ es
    ∧ Forall (λ s, is_empty s = true) es
    ∧ walk (nodes fs) (start_of fs p) init = inr cur
    ∧ node_at (nodes fs) cur = Some (Dir m)
    ∧ is_empty name = false ∧ is_dot name = false
    ∧ nodes fs !! (name :: cur) = None
    ∧ fs' = Filesystem (cwd fs) (<[name :: cur := Dir mode]> (nodes fs)).
Proof.
  unfold mkdir. intros H.
  destruct (is_empty p) eqn:Hp; [done|].
  destruct (unsnoc (strip_trailing_empty (split_on slash p)))
    as [[init name]|] eqn:Hu; [|done].
  destruct (walk (nodes fs) (start_of fs p) init) as [e|cur] eqn:Hw; [done|].
  destruct (node_at (nodes fs) cur) as [[m|d]|] eqn:Hn; try done.
  destruct (is_dot name) eqn:Hd; [done|]. simpl in H.
  destruct (nodes fs !! (name :: cur)) eqn:Hl; [done|].
  destruct (strip_trailing_empty_app (split_on slash p)) as (es & Hsplit & Hes).
  exists init, name, cur, es, m. repeat split; try done.
  - rewrite Hsplit at 1. rewrite (unsnoc_app _ _ _ Hu). by rewrite <- app_assoc.
  - by eapply strip_last_nonempty.
  - by inversion H.
Qed.

(** After a successful [mkdir] the path is a directory with the mode
    given. *)
Lemma mkdir_stat fs p mode fs' :
  mkdir fs p mode = inr fs' →
  extends fs fs'
  ∧ stat fs' p = inr (Dir mode)
  ∧ ∃ k, resolve fs' p = inr k
         ∧ nodes fs !! k = None
         ∧ nodes fs' = <[k := Dir mode]> (nodes fs).
Proof.
  intros H.
  destruct (mkdir_inv _ _ _ _ H)
    as (init & name & cur & es & m & Hp & Hsplit & Hes & Hw & Hn & He & Hd
        & Hnone & ->).
  assert (Hk : ∀ k n, nodes fs !! k = Some n →
               <[name :: cur := Dir mode]> (nodes fs) !! k = Some n).
  { intros k n Hk. destruct (decide (k = name :: cur)) as [->|Hne].
    - congruence.
    - by rewrite lookup_insert_ne. }
  assert (Hres : resolve (Filesystem (cwd fs) (<[name :: cur := Dir mode]> (nodes fs))) p
                 = inr (name :: cur)).
  { unfold resolve. rewrite Hp, Hsplit, walk_app.
    rewrite (start_of_cwd fs (Filesystem (cwd fs) _) p eq_refl). cbn [nodes].
    rewrite (walk_keep (nodes fs) _ init (λ k m0, Hk k (Dir m0)) _ _ Hw).
    rewrite walk_app, (walk_name _ _ m); try done.
    - apply (walk_empties _ _ mode); [|done]. simpl. by rewrite lookup_insert_eq.
    - by apply (node_at_keep (nodes fs) _ (λ k m0, Hk k (Dir m0))). }
  split; [by split|]. split.
  - unfold stat. rewrite Hres. simpl. by rewrite lookup_insert_eq.
  - by exists (name :: cur).
Qed.

Lemma resolve_extends fs fs' p k :
  extends fs fs' → resolve fs p = inr k → resolve fs' p = inr k.
Proof.
  intros [Hc Hk]. unfold resolve. destruct (is_empty p); [done|].
  rewrite (start_of_cwd fs fs' p Hc).
  apply walk_keep. intros k' m. apply Hk.
Qed.

Lemma node_at_extends fs fs' k n :
  extends fs fs' → node_at (nodes fs) k = Some n → node_at (nodes fs') k = Some n.
Proof. intros [_ Hk]. destruct k; simpl; [done|apply Hk]. Qed.

Lemma exists_path_extends fs fs' p :
  extends fs fs' → exists_path fs p = true → exists_path fs' p = true.
Proof.
  intros He. unfold exists_path, stat.
  destruct (resolve fs p) as [e|k] eqn:Hr; [done|].
  rewrite (resolve_extends _ _ _ _ He Hr).
  destruct (node_at (nodes fs) k) as [n|] eqn:Hn; [|done].
  by rewrite (node_at_extends _ _ _ _ He Hn).
Qed.

Lemma extends_refl fs : extends fs fs.
Proof. by split. Qed.

Lemma extends_trans fs1 fs2 fs3 :
  extends fs1 fs2 → extends fs2 fs3 → extends fs1 fs3.
Proof. intros [H1 H2] [H3 H4]. split; [congruence|]. intros k n Hk. eauto. Qed.

Lemma checkDirExists_loop_creates segs path index w w' :
  checkDirExists_loop path index segs w = (Ret tt, w') →
  extends (disk w) (disk w')
  ∧ (∀ p, p ∈ prefixes_from path index segs → exists_path (disk w') p = true)
  ∧ (∀ k n, nodes (disk w) !! k = None → nodes (disk w') !! k = Some n →
       n = Dir octal_750
       ∧ ∃ p, p ∈ prefixes_from path index segs
              ∧ exists_path (disk w) p = false
              ∧ resolve (disk w') p = inr k)
  ∧ ∃ evs, trace w' = trace w ++ evs
           ∧ tested evs = prefixes_from path index segs.
Proof.
  revert path index w. induction segs as [|dir rest IH]; intros path index w.
  { simpl. intros [= <-]. split; [apply extends_refl|].
    split; [intros p Hp; by apply elem_of_nil in Hp|].
    split; [intros k n H1 H2; congruence|].
    exists []. by rewrite app_nil_r. }
  rewrite checkDirExists_loop_cons. cbv zeta. simpl prefixes_from.
  set (p := next_path path index dir).
  destruct (exists_path (disk w) p) eqn:Hex.
  - intros H. destruct (IH _ _ _ H) as (He & Hp & Hc & evs & Htr & Hte).
    simpl in He, Hc, Htr.
    split; [done|]. split; [|split].
    + intros p' [->|Hin]%elem_of_cons; [|by apply Hp].
      by apply (exists_path_extends (disk w)).
    + intros k n H1 H2. destruct (Hc k n H1 H2) as (-> & p' & Hin & H3 & H4).
      split; [done|]. exists p'. split; [by apply elem_of_cons; right|done].
    + exists (EvExistsSync p true :: evs). rewrite Htr, <- app_assoc.
      split; [done|]. simpl. by rewrite Hte.
  - destruct (mkdir (disk w) p octal_750) as [e|fs1] eqn:Hm; [done|].
    intros H. destruct (IH _ _ _ H) as (He & Hp & Hc & evs & Htr & Hte).
    simpl in He, Hc, Htr.
    destruct (mkdir_stat _ _ _ _ Hm) as (He1 & Hst & k0 & Hr0 & Hn0 & Hins).
    split; [by apply (extends_trans _ fs1)|]. split; [|split].
    + intros p' [->|Hin]%elem_of_cons; [|by apply Hp].
      apply (exists_path_extends fs1); [done|].
      unfold exists_path. by rewrite Hst.
    + intros k n H1 H2. destruct (nodes fs1 !! k) as [n1|] eqn:Hk1.
      * assert (k = k0) as ->.
        { destruct (decide (k = k0)) as [|Hne]; [done|].
          rewrite Hins, lookup_insert_ne in Hk1 by done. congruence. }
        rewrite Hins, lookup_insert_eq in Hk1. injection Hk1 as <-.
        pose proof He as [_ He']. rewrite (He' _ _ (eq_trans
          (f_equal (λ t, t !! k0) Hins) (lookup_insert_eq _ _ _))) in H2.
        injection H2 as <-. split; [done|].
        exists p. split; [apply elem_of_cons; by left|]. split; [done|].
        by apply (resolve_extends fs1).
      * destruct (Hc k n Hk1 H2) as (-> & p' & Hin & H3 & H4).
        split; [done|]. exists p'. split; [by apply elem_of_cons; right|].
        split; [|done].
        destruct (exists_path (disk w) p') eqn:Hex'; [|done].
        by rewrite (exists_path_extends _ _ _ He1 Hex') in H3.
    + exists (EvExistsSync p false :: EvMkdirSync p octal_750 :: evs).
      rewrite Htr, <- !app_assoc. split; [done|]. simpl. by rewrite Hte.
Qed.

Lemma checkDirExists_loop_idem segs path index w :
  (∀ p, p ∈ prefixes_from path index segs → exists_path (disk w) p = true) →
  checkDirExists_loop path index segs w =
    (Ret tt, dispatched ((λ p, EvExistsSync p true)
                           <$> prefixes_from path index segs) [] w).
Proof.
  revert path index w. induction segs as [|dir rest IH]; intros path index w H.
  { simpl. by rewrite dispatched_nil. }
  rewrite checkDirExists_loop_cons. cbv zeta. simpl prefixes_from in *.
  set (p := next_path path index dir) in *.
  rewrite (H p) by (apply elem_of_cons; by left).
  rewrite IH.
  - f_equal. unfold dispatched, log. simpl. by rewrite <- app_assoc.
  - intros p' Hp'. simpl. apply H. apply elem_of_cons. by right.
Qed.

Lemma replace_backslashes_idem s :
  replace_backslashes (replace_backslashes s) = replace_backslashes s.
Proof.
  induction s as [|c s IH]; simpl; [done|]. rewrite IH. f_equal.
  destruct (Ascii.eqb c backslash) eqn:Hc; [done|]. by rewrite Hc.
Qed.

Lemma replace_backslashes_empty s :
  String.eqb (replace_backslashes s) "" = String.eqb s "".
Proof. by destruct s. Qed.

Lemma prefixes_from_absolute segs path index :
  (∃ r, path = String slash r) →
  Forall (λ p, ∃ r, p = String slash r) (prefixes_from path (S index) segs).
Proof.
  revert path index. induction segs as [|dir rest IH]; intros path index [r ->].
  { constructor. }
  simpl. assert (H : ∃ r', next_path (String slash r) (S index) dir = String slash r').
  { unfold next_path. simpl. eauto. }
  constructor; [done|]. by apply IH.
Qed.

Lemma created_walk evs :
  forallb is_walk evs = true → Forall (λ pm, pm.2 = octal_750) (created evs).
Proof.
  induction evs as [|e evs IH]; simpl; [constructor|].
  intros [He Hevs]%andb_true_iff.
  destruct e; try (by apply IH). constructor; [|by apply IH].
  simpl in *. by apply N.eqb_eq.
Qed.

(** C7 (amended).  When the helper returns (no [mkdirSync] threw): it
    tested, in order, the prefixes of the path with backslashes replaced
    by slashes, and every directory it created was created with mode
    [0o750]; the filesystem kept every node it had; every prefix now
    exists; every node that is new is a directory with mode [0o750] at
    the place of a prefix that did not exist before; a second run tests
    the same prefixes, finds them all and creates nothing; the walk of a
    path is the walk of the path with its backslashes replaced; and the
    prefixes of a path that starts with a separator all start with
    [/]. *)
Theorem checkDirExists_creates (dir : dirvalue) (w w' : world) :
  checkDirExists dir w = (Ret tt, w') →
  (∃ evs, trace w' = trace w ++ evs
          ∧ tested evs = walked dir
          ∧ Forall (λ pm, pm.2 = octal_750) (created evs))
  ∧ extends (disk w) (disk w')
  ∧ (∀ p, p ∈ walked dir → exists_path (disk w') p = true)
  ∧ (∀ k n, nodes (disk w) !! k = None → nodes (disk w') !! k = Some n →
       n = Dir octal_750
       ∧ ∃ p, p ∈ walked dir
              ∧ exists_path (disk w) p = false
              ∧ resolve (disk w') p = inr k)
  ∧ checkDirExists dir w' =
      (Ret tt, dispatched ((λ p, EvExistsSync p true) <$> walked dir) [] w')
  ∧ (∀ d, dir = DStr d →
       walked (DStr (replace_backslashes d)) = walked dir
       ∧ ∀ w0, checkDirExists (DStr (replace_backslashes d)) w0
               = checkDirExists dir w0)
  ∧ (∀ c rest, dir = DStr (String c rest) → c = slash ∨ c = backslash →
       Forall (λ p, ∃ r, p = String slash r) (walked dir)).
Proof.
  intros H.
  pose proof (checkDirExists_frame dir w) as Hf. rewrite H in Hf.
  simpl in Hf. destruct Hf as (_ & _ & _ & _ & evs' & Htr' & Hwalk).
  assert (Hmain :
    (∃ evs, trace w' = trace w ++ evs ∧ tested evs = walked dir)
    ∧ extends (disk w) (disk w')
    ∧ (∀ p, p ∈ walked dir → exists_path (disk w') p = true)
    ∧ (∀ k n, nodes (disk w) !! k = None → nodes (disk w') !! k = Some n →
         n = Dir octal_750
         ∧ ∃ p, p ∈ walked dir ∧ exists_path (disk w) p = false
                ∧ resolve (disk w') p = inr k)).
  { unfold checkDirExists in H. unfold walked.
    destruct (dir_falsy dir).
    - injection H as <-. split; [exists []; by rewrite app_nil_r|].
      split; [apply extends_refl|].
      split; [intros p Hp; by apply elem_of_nil in Hp|].
      intros k n H1 H2. congruence.
    - destruct (checkDirExists_loop_creates _ _ _ _ _ H) as (H1 & H2 & H3 & H4).
      done. }
  destruct Hmain as ((evs & Htr & Hte) & Hext & Hex & Hnew).
  split.
  { exists evs. split; [done|]. split; [done|].
    rewrite Htr in Htr'. apply app_inv_head in Htr'. subst evs'.
    by apply created_walk. }
  split; [done|]. split; [done|]. split; [done|]. split; [|split].
  - unfold checkDirExists, walked in *. destruct (dir_falsy dir).
    + simpl. by rewrite dispatched_nil.
    + by apply checkDirExists_loop_idem.
  - intros d ->. unfold walked, checkDirExists, dir_falsy, dir_to_string.
    rewrite replace_backslashes_empty, replace_backslashes_idem. done.
  - intros c rest -> Hc. unfold walked. simpl.
    assert (Hs : (if Ascii.eqb c backslash then slash else c) = slash).
    { destruct Hc as [->| ->]; reflexivity. }
    rewrite Hs. simpl.
    constructor; [by exists ""|].
    apply prefixes_from_absolute. by exists "".
Qed.

(** The example of the specification: given [/a/b/c] where [/a] exists,
    the helper creates [/a/b] and then [/a/b/c] (it names them [//a/b] and
    [//a/b/c]), after which every prefix exists. *)
Lemma checkDirExists_creates_witness :
  created (trace (checkDirExists (DStr "/a/b/c")
                    (init_world example_store example_fs_a)).2)
    = [("//a/b", octal_750); ("//a/b/c", octal_750)]
  ∧ ∀ p, p ∈ walked (DStr "/a/b/c") →
         exists_path (disk (checkDirExists (DStr "/a/b/c")
                              (init_world example_store example_fs_a)).2) p
           = true.
Proof.
  split; [vm_compute; reflexivity|].
  apply (checkDirExists_creates (DStr "/a/b/c")
           (init_world example_store example_fs_a)).
  vm_compute. reflexivity.
Defined.

(** C7 (as stated, refuted).  Where [f] is a regular file, the helper
    given [f/x] throws on [mkdirSync('f/x')] and leaves the prefix [f/x]
    missing. *)
Lemma checkDirExists_throws :
  (checkDirExists (DStr "f/x") example_world).1 = Throw (VErrno ENOTDIR "f/x")
  ∧ ¬ creates_missing_prefixes (DStr "f/x") example_world.
Proof.
  split; [vm_compute; reflexivity|].
  intros H. specialize (H "f/x"). vm_compute in H.
  assert (Hin : "f/x" ∈ ["f"; "f/x"]) by (apply elem_of_cons; right; apply elem_of_cons; by left).
  specialize (H Hin). discriminate.
Qed.

(** ** Lists, arrays and the queue *)

Lemma take_out_Some {A} k (l : list A) t rest :
  take_out k l = Some (t, rest) →
  length l = S (length rest) ∧ ∀ x, x ∈ l ↔ x = t ∨ x ∈ rest.
Proof.
  revert k t rest. induction l as [|y l IH]; intros k t rest; simpl; [done|].
  destruct k as [|k].
  - intros [= <- <-]. split; [done|]. intros x. by rewrite elem_of_cons.
  - destruct (take_out k l) as [[z rest']|] eqn:Ht; [|done].
    intros [= <- <-]. destruct (IH _ _ _ Ht) as [Hlen Hin].
    split; [simpl; by rewrite Hlen|].
    intros x. rewrite !elem_of_cons, Hin. tauto.
Qed.

Lemma take_out_lt {A} k (l : list A) :
  k < length l → ∃ t rest, take_out k l = Some (t, rest).
Proof.
  revert k. induction l as [|y l IH]; intros k Hk; simpl in *; [lia|].
  destruct k as [|k]; [by eauto|].
  destruct (IH k) as (t & rest & ->); [lia|]. eauto.
Qed.

Lemma take_out_mod {A} k (l : list A) :
  l ≠ [] → ∃ t rest, take_out (k `mod` length l)%nat l = Some (t, rest).
Proof.
  intros Hl. apply take_out_lt. apply Nat.mod_upper_bound.
  by destruct l.
Qed.

Lemma bounded_nodup_length (l : list nat) n :
  NoDup l → (∀ i, i ∈ l → i < n) → length l ≤ n.
Proof.
  intros Hnd Hb.
  assert (Hsub : l ⊆+ seq 0 n).
  { apply NoDup_submseteq; [done|]. intros i Hi. apply elem_of_seq.
    specialize (Hb i Hi). lia. }
  apply submseteq_length in Hsub. by rewrite length_seq in Hsub.
Qed.

Lemma bounded_nodup_full (l : list nat) n :
  NoDup l → (∀ i, i ∈ l → i < n) → n ≤ length l → ∀ i, i < n → i ∈ l.
Proof.
  intros Hnd Hb Hlen i Hi.
  assert (Hsub : l ⊆+ seq 0 n).
  { apply NoDup_submseteq; [done|]. intros k Hk. apply elem_of_seq.
    specialize (Hb k Hk). lia. }
  assert (Hp : l ≡ₚ seq 0 n).
  { apply submseteq_length_Permutation; [done|]. by rewrite length_seq. }
  rewrite Hp. apply elem_of_seq. lia.
Qed.

Lemma array_set_length i v arr :
  length (array_set i v arr) = Nat.max (length arr) (S i).
Proof.
  unfold array_set. case_decide.
  - rewrite length_insert. lia.
  - rewrite !length_app, length_replicate. simpl. lia.
Qed.

Lemma array_set_lookup i v arr : array_set i v arr !! i = Some v.
Proof.
  unfold array_set. case_decide.
  - by apply list_lookup_insert_eq.
  - rewrite lookup_app_r by lia.
    rewrite lookup_app_r by (rewrite length_replicate; lia).
    rewrite length_replicate.
    by replace (i - length arr - (i - length arr)) with 0 by lia.
Qed.

Lemma array_set_lookup_ne i v arr k x :
  k ≠ i → arr !! k = Some x → array_set i v arr !! k = Some x.
Proof.
  intros Hne Hk. unfold array_set. case_decide.
  - by rewrite list_lookup_insert_ne.
  - by apply lookup_app_l_Some.
Qed.

Lemma queue_complete t w : queue (complete t w) = queue w.
Proof.
  destruct t as [p d cb|p cb|args cb]; simpl.
  - destruct (write_file (disk w) p d); by rewrite queue_invoke.
  - destruct (read_file (disk w) p); by rewrite queue_invoke.
  - by rewrite queue_invoke.
Qed.

Lemma queue_step k w : length (queue (step k w)) = pred (length (queue w)).
Proof.
  unfold step. destruct (queue w) as [|t0 q] eqn:Hq; [simpl; by rewrite Hq|].
  destruct (take_out_mod k (t0 :: q)) as (t & rest & Ht); [done|].
  rewrite Ht, queue_complete. simpl.
  apply take_out_Some in Ht as [Hlen _]. simpl in Hlen. lia.
Qed.

Lemma queue_run_all sched w : queue (run_all sched w) = [].
Proof.
  unfold run_all, drain. generalize (run sched w). clear w. intros w.
  remember (length (queue w)) as n eqn:Hn. revert w Hn.
  induction n as [|n IH]; intros w Hn; simpl.
  - by destruct (queue w).
  - apply IH. rewrite queue_step. lia.
Qed.

(** ** Dispatch to the listeners *)

Lemma take_out_perm {A} k (l : list A) t rest :
  take_out k l = Some (t, rest) → l ≡ₚ t :: rest.
Proof.
  revert k t rest. induction l as [|x l IH]; intros k t rest; [done|].
  destruct k as [|k]; simpl.
  - by intros [= <- <-].
  - destruct (take_out k l) as [[y rest']|] eqn:Hk; [|done].
    intros [= <- <-]. rewrite (IH _ _ _ Hk). apply Permutation_swap.
Qed.

Lemma callbacks_of_fmap {A} id (f : A → list value) (l : list A) :
  callbacks_of id ((λ t, EvCallback id (f t)) <$> l) = f <$> l.
Proof.
  induction l as [|x l IH]; [done|]. csimpl. case_decide; [|done].
  by rewrite IH.
Qed.

Lemma callbacks_of_no_callback id evs :
  Forall (λ e, ∀ id' args, e ≠ EvCallback id' args) evs →
  callbacks_of id evs = [].
Proof.
  induction 1 as [|e evs He _ IH]; [done|].
  destruct e; simpl; try done. by destruct (He id0 args).
Qed.

(** Operations in flight that each only call one function of the caller
    complete in some order, and nothing else happens. *)
Lemma run_replies (ev : task → event) sched w :
  (∀ t, t ∈ queue w → ∀ w', complete t w' = log (ev t) w') →
  ∃ done, done ++ queue (run sched w) ≡ₚ queue w
          ∧ trace (run sched w) = trace w ++ (ev <$> done)
          ∧ disk (run sched w) = disk w
          ∧ this (run sched w) = this w
          ∧ batch (run sched w) = batch w.
Proof.
  revert w. induction sched as [|k sched IH]; intros w Hq.
  { exists []. simpl. by rewrite app_nil_r. }
  simpl. change (fold_left _ sched ?x) with (run sched x).
  unfold step. destruct (take_out _ _) as [[t rest]|] eqn:Ht.
  - apply take_out_perm in Ht.
    assert (t ∈ queue w) as Hin by (rewrite Ht; left).
    rewrite (Hq t Hin).
    destruct (IH (log (ev t) (set_queue rest w)))
      as (done' & Hperm & Htr & Hd & Hth & Hb).
    { simpl. intros t' Ht'. apply Hq. rewrite Ht. by right. }
    exists (t :: done'). simpl in Hperm, Htr, Hd, Hth, Hb. repeat split; try done.
    + simpl. by rewrite Ht, Hperm.
    + rewrite Htr. simpl. by rewrite <- app_assoc.
  - by apply IH.
Qed.

Lemma run_all_replies (ev : task → event) sched w :
  (∀ t, t ∈ queue w → ∀ w', complete t w' = log (ev t) w') →
  ∃ done, done ≡ₚ queue w
          ∧ trace (run_all sched w) = trace w ++ (ev <$> done)
          ∧ disk (run_all sched w) = disk w
          ∧ this (run_all sched w) = this w
          ∧ batch (run_all sched w) = batch w.
Proof.
  intros Hq. pose proof (queue_run_all sched w) as Hidle. revert Hidle.
  unfold run_all, drain.
  destruct (run_replies ev sched w Hq) as (d1 & Hp1 & Htr1 & Hd1 & Hth1 & Hb1).
  set (w1 := run sched w) in *.
  destruct (run_replies ev (replicate (length (queue w1)) 0) w1)
    as (d2 & Hp2 & Htr2 & Hd2 & Hth2 & Hb2).
  { intros t Ht. apply Hq. rewrite <- Hp1. apply elem_of_app. by right. }
  intros Hidle. rewrite Hidle, app_nil_r in Hp2.
  exists (d1 ++ d2). repeat split; try congruence.
  - by rewrite Hp2.
  - by rewrite Htr2, Htr1, fmap_app, app_assoc.
Qed.

Lemma timing_split (calls : list (timing * list value)) :
  filter (λ c, c.1 = Now) calls ++ filter (λ c, c.1 = Later) calls ≡ₚ calls.
Proof.
  induction calls as [|[[] args] calls IH].
  - done.
  - rewrite filter_cons_True, filter_cons_False by done. simpl. by rewrite IH.
  - rewrite filter_cons_False, filter_cons_True by done.
    by rewrite <- Permutation_middle, IH.
Qed.

(** The dispatch with a callback that only reports to a function of the
    caller: the listeners that answer at once have been answered, the
    replies of the others are in flight. *)
Lemma emit_reports ev calls cb (rep : list value → event) w :
  (∀ args w, call cb args w = (Ret tt, log (rep args) w)) →
  emit ev calls cb w =
    (Ret tt,
     dispatched
       (flat_map (λ c, ev :: match c.1 with
                             | Now => [rep c.2]
                             | Later => []
                             end) calls)
       ((λ c, TReply c.2 cb) <$> filter (λ c, c.1 = Later) calls) w).
Proof.
  intros Hcb. revert w. induction calls as [|[t args] calls IH]; intros w.
  - simpl. by rewrite dispatched_nil.
  - cbn [emit]. unfold mbind, M_bind, modify. cbn [fst snd].
    destruct t; cbn [answer].
    + rewrite Hcb, IH. f_equal. rewrite filter_cons_False by done.
      cbn [flat_map fst snd]. unfold dispatched, log. simpl.
      by rewrite <- !app_assoc.
    + unfold modify. rewrite IH. f_equal. rewrite filter_cons_True by done.
      cbn [flat_map fst snd]. unfold dispatched, log, enqueue. simpl.
      by rewrite <- !app_assoc.
Qed.

(** Such a dispatch from a world with nothing in flight, once every
    reply has come: the caller's function has been called once for each
    listener, in an order that depends on when the listeners answer. *)
Lemma emit_fan_out ev calls cb id (g : list value → list value) sched w :
  (∀ args w, call cb args w = (Ret tt, log (EvCallback id (g args)) w)) →
  is_io ev = true →
  queue w = [] →
  let w' := run_all sched (emit ev calls cb w).2 in
  (emit ev calls cb w).1 = Ret tt
  ∧ callbacks_of id (trace w')
    ≡ₚ callbacks_of id (trace w) ++ ((λ c, g c.2) <$> calls)
  ∧ List.filter is_io (trace w')
    = List.filter is_io (trace w) ++ ((λ _, ev) <$> calls)
  ∧ disk w' = disk w ∧ this w' = this w ∧ queue w' = [].
Proof.
  intros Hcb Hev Hq. cbv zeta.
  rewrite (emit_reports ev calls cb (λ args, EvCallback id (g args))) by done.
  cbn [fst snd]. split; [done|].
  set (E := flat_map _ calls). set (w0 := dispatched _ _ _).
  destruct (run_all_replies (λ t, EvCallback id (g (reply_args t))) sched w0)
    as (done & Hperm & Htr & Hd & Hth & _).
  { subst w0. simpl. rewrite Hq. simpl.
    intros t (c & -> & _)%list_elem_of_fmap w'. simpl.
    unfold invoke. by rewrite Hcb. }
  rewrite Htr, Hd, Hth, queue_run_all. subst w0. simpl.
  simpl in Hperm. rewrite Hq in Hperm. simpl in Hperm.
  assert (Hnc : ∀ l, callbacks_of id (ev :: l) = callbacks_of id l).
  { intros l. destruct ev; simpl in Hev; try discriminate; done. }
  assert (HE1 : callbacks_of id E = (λ c, g c.2) <$> filter (λ c, c.1 = Now) calls).
  { subst E. clear -Hnc. induction calls as [|[[] args] calls IH]; [done| |].
    - rewrite filter_cons_True by done. cbn [flat_map fst snd].
      rewrite fmap_cons, <- IH. cbn [app]. rewrite Hnc. simpl.
      by rewrite decide_True by done.
    - rewrite filter_cons_False by done. cbn [flat_map fst snd].
      cbn [app]. by rewrite Hnc. }
  assert (HE2 : List.filter is_io E = (λ _, ev) <$> calls).
  { subst E. clear -Hev. induction calls as [|[[] args] calls IH]; [done| |];
      cbn [flat_map fst snd]; rewrite List.filter_app, IH, fmap_cons; simpl;
      by rewrite Hev. }
  repeat split.
  - rewrite !callbacks_of_app, HE1,
      (callbacks_of_fmap id (λ t, g (reply_args t))), Hperm.
    rewrite <- list_fmap_compose, <- app_assoc, <- fmap_app.
    by rewrite timing_split.
  - rewrite !List.filter_app, HE2.
    replace (List.filter is_io
               ((λ t, EvCallback id (g (reply_args t))) <$> done))
      with (@nil event); [by rewrite app_nil_r|].
    clear. by induction done.
Qed.





(** ** [readFiles] *)

Lemma callbacks_of_snoc_other id tr e :
  (∀ id' args, e ≠ EvCallback id' args) →
  callbacks_of id (tr ++ [e]) = callbacks_of id tr.
Proof.
  intros H. rewrite callbacks_of_app. destruct e; simpl; try by rewrite app_nil_r.
  by destruct (H id0 args).
Qed.

Lemma covering_length (l : list nat) n : (∀ i, i < n → i ∈ l) → n ≤ length l.
Proof.
  intros H.
  assert (Hsub : seq 0 n ⊆+ l).
  { apply NoDup_submseteq; [apply NoDup_seq|].
    intros i Hi%elem_of_seq. apply H. lia. }
  apply submseteq_length in Hsub. by rewrite length_seq in Hsub.
Qed.

Section ReadFiles.
(** The store and the filesystem [readFiles] runs on, the names handed
    to it and the caller's callback. *)
Context (store : FileStorage) (fs : filesystem).
Context (names : list string) (id : nat).

Lemma read_core_frame j w w' :
  this w' = this w → disk w' = disk w → batch w' = batch w →
  callbacks_of id (trace w') = callbacks_of id (trace w) →
  read_core store fs names id j w → read_core store fs names id j w'.
Proof.
  intros Hs Hd Hb Ht [H1 H2 H3 H4 H5 H6 H7 H8 H9 H10 H11].
  constructor; rewrite ?Hs, ?Hd, ?Hb, ?Ht; done.
Qed.

Lemma read_core_mono j j' w :
  j ≤ j' → j' ≤ length names →
  read_core store fs names id j w → read_core store fs names id j' w.
Proof.
  intros Hj Hj' [H1 H2 H3 H4 H5 H6 H7 H8 H9 H10 H11].
  constructor; try done. intros i Hi. specialize (H6 i Hi). lia.
Qed.

(** A name completes: its object goes into the results array, and when it
    was the last one the caller's callback receives the array. *)
Lemma read_core_map_done j w i name resp :
  read_core store fs names id j w → i < j →
  names !! i = Some name → resp ∈ read_outcomes store fs name →
  read_core store fs names id j (settle (map_done i [VNull; resp] w))
  ∧ ∀ k, k ∈ called (batch (settle (map_done i [VNull; resp] w)))
         ↔ k = i ∨ k ∈ called (batch w).
Proof.
  intros [Hthis Hdisk Htot Hfin Hnd Hcalled Hj Hcomp Hlen Hres Hlog]
    Hi Hname Hresp.
  set (rs' := array_set i resp (results (batch w))).
  assert (Hlen' : length rs' ≤ length names).
  { unfold rs'. rewrite array_set_length. lia. }
  assert (Hres' : ∀ k, k = i ∨ k ∈ called (batch w) →
            ∃ name r, names !! k = Some name ∧ rs' !! k = Some r
                      ∧ r ∈ read_outcomes store fs name).
  { intros k Hk. destruct (decide (k = i)) as [->|Hne].
    - exists name, resp. split; [done|]. split; [apply array_set_lookup|done].
    - destruct Hk as [|Hk]; [done|].
      destruct (Hres k Hk) as (nm & r & Hn & Hr & Hir).
      exists nm, r. split; [done|]. split; [|done].
      by apply array_set_lookup_ne. }
  unfold map_done. rewrite settle_each_done. unfold item_done.
  cbn [arg nth batch set_batch called truthy].
  case_decide as Hin.
  { split.
    - constructor; cbn [this disk batch log set_batch trace total final called
                        completed results]; try done.
      + intros k Hk. apply Hres'. by right.
      + by rewrite callbacks_of_snoc_other.
    - intros k. cbn [batch log set_batch called]. split; [by right|].
      by intros [->|]. }
  cbn [log set_batch batch total completed trace this disk queue].
  destruct (total (batch w) <=? S (completed (batch w)))%nat eqn:Hle.
  - apply Nat.leb_le in Hle. rewrite Htot, Hcomp in Hle.
    unfold call_final. cbn [batch set_batch final results]. rewrite Hfin.
    assert (Hnd' : NoDup (i :: called (batch w))) by (by constructor).
    assert (Hb' : ∀ k, k ∈ i :: called (batch w) → k < length names).
    { intros k [->|Hk]%elem_of_cons; [lia|]. specialize (Hcalled k Hk). lia. }
    pose proof (bounded_nodup_length _ _ Hnd' Hb') as Hub. simpl in Hub.
    split.
    + constructor; cbn [this disk batch log set_batch trace total final called
                        completed results]; try done.
      * intros k [->|Hk]%elem_of_cons; [done|by apply Hcalled].
      * by rewrite Hcomp.
      * intros k Hk. apply Hres'. by apply elem_of_cons in Hk.
      * right. split; [simpl; lia|]. exists rs'.
        destruct Hlog as [[_ Hnone]|[Heq _]]; [|lia].
        split.
        { rewrite callbacks_of_app, callbacks_of_snoc_other, Hnone by done.
          simpl. by rewrite decide_True. }
        assert (Hall : ∀ k, k < length names → k ∈ i :: called (batch w)).
        { apply bounded_nodup_full; [done|done|simpl; lia]. }
        split.
        { apply Nat.le_antisymm; [done|].
          destruct (length names) as [|n] eqn:Hn; [lia|].
          destruct (Hres' n) as (nm & r & _ & Hr & _).
          { apply elem_of_cons, Hall. lia. }
          apply lookup_lt_Some in Hr. lia. }
        intros k nm Hk.
        destruct (Hres' k) as (nm' & r & Hn' & Hr & Hir).
        { apply elem_of_cons, Hall. by apply lookup_lt_Some in Hk. }
        exists r. split; [done|]. congruence.
    + intros k. cbn [batch log set_batch called]. by rewrite elem_of_cons.
  - apply Nat.leb_gt in Hle. rewrite Htot, Hcomp in Hle.
    split.
    + constructor; cbn [this disk batch log set_batch trace total final called
                        completed results]; try done.
      * by constructor.
      * intros k [->|Hk]%elem_of_cons; [done|by apply Hcalled].
      * by rewrite Hcomp.
      * intros k Hk. apply Hres'. by apply elem_of_cons in Hk.
      * left. split; [simpl; lia|].
        rewrite callbacks_of_snoc_other by done.
        destruct Hlog as [[_ Hnone]|[Heq _]]; [done|lia].
    + intros k. cbn [batch log set_batch called]. by rewrite elem_of_cons.
Qed.

(** An operation in flight for the name at index [i] completes with an
    outcome of that name. *)
Lemma complete_read_item i t w :
  disk w = fs → read_item store fs names i t →
  ∃ name resp, names !! i = Some name
               ∧ resp ∈ read_outcomes store fs name
               ∧ complete t w = settle (map_done i [VNull; resp] w).
Proof.
  intros Hd [name Hn He Hl|name h Hn He Hh]; exists name.
  - cbn [complete]. rewrite Hd.
    destruct (read_file fs (local_path store name)) as [e|data] eqn:Hr.
    + exists (response name (read_error e (local_path store name)) VUndefined).
      split; [done|]. split; [|done].
      unfold read_outcomes. rewrite He, Hl, Hr. by apply list_elem_of_singleton.
    + exists (response name VNull (VBuffer data)).
      split; [done|]. split; [|done].
      unfold read_outcomes. rewrite He, Hl, Hr. by apply list_elem_of_singleton.
  - exists (response name (h name).1 (h name).2).
    split; [done|]. split; [|done].
    unfold read_outcomes. rewrite He.
    destruct (read_listeners store) as [|h0 hs]; [by apply elem_of_nil in Hh|].
    apply list_elem_of_fmap. by exists h.
Qed.

Lemma queue_map_done i args w : queue (settle (map_done i args w)) = queue w.
Proof. apply (queue_invoke (MapDone i)). Qed.

Lemma read_inv_step j k w :
  read_inv store fs names id j w → read_inv store fs names id j (step k w).
Proof.
  intros (Hc & Hq & Hp). unfold step.
  destruct (take_out (k `mod` length (queue w))%nat (queue w))
    as [[t rest]|] eqn:Ht; [|done].
  apply take_out_Some in Ht as [_ Hin].
  destruct (Hq t) as (i & Hi & Hitem); [apply Hin; by left|].
  destruct (complete_read_item i t (set_queue rest w) (rc_disk _ _ _ _ _ _ Hc)
              Hitem) as (name & resp & Hn & Hresp & ->).
  assert (Hc0 : read_core store fs names id j (set_queue rest w))
    by (by apply (read_core_frame j w)).
  destruct (read_core_map_done _ _ _ _ _ Hc0 Hi Hn Hresp) as [Hc' Hcalled'].
  split; [done|]. split.
  - intros t' Ht'. rewrite queue_map_done in Ht'. simpl in Ht'.
    apply Hq, Hin. by right.
  - intros i' Hi' Hnot. rewrite queue_map_done. simpl.
    assert (i' ≠ i ∧ i' ∉ called (batch w)) as [Hne Hnot'].
    { split; intros ?; apply Hnot, Hcalled'; [by left|by right]. }
    destruct (Hp i' Hi' Hnot') as (t' & Ht' & Hitem').
    exists t'. split; [|done].
    apply Hin in Ht' as [->|]; [|done].
    exfalso. apply Hne. inversion Hitem; inversion Hitem'; congruence.
Qed.

Lemma read_inv_run j sched w :
  read_inv store fs names id j w → read_inv store fs names id j (run sched w).
Proof.
  revert w. induction sched as [|k sched IH]; intros w H; simpl; [done|].
  by apply IH, read_inv_step.
Qed.

Lemma read_inv_run_all j sched w :
  read_inv store fs names id j w →
  read_inv store fs names id j (run_all sched w).
Proof. intros H. unfold run_all, drain. by apply read_inv_run, read_inv_run. Qed.

(** A name whose outcome is reported before [readFile] returns. *)
Lemma read_inv_now j w w0 name resp :
  read_inv store fs names id j w → names !! j = Some name →
  resp ∈ read_outcomes store fs name →
  this w0 = this w → disk w0 = disk w → batch w0 = batch w →
  queue w0 = queue w → callbacks_of id (trace w0) = callbacks_of id (trace w) →
  read_inv store fs names id (S j) (settle (map_done j [VNull; resp] w0)).
Proof.
  intros (Hc & Hq & Hp) Hn Hresp Hth Hd Hb Hqu Htr.
  assert (Hj : S j ≤ length names) by (by apply lookup_lt_Some in Hn).
  assert (Hc1 : read_core store fs names id (S j) w0).
  { apply (read_core_frame (S j) w); try done.
    apply (read_core_mono j); [lia|done|done]. }
  destruct (read_core_map_done (S j) w0 j name resp Hc1) as [Hc' Hcalled'];
    [lia|done|done|].
  split; [done|]. split.
  - intros t. rewrite queue_map_done, Hqu. intros Ht.
    destruct (Hq t Ht) as (i & Hi & Hitem). exists i. split; [lia|done].
  - intros i Hi Hnot. rewrite queue_map_done, Hqu.
    assert (i ≠ j ∧ i ∉ called (batch w)) as [Hne Hnot'].
    { rewrite <- Hb. split; intros ?; apply Hnot, Hcalled'; [by left|by right]. }
    apply Hp; [lia|done].
Qed.

(** A name whose operations are left in flight. *)
Lemma read_inv_later j w name evs ts :
  read_inv store fs names id j w → names !! j = Some name →
  callbacks_of id evs = [] → ts ≠ [] →
  (∀ t, t ∈ ts → read_item store fs names j t) →
  read_inv store fs names id (S j) (dispatched evs ts w).
Proof.
  intros (Hc & Hq & Hp) Hn Hevs Hts Hitem.
  assert (Hj : S j ≤ length names) by (by apply lookup_lt_Some in Hn).
  split; [|split].
  - apply (read_core_frame (S j) w); [done|done|done| |].
    + cbn [dispatched trace]. by rewrite callbacks_of_app, Hevs, app_nil_r.
    + apply (read_core_mono j); [lia|done|done].
  - intros t. cbn [dispatched queue].
    intros [Ht|Ht]%elem_of_app.
    + destruct (Hq t Ht) as (i & Hi & Hit). exists i. split; [lia|done].
    + exists j. split; [lia|by apply Hitem].
  - intros i Hi Hnot. cbn [dispatched queue batch] in *.
    destruct (decide (i = j)) as [->|Hne].
    + destruct ts as [|t ts]; [done|]. exists t.
      split; [|apply Hitem; by left].
      apply elem_of_app; right. by left.
    + destruct (Hp i) as (t & Ht & Hit); [lia|done|].
      exists t. split; [apply elem_of_app; by left|done].
Qed.

(** Handing one more name to [readFile]. *)
Lemma readFile_inv j w name :
  read_calm store fs →
  read_inv store fs names id j w → names !! j = Some name →
  ∃ w', readFile name (ReadReply name (MapDone j)) w = (Ret tt, w')
        ∧ read_inv store fs names id (S j) w'.
Proof.
  intros Hcalm Hinv Hn.
  pose proof Hinv as (Hc & Hq & Hp).
  pose proof (rc_this _ _ _ _ _ _ Hc) as Hthis.
  assert (Hen : enabled w = enabled (init_world store fs)).
  { rewrite !enabled_unfold. simpl. by rewrite Hthis. }
  assert (Hfresh : ∀ w0, batch w0 = batch w →
            ∀ i, guard_of (ReadReply name (MapDone j)) = Some i →
                 i ∉ called (batch w0)).
  { intros w0 Hb i [= <-] Hin. rewrite Hb in Hin.
    apply (rc_called _ _ _ _ _ _ Hc) in Hin. lia. }
  destruct (enabled w) eqn:He.
  - destruct (read_listeners (this w)) as [|h hs] eqn:Hl.
    + (* local *)
      eexists. split; [by apply readFile_local|].
      apply (read_inv_later j w name); [done|done|done|done|].
      intros t ->%list_elem_of_singleton.
      rewrite Hthis. constructor; [done|done|by rewrite <- Hthis].
    + (* listeners *)
      assert (Hitem : ∀ h' : read_handler, h' ∈ h :: hs →
                read_item store fs names j
                  (TReply [(h' name).1; (h' name).2] (ReadReply name (MapDone j)))).
      { intros h' Hh'. constructor; [done|done|]. by rewrite <- Hthis, Hl. }
      assert (Hcase : read_later (this w) ∨ (hs = [] ∧ read_timing h = Now)).
      { destruct Hcalm as [Hdis|[Hlat|Hone]].
        - congruence.
        - left. by rewrite Hthis.
        - rewrite <- Hthis, Hl in Hone. destruct hs; [|simpl in Hone; lia].
          destruct (read_timing h) eqn:Ht; [by right|].
          left. unfold read_later. rewrite Hl. by repeat constructor. }
      destruct Hcase as [Hlater|[-> Hnow]].
      * eexists. split; [apply readFile_handler; [done|by rewrite Hl|done]|].
        unfold read_events, read_replies. rewrite Hl.
        apply (read_inv_later j w name); [done|done| |done|].
        -- generalize (h :: hs). intros l. induction l; [done|].
           by rewrite fmap_cons.
        -- intros t (h' & -> & Hh')%list_elem_of_fmap. by apply Hitem.
      * eexists. split.
        { rewrite readFile_emit by (done || by rewrite Hl).
          rewrite Hl, emit_read_now by done.
          rewrite call_fresh by (by apply Hfresh). reflexivity. }
        apply (read_inv_now j w _ name); try done.
        -- unfold read_outcomes. rewrite <- Hen, <- Hthis, Hl.
           by apply list_elem_of_singleton.
        -- simpl. by rewrite callbacks_of_snoc_other.
  - (* disabled *)
    eexists. split.
    { rewrite readFile_disabled by done.
      rewrite call_fresh by (by apply Hfresh). reflexivity. }
    apply (read_inv_now j w _ name); try done.
    unfold read_outcomes. rewrite <- Hen. by apply list_elem_of_singleton.
Qed.

Lemma iterate_readFile_inv rest pre w :
  read_calm store fs →
  names = pre ++ rest → read_inv store fs names id (length pre) w →
  ∃ w', iterate (λ filename i, readFile filename (ReadReply filename (MapDone i)))
          (length pre) rest w = (Ret tt, w')
        ∧ read_inv store fs names id (length names) w'.
Proof.
  intros Hcalm. revert pre w.
  induction rest as [|x rest IH]; intros pre w Hn Hinv.
  - exists w. split; [done|]. rewrite app_nil_r in Hn. by subst names.
  - destruct (readFile_inv (length pre) w x Hcalm Hinv) as (w1 & Hr & Hinv1).
    { rewrite Hn. by apply list_lookup_middle. }
    destruct (IH (pre ++ [x]) w1) as (w' & Hit & Hinv').
    + by rewrite <- app_assoc.
    + rewrite length_app. simpl. by rewrite Nat.add_1_r.
    + exists w'. split; [|done]. simpl.
      rewrite (bind_Ret _ _ _ _ _ Hr).
      rewrite length_app in Hit. simpl in Hit. by rewrite Nat.add_1_r in Hit.
Qed.

End ReadFiles.

Lemma readFiles_inv store fs names id :
  read_calm store fs →
  ∃ w1, readFiles names id (init_world store fs) = (Ret tt, w1)
        ∧ read_inv store fs names id (length names) w1.
Proof.
  intros Hcalm.
  unfold readFiles, async_each. destruct names as [|x names].
  { eexists. split; [reflexivity|]. split; [|split].
    - constructor; simpl; try done.
      + constructor.
      + intros i Hi. by apply elem_of_nil in Hi.
      + intros i Hi. by apply elem_of_nil in Hi.
      + right. split; [done|]. exists []. rewrite decide_True by done.
        split; [done|]. split; [done|].
        intros i name Hi. by rewrite lookup_nil in Hi.
    - intros t Ht. by apply elem_of_nil in Ht.
    - intros i Hi. simpl in Hi. lia. }
  set (ns := x :: names).
  set (w0 := set_batch {| total := length ns; completed := 0; called := [];
                          results := []; final := Some (MapFinal id) |}
               (init_world store fs)).
  assert (Hinv0 : read_inv store fs ns id 0 w0).
  { split; [|split].
    - constructor; simpl; try done.
      + constructor.
      + intros i Hi. by apply elem_of_nil in Hi.
      + lia.
      + lia.
      + intros i Hi. by apply elem_of_nil in Hi.
      + left. split; [lia|done].
    - intros t Ht. by apply elem_of_nil in Ht.
    - intros i Hi. lia. }
  destruct (iterate_readFile_inv store fs ns id ns [] w0 Hcalm eq_refl Hinv0)
    as (w1 & Hit & Hinv1).
  exists w1. split; [|done]. unfold mbind, M_bind, modify. exact Hit.
Qed.

Lemma read_inv_idle store fs names id w :
  read_inv store fs names id (length names) w → queue w = [] →
  ∃ rs, callbacks_of id (trace w) = [[VNull; VArray rs]]
        ∧ good_results store fs names rs.
Proof.
  intros (Hc & _ & Hp) Hq.
  assert (Hall : ∀ i, i < length names → i ∈ called (batch w)).
  { intros i Hi. destruct (decide (i ∈ called (batch w))) as [|Hnot]; [done|].
    destruct (Hp i Hi Hnot) as (t & Ht & _). rewrite Hq in Ht.
    by apply elem_of_nil in Ht. }
  apply covering_length in Hall.
  destruct (rc_log _ _ _ _ _ _ Hc) as [[Hlt _]|[_ Hrs]]; [lia|done].
Qed.

Lemma read_outcomes_single store fs name :
  enabled (init_world store fs) = false ∨ length (read_listeners store) ≤ 1 →
  read_outcomes store fs name = [read_outcome store fs name].
Proof.
  unfold read_outcomes, read_outcome.
  destruct (enabled (init_world store fs)); [|done].
  intros [?|Hlen]; [done|].
  destruct (read_listeners store) as [|h [|h' hs]]; [|done|simpl in Hlen; lia].
  by destruct (read_file fs (local_path store name)) as [[]|].
Qed.

Lemma good_results_single store fs names rs :
  (∀ name, read_outcomes store fs name = [read_outcome store fs name]) →
  good_results store fs names rs →
  rs = read_outcome store fs <$> names.
Proof.
  intros Hone [Hlen Hrs]. apply list_eq. intros i.
  rewrite list_lookup_fmap.
  destruct (names !! i) as [name|] eqn:Hi; simpl.
  - destruct (Hrs i name Hi) as (r & -> & Hr). rewrite Hone in Hr.
    by apply list_elem_of_singleton in Hr as ->.
  - apply lookup_ge_None. apply lookup_ge_None in Hi. lia.
Qed.

(** The array [readFiles] reports on a store that is disabled or has at
    most one ['read'] listener. *)
Lemma readFiles_reports store fs names id sched :
  enabled (init_world store fs) = false ∨ length (read_listeners store) ≤ 1 →
  (readFiles names id (init_world store fs)).1 = Ret tt
  ∧ callbacks_of id
      (trace (run_all sched (readFiles names id (init_world store fs)).2))
    = [[VNull; VArray (read_outcome store fs <$> names)]].
Proof.
  intros Hone. destruct (readFiles_inv store fs names id) as (w1 & -> & Hinv).
  { destruct Hone; [by left|by right; right]. }
  split; [done|]. cbn [snd].
  destruct (read_inv_idle store fs names id (run_all sched w1))
    as (rs & -> & Hrs).
  - by apply read_inv_run_all.
  - apply queue_run_all.
  - rewrite (good_results_single store fs names rs); [done| |done].
    intros name. by apply read_outcomes_single.
Qed.




(** The example of the specification: of three names the second does not
    exist; the result has three elements in the order of the names, the
    second with an error. *)
Example readFiles_example :
  callbacks_of 7
    (trace (run_all [2; 0]
              (readFiles ["a"; "b"; "c"] 7
                 (saved example_store
                    (saved example_store example_fs "a" (CString "x") []).(disk)
                    "c" (CString "z") [])).2))
  = [[VNull;
      VArray [VRespContents "a" (VBuffer ["x"%byte]);
              VRespError "b" (VErrno ENOENT "data/b");
              VRespContents "c" (VBuffer ["z"%byte])]]].
Proof. vm_compute. reflexivity. Qed.

(** ** [saveFiles] *)

Lemma completions_app a b : completions (a ++ b) = completions a ++ completions b.
Proof.
  induction a as [|e a IH]; simpl; [done|].
  destruct e; try done. simpl. by rewrite IH.
Qed.

Lemma completions_snoc_other tr e :
  (∀ i err, e ≠ EvDone i err) → completions (tr ++ [e]) = completions tr.
Proof.
  intros H. rewrite completions_app. destruct e; simpl; try by rewrite app_nil_r.
  by destruct (H i err).
Qed.

Lemma completions_walk evs : forallb is_walk evs = true → completions evs = [].
Proof.
  induction evs as [|e evs IH]; simpl; [done|].
  intros [He Hevs]%andb_true_iff. destruct e; try done; by apply IH.
Qed.

Lemma first_error_snoc cs i e :
  first_error (cs ++ [(i, e)]) =
    match first_error cs with
    | Some e' => Some e'
    | None => if truthy e then Some e else None
    end.
Proof.
  induction cs as [|[k x] cs IH]; simpl; [done|].
  by destruct (truthy x).
Qed.

Lemma first_error_truthy cs e : first_error cs = Some e → truthy e = true.
Proof.
  induction cs as [|[k x] cs IH]; simpl; [done|].
  destruct (truthy x) eqn:Hx; [|done]. by intros [= <-].
Qed.

Lemma first_error_None cs :
  first_error cs = None ↔ Forall (λ c, truthy c.2 = false) cs.
Proof.
  induction cs as [|[k x] cs IH]; simpl.
  - split; [constructor|done].
  - destruct (truthy x) eqn:Hx.
    + split; [done|]. intros H. inversion H; simpl in *; congruence.
    + rewrite IH. split; [by constructor|]. intros H. by inversion H.
Qed.

Lemma reported_pending n cs :
  first_error cs = None → length cs < n → reported n cs = [].
Proof.
  intros H Hlt. unfold reported. rewrite H.
  by rewrite (proj2 (Nat.leb_gt _ _) Hlt).
Qed.

Lemma completions_done tr i err :
  completions (tr ++ [EvDone i err]) = completions tr ++ [(i, err)].
Proof. by rewrite completions_app. Qed.

Lemma completions_callback tr id args :
  completions (tr ++ [EvCallback id args]) = completions tr.
Proof. by rewrite completions_snoc_other. Qed.

Lemma callbacks_of_done id tr i err :
  callbacks_of id (tr ++ [EvDone i err]) = callbacks_of id tr.
Proof. by rewrite callbacks_of_snoc_other. Qed.

Lemma callbacks_of_callback id tr args :
  callbacks_of id (tr ++ [EvCallback id args]) = callbacks_of id tr ++ [args].
Proof. rewrite callbacks_of_app. simpl. by rewrite decide_True. Qed.

(** Reading the completions and the callback calls off a trace that
    ends with known events. *)
Create Rewrite HintDb trace.
#[local] Hint Rewrite completions_callback completions_done
  callbacks_of_callback callbacks_of_done : trace.

Ltac norm_trace :=
  cbn [batch log set_batch trace total final called completed results];
  autorewrite with trace.

(** *** Every entry is handed over *)

Lemma filter_issue_walk evs :
  forallb is_walk evs = true → List.filter is_issue evs = [].
Proof.
  induction evs as [|e evs IH]; simpl; [done|].
  intros [He Hevs]%andb_true_iff. destruct e; try done; by apply IH.
Qed.






Lemma enabled_same_config w store fs :
  same_config (this w) store → enabled w = enabled (init_world store fs).
Proof.
  intros (Hd & Hs & Hr). rewrite !enabled_unfold. simpl.
  unfold directory. by rewrite Hd, Hs, Hr.
Qed.

(** Whatever [saveFile] does, the directory and the listeners of the
    store are as they were. *)
Lemma saveFile_config w filename body callback :
  same_config (this (saveFile filename body callback w).2) (this w).
Proof.
  destruct (enabled w) eqn:He.
  - destruct (save_listeners (this w)) as [|h hs] eqn:Hl.
    + rewrite saveFile_local_opt by done.
      pose proof (checkDirExists_frame (directory (this w)) w) as Hf.
      destruct (checkDirExists (directory (this w)) w) as [[[]|e] w1];
        simpl in Hf; destruct Hf as (Ht & _).
      * destruct callback; simpl; by rewrite Ht.
      * simpl. by rewrite Ht.
    + rewrite saveFile_emit by (done || by rewrite Hl).
      destruct (emit_save_frame (save_listeners (this w)) filename
                  (to_buffer body) (SaveReply callback) w) as (Ht & _).
      by rewrite Ht.
  - rewrite saveFile_disabled by done. destruct callback as [cb|]; [|done].
    destruct (call_world cb [not_enabled] w) as (Ht & _). by rewrite Ht.
Qed.

Lemma save_calm_config s s' fs fs' :
  same_config s' s → save_calm s fs → save_calm s' fs'.
Proof.
  intros Hcfg. pose proof Hcfg as (_ & Hs & _).
  unfold save_calm, save_later.
  rewrite <- (enabled_same_config (init_world s' fs') s fs Hcfg), Hs.
  done.
Qed.



(** *** The directory walk of a batch *)

Lemma checkDirExists_idem dir w :
  (∀ p, p ∈ walked dir → exists_path (disk w) p = true) →
  checkDirExists dir w =
    (Ret tt, dispatched ((λ p, EvExistsSync p true) <$> walked dir) [] w).
Proof.
  unfold checkDirExists, walked. destruct (dir_falsy dir).
  - intros _. simpl. by rewrite dispatched_nil.
  - apply checkDirExists_loop_idem.
Qed.

Lemma enabled_this w w' : this w' = this w → enabled w' = enabled w.
Proof. intros H. by rewrite !enabled_unfold, H. Qed.

(** Once a [saveFile] has returned, the next one does not throw out of
    the walk. *)
Lemma saveFile_settles w filename body callback w' :
  saveFile filename body callback w = (Ret tt, w') → walk_settled w'.
Proof.
  intros Hrun.
  pose proof (saveFile_config w filename body callback) as Hcfg.
  rewrite Hrun in Hcfg. simpl in Hcfg.
  pose proof (enabled_same_config w' (this w) (disk w) Hcfg) as Hen.
  change (enabled (init_world (this w) (disk w))) with (enabled w) in Hen.
  destruct Hcfg as (Hd & Hs & _).
  destruct (enabled w) eqn:He; [|by left].
  destruct (save_listeners (this w)) as [|h hs] eqn:Hl;
    [|right; left; by rewrite Hs].
  right. right. revert Hrun. rewrite saveFile_local_opt by done.
  destruct (checkDirExists (directory (this w)) w) as [[[]|e] w1] eqn:Hwalk;
    [|done].
  intros Hw.
  assert (Hdisk : disk w' = disk w1).
  { destruct callback; simpl in Hw; [|done]. by injection Hw as <-. }
  unfold directory. rewrite Hd, Hdisk. revert Hwalk.
  unfold checkDirExists, walked, directory.
  destruct (dir_falsy (_directory (this w))).
  - intros _ p Hp. by apply elem_of_nil in Hp.
  - intros Hwalk.
    by destruct (checkDirExists_loop_creates _ _ _ _ _ Hwalk) as (_ & Hall & _).
Qed.



Section SaveFiles.
(** The number of entries handed to [saveFiles] and the caller's
    callback, if any. *)
Context (n : nat) (fin : option nat).

Lemma save_core_frame j w w' :
  batch w' = batch w →
  completions (trace w') = completions (trace w) →
  (∀ id, callbacks_of id (trace w') = callbacks_of id (trace w)) →
  save_core n fin j w → save_core n fin j w'.
Proof.
  intros Hb Hc Ht [H1 H2 H3 H4 H5 H6 H7 H8].
  constructor; rewrite ?Hb, ?Hc; try done.
  intros id Hid. rewrite Ht. by apply H8.
Qed.

Lemma save_core_mono j j' w :
  j ≤ j' → j' ≤ n → save_core n fin j w → save_core n fin j' w.
Proof.
  intros Hj Hj' [H1 H2 H3 H4 H5 H6 H7 H8].
  constructor; try done. intros i Hi. specialize (H4 i Hi). lia.
Qed.

Lemma save_core_length j w :
  save_core n fin j w →
  length (completions (trace w)) = length (called (batch w))
  ∧ length (called (batch w)) ≤ j.
Proof.
  intros [H1 H2 H3 H4 H5 H6 H7 H8]. split.
  - rewrite <- (length_fmap fst), H5. apply length_rev.
  - by apply bounded_nodup_length.
Qed.

Lemma save_core_each_done j w i err :
  save_core n fin j w → i < j →
  save_core n fin j (settle (each_done i err w))
  ∧ ∀ k, k ∈ called (batch (settle (each_done i err w)))
         ↔ k = i ∨ k ∈ called (batch w).
Proof.
  intros Hc Hi. destruct (save_core_length _ _ Hc) as [Hlen Hub].
  destruct Hc as [Htot Hj Hnd Hcalled Hcs Hcomp Hfin Hlog].
  rewrite settle_each_done. unfold item_done. case_decide as Hin.
  { split.
    - apply (save_core_frame j w); [done| | |by constructor].
      + simpl. by rewrite completions_snoc_other.
      + intros id. simpl. by rewrite callbacks_of_snoc_other.
    - intros k. simpl. split; [by right|]. by intros [->|]. }
  assert (Hnd' : NoDup (i :: called (batch w))) by (by constructor).
  assert (Hb' : ∀ k, k ∈ i :: called (batch w) → k < j).
  { intros k [->|Hk]%elem_of_cons; [done|by apply Hcalled]. }
  pose proof (bounded_nodup_length _ _ Hnd' Hb') as Hub'. simpl in Hub'.
  assert (Hcs' : (completions (trace w) ++ [(i, err)]).*1
                 = rev (i :: called (batch w))).
  { rewrite fmap_app, Hcs. simpl. done. }
  assert (Hmem : ∀ k, k ∈ i :: called (batch w) ↔ k = i ∨ k ∈ called (batch w))
    by (intros k; apply elem_of_cons).
  set (cs := completions (trace w)) in *.
  assert (Hfe' : first_error (cs ++ [(i, err)]) =
                 match first_error cs with
                 | Some e => Some e
                 | None => if truthy err then Some err else None
                 end) by apply first_error_snoc.
  destruct (truthy err) eqn:Herr.
  - (* the entry failed *)
    split; [|exact Hmem].
    unfold call_final. cbn [batch log final]. rewrite Hfin.
    destruct (first_error cs) as [e|] eqn:Hfe.
    + constructor; norm_trace; fold cs; rewrite ?Hfe'; try done.
      intros id Hid. norm_trace. rewrite (Hlog id Hid). unfold reported.
      by rewrite Hfe', Hfe.
    + destruct fin as [id0|]; simpl.
      * constructor; norm_trace; fold cs; rewrite ?Hfe'; try done.
        intros id [= <-]. norm_trace.
        rewrite (Hlog id0 eq_refl), reported_pending by (done || lia).
        unfold reported. by rewrite Hfe'.
      * constructor; norm_trace; fold cs; rewrite ?Hfe'; try done.
  - (* the entry succeeded *)
    assert (Hfe2 : first_error (cs ++ [(i, err)]) = first_error cs).
    { rewrite Hfe'. by destruct (first_error cs). }
    assert (Hcore : ∀ tr' f,
      f = final (batch w) →
      completions tr' = cs ++ [(i, err)] →
      (∀ id, fin = Some id → callbacks_of id tr' = reported n (cs ++ [(i, err)])) →
      save_core n fin j
        (World (this w) (disk w) tr' (queue w)
           {| total := total (batch w); completed := S (completed (batch w));
              called := i :: called (batch w); results := results (batch w);
              final := f |})).
    { intros tr' f -> Hc' Hl'.
      constructor; cbn [batch trace total final called completed]; try done.
      - by rewrite Hc'.
      - rewrite Hc', Hfe2. intros Hnone. rewrite (Hcomp Hnone).
        rewrite length_app. simpl. lia.
      - by rewrite Hc', Hfe2.
      - intros id Hid. rewrite Hc'. by apply Hl'. }
    cbn [batch log set_batch total completed].
    destruct (total (batch w) <=? S (completed (batch w))) eqn:Hle.
    + split; [|intros k; unfold call_final; cbn [batch set_batch log final];
                by destruct (final (batch w)) as [[]|]].
      unfold call_final. cbn [batch set_batch log final].
      destruct (first_error cs) as [e|] eqn:Hfe.
      * rewrite Hfin. apply Hcore; norm_trace; [done|done|].
        intros id Hid. norm_trace.
        rewrite (Hlog id Hid). unfold reported. by rewrite Hfe2, Hfe.
      * apply Nat.leb_le in Hle. rewrite Htot, (Hcomp eq_refl) in Hle.
        rewrite Hfin. destruct fin as [id0|]; simpl.
        -- apply Hcore; norm_trace; [done|done|].
           intros id [= <-]. norm_trace.
           rewrite (Hlog id0 eq_refl), reported_pending by (done || lia).
           unfold reported. rewrite Hfe2, length_app. simpl.
           by rewrite (proj2 (Nat.leb_le _ _)) by lia.
        -- apply Hcore; norm_trace; done.
    + split; [|exact Hmem].
      apply Hcore; norm_trace; [done|done|].
      intros id Hid. norm_trace. rewrite (Hlog id Hid).
      unfold reported. rewrite Hfe2.
      destruct (first_error cs) eqn:Hfe; [done|].
      apply Nat.leb_gt in Hle. rewrite Htot, (Hcomp eq_refl) in Hle.
      rewrite length_app. simpl.
      rewrite (proj2 (Nat.leb_gt _ _)) by lia.
      by rewrite (proj2 (Nat.leb_gt _ _)) by lia.
Qed.

Lemma complete_save_item i t w :
  save_item i t →
  ∃ err w', complete t w = settle (each_done i err w')
            ∧ batch w' = batch w ∧ trace w' = trace w ∧ queue w' = queue w.
Proof.
  intros [p data|args].
  - simpl. destruct (write_file (disk w) p data) as [e|fs'].
    + by exists (VErrno e p), w.
    + by exists VNull, (set_disk fs' w).
  - by exists (js_or (arg 0 args) VNull), w.
Qed.

Lemma save_inv_step j k w :
  save_inv n fin j w → save_inv n fin j (step k w).
Proof.
  intros (Hc & Hq & Hp). unfold step.
  destruct (take_out (k `mod` length (queue w))%nat (queue w))
    as [[t rest]|] eqn:Ht; [|done].
  apply take_out_Some in Ht as [_ Hin].
  destruct (Hq t) as (i & Hi & Hitem); [apply Hin; by left|].
  destruct (complete_save_item i t (set_queue rest w) Hitem)
    as (err & w0 & -> & Hb0 & Ht0 & Hq0).
  assert (Hc0 : save_core n fin j w0).
  { apply (save_core_frame j w); [done|by rewrite Ht0| |done].
    intros id. by rewrite Ht0. }
  destruct (save_core_each_done _ _ i err Hc0 Hi) as [Hc' Hcalled'].
  split; [done|]. split.
  - intros t' Ht'. rewrite queue_each_done, Hq0 in Ht'. simpl in Ht'.
    apply Hq, Hin. by right.
  - intros i' Hi' Hnot. rewrite queue_each_done, Hq0. simpl.
    assert (i' ≠ i ∧ i' ∉ called (batch w)) as [Hne Hnot'].
    { simpl in Hb0. rewrite <- Hb0.
      split; intros ?; apply Hnot, Hcalled'; [by left|by right]. }
    destruct (Hp i' Hi' Hnot') as (t' & Ht' & Hitem').
    exists t'. split; [|done].
    apply Hin in Ht' as [->|]; [|done].
    exfalso. apply Hne. inversion Hitem; inversion Hitem'; congruence.
Qed.

Lemma save_inv_run j sched w :
  save_inv n fin j w → save_inv n fin j (run sched w).
Proof.
  revert w. induction sched as [|k sched IH]; intros w H; simpl; [done|].
  by apply IH, save_inv_step.
Qed.

Lemma save_inv_run_all j sched w :
  save_inv n fin j w → save_inv n fin j (run_all sched w).
Proof. intros H. unfold run_all, drain. by apply save_inv_run, save_inv_run. Qed.

Lemma save_inv_frame j w w' :
  batch w' = batch w → queue w' = queue w →
  completions (trace w') = completions (trace w) →
  (∀ id, callbacks_of id (trace w') = callbacks_of id (trace w)) →
  save_inv n fin j w → save_inv n fin j w'.
Proof.
  intros Hb Hq Hc Ht (H1 & H2 & H3). split; [|split].
  - by apply (save_core_frame j w).
  - intros t. rewrite Hq. apply H2.
  - intros i. rewrite Hb, Hq. apply H3.
Qed.

(** One more entry is in flight. *)
Lemma save_inv_dispatch j w evs ts t0 :
  save_inv n fin j w → j < n →
  batch (dispatched evs ts w) = batch w →
  completions evs = [] → (∀ id, callbacks_of id evs = []) →
  t0 ∈ ts → (∀ t, t ∈ ts → save_item j t) →
  save_inv n fin (S j) (dispatched evs ts w).
Proof.
  intros (Hc & Hq & Hp) Hj _ Hce Hcb Ht0 Hts. split; [|split].
  - apply (save_core_frame (S j) w); [done| | |].
    + simpl. by rewrite completions_app, Hce, app_nil_r.
    + intros id. simpl. by rewrite callbacks_of_app, Hcb, app_nil_r.
    + apply (save_core_mono j); [lia|lia|done].
  - intros t. simpl. intros [Ht|Ht]%elem_of_app.
    + destruct (Hq t Ht) as (i & Hi & Hitem). exists i. split; [lia|done].
    + exists j. split; [lia|by apply Hts].
  - intros i Hi Hnot. simpl in *. destruct (decide (i = j)) as [->|Hne].
    + exists t0. split; [apply elem_of_app; by right|by apply Hts].
    + destruct (Hp i) as (t & Ht & Hitem); [lia|done|].
      exists t. split; [apply elem_of_app; by left|done].
Qed.

(** An entry that completes before [saveFile] returns. *)
Lemma save_inv_now j w w0 err :
  save_inv n fin j w → j < n →
  batch w0 = batch w → queue w0 = queue w →
  completions (trace w0) = completions (trace w) →
  (∀ id, callbacks_of id (trace w0) = callbacks_of id (trace w)) →
  save_inv n fin (S j) (settle (each_done j err w0)).
Proof.
  intros Hinv Hj Hb Hq Hc Ht.
  assert (Hinv0 : save_inv n fin j w0) by (by apply (save_inv_frame j w)).
  destruct Hinv0 as (Hc0 & Hq0 & Hp0).
  assert (Hc1 : save_core n fin (S j) w0)
    by (apply (save_core_mono j); [lia|lia|done]).
  destruct (save_core_each_done (S j) w0 j err Hc1) as [Hc' Hcalled']; [lia|].
  split; [done|]. split.
  - intros t. rewrite queue_each_done. intros Ht'.
    destruct (Hq0 t Ht') as (i & Hi & Hitem). exists i. split; [lia|done].
  - intros i Hi Hnot. rewrite queue_each_done.
    assert (i ≠ j ∧ i ∉ called (batch w0)) as [Hne Hnot'].
    { split; intros ?; apply Hnot, Hcalled'; [by left|by right]. }
    apply Hp0; [lia|done].
Qed.

(** Handing one more entry to [saveFile]: it returns with the entry in
    flight or completed, or the walk throws and nothing was added. *)
Lemma saveFile_inv j w name body :
  save_calm (this w) (disk w) →
  save_inv n fin j w → j < n →
  match saveFile name body (Some (EachDone j)) w with
  | (Ret _, w') => save_inv n fin (S j) w'
  | (Throw e, w') =>
      save_inv n fin j w'
      ∧ enabled w = true ∧ save_listeners (this w) = []
      ∧ checkDirExists (directory (this w)) w = (Throw e, w')
  end.
Proof.
  intros Hcalm Hinv Hj. pose proof Hinv as (Hc & Hq & Hp).
  assert (Hfresh : ∀ w0 cb, batch w0 = batch w → guard_of cb = Some j →
            ∀ i, guard_of cb = Some i → i ∉ called (batch w0)).
  { intros w0 cb Hb Hg i Hi Hin. rewrite Hg in Hi. injection Hi as <-.
    rewrite Hb in Hin. apply (sc_called _ _ _ _ Hc) in Hin. lia. }
  destruct (enabled w) eqn:He.
  - destruct (save_listeners (this w)) as [|h hs] eqn:Hl.
    + (* local *)
      rewrite saveFile_local by done.
      pose proof (checkDirExists_frame (directory (this w)) w) as Hf.
      destruct (checkDirExists (directory (this w)) w) as [[[]|e] w1];
        simpl in Hf; destruct Hf as (_ & Hq1 & Hb1 & _ & evs & Htr & Hwalk).
      * assert (Hinv1 : save_inv n fin j (set_this mark_directoryCreated w1)).
        { apply (save_inv_frame j w); try done.
          - simpl. by rewrite Htr, completions_app, (completions_walk evs Hwalk), app_nil_r.
          - intros id. simpl.
            by rewrite Htr, callbacks_of_app, (callbacks_of_walk id evs Hwalk), app_nil_r. }
        eapply save_inv_dispatch; try done.
        -- by apply list_elem_of_singleton.
        -- intros t ->%list_elem_of_singleton. constructor.
      * split; [|done]. apply (save_inv_frame j w); try done.
        -- by rewrite Htr, completions_app, (completions_walk evs Hwalk), app_nil_r.
        -- intros id.
           by rewrite Htr, callbacks_of_app, (callbacks_of_walk id evs Hwalk), app_nil_r.
    + (* listeners *)
      assert (Hcase : save_later (this w) ∨ (hs = [] ∧ save_timing h = Now)).
      { destruct Hcalm as [Hdis|[Hlat|Hone]].
        - change (enabled (init_world (this w) (disk w))) with (enabled w) in Hdis.
          congruence.
        - by left.
        - rewrite Hl in Hone. destruct hs; [|simpl in Hone; lia].
          destruct (save_timing h) eqn:Ht; [by right|].
          left. unfold save_later. rewrite Hl. by repeat constructor. }
      destruct Hcase as [Hlater|[-> Hnow]].
      * rewrite saveFile_handler by (done || by rewrite Hl).
        unfold save_events, save_replies. rewrite Hl.
        eapply save_inv_dispatch; try done.
        -- generalize (h :: hs). intros l. induction l; [done|].
           by rewrite fmap_cons.
        -- intros id. generalize (h :: hs). intros l.
           induction l; [done|]. by rewrite fmap_cons.
        -- rewrite fmap_cons. apply elem_of_cons. by left.
        -- intros t (h' & -> & _)%list_elem_of_fmap. constructor.
      * rewrite saveFile_emit by (done || by rewrite Hl).
        rewrite Hl, emit_save_now by done.
        rewrite call_fresh by (by apply Hfresh).
        apply (save_inv_now j w (log (EvEmitSave name (to_buffer body)) w));
          try done.
        -- simpl. by rewrite completions_snoc_other.
        -- intros id. simpl. by rewrite callbacks_of_snoc_other.
  - (* disabled *)
    rewrite saveFile_disabled by done.
    rewrite call_fresh by (by apply Hfresh).
    by apply (save_inv_now j w w).
Qed.

Lemma iterate_saveFile_inv rest pre w :
  n = length (pre ++ rest) → save_calm (this w) (disk w) →
  save_inv n fin (length pre) w →
  match iterate (λ (entry : string * contents) i,
                   saveFile entry.1 entry.2 (Some (EachDone i)))
          (length pre) rest w with
  | (Ret _, w') => save_inv n fin n w'
  | (Throw _, w') => ∃ j, j < n ∧ save_inv n fin j w'
  end.
Proof.
  revert pre w. induction rest as [|x rest IH]; intros pre w Hn Hcalm Hinv.
  - simpl. rewrite app_nil_r in Hn. by subst n.
  - assert (Hj : length pre < n).
    { rewrite Hn, length_app. simpl. lia. }
    pose proof (saveFile_inv (length pre) w x.1 x.2 Hcalm Hinv Hj) as Hs.
    pose proof (saveFile_config w x.1 x.2 (Some (EachDone (length pre)))) as Hcfg.
    simpl. unfold mbind, M_bind.
    destruct (saveFile x.1 x.2 (Some (EachDone (length pre))) w) as [[[]|e] w1].
    + specialize (IH (pre ++ [x]) w1).
      replace (length (pre ++ [x])) with (S (length pre)) in IH
        by (rewrite length_app; simpl; lia).
      apply IH; [by rewrite <- app_assoc| |done].
      by apply (save_calm_config (this w) _ (disk w)).
    + exists (length pre). by destruct Hs.
Qed.


Lemma called_all_when_idle j w :
  save_inv n fin j w → queue w = [] → ∀ i, i < j → i ∈ called (batch w).
Proof.
  intros (_ & _ & Hp) Hq i Hi.
  destruct (decide (i ∈ called (batch w))) as [|Hnot]; [done|].
  destruct (Hp i Hi Hnot) as (t & Ht & _). rewrite Hq in Ht.
  by apply elem_of_nil in Ht.
Qed.

End SaveFiles.




(** The example of the specification: of two entries the second cannot
    be written (its subdirectory does not exist); the failure reaches the
    callback, whichever write completes first, and the first entry is
    written all the same. *)
Example saveFiles_example :
  let w (sched : list nat) :=
    run_all sched
      (saveFiles [("x", CString "1"); ("sub/y", CString "2")] (Some 7)
         example_world).2 in
  callbacks_of 7 (trace (w [0; 0])) = [[VErrno ENOENT "data/sub/y"]]
  ∧ callbacks_of 7 (trace (w [1; 0])) = [[VErrno ENOENT "data/sub/y"]]
  ∧ read_file (disk (w [1; 0])) "data/x" = inr ["1"%byte].
Proof. vm_compute. repeat split; reflexivity. Qed.

(** Where the directory cannot be created ([f] is a regular file),
    [saveFiles] throws what [mkdirSync] threw and the callback is not
    called. *)
Example saveFiles_throws :
  let r := saveFiles [("x", CString "1")] (Some 7)
             (init_world (new_FileStorage (DStr "f/x")) example_fs) in
  r.1 = Throw (VErrno ENOTDIR "f/x")
  ∧ callbacks_of 7 (trace (run_all [] r.2)) = [].
Proof. vm_compute. repeat split; reflexivity. Qed.

(** * Further properties of index.js *)

(** ** [checkDirExists] (index.js:124-141) *)

Lemma checkDirExists_loop_only_adds segs path index w :
  let w' := (checkDirExists_loop path index segs w).2 in
  extends (disk w) (disk w')
  ∧ ∀ k n, nodes (disk w) !! k = None → nodes (disk w') !! k = Some n →
           n = Dir octal_750.
Proof.
  revert path index w. induction segs as [|dir rest IH]; intros path index w.
  { simpl. split; [apply extends_refl|]. intros k n H1 H2. congruence. }
  rewrite checkDirExists_loop_cons. cbv zeta.
  set (p := next_path path index dir).
  destruct (exists_path (disk w) p).
  - apply (IH p (S index) (log (EvExistsSync p true) w)).
  - destruct (mkdir (disk w) p octal_750) as [e|fs1] eqn:Hm.
    + simpl. split; [apply extends_refl|]. intros k n H1 H2. congruence.
    + destruct (mkdir_stat _ _ _ _ Hm) as (He1 & _ & k0 & _ & Hn0 & Hins).
      destruct (IH p (S index)
                  (set_disk fs1 (log (EvMkdirSync p octal_750)
                                   (log (EvExistsSync p false) w))))
        as [He Hnew].
      simpl in He, Hnew. split; [by apply (extends_trans _ fs1)|].
      intros k n H1 H2. destruct (nodes fs1 !! k) as [n1|] eqn:Hk1.
      * destruct He as [_ He]. rewrite (He _ _ Hk1) in H2. injection H2 as <-.
        rewrite Hins in Hk1. destruct (decide (k0 = k)) as [->|Hne].
        -- rewrite lookup_insert_eq in Hk1. by injection Hk1 as <-.
        -- rewrite lookup_insert_ne in Hk1 by done. congruence.
      * by apply (Hnew k n).
Qed.

Lemma checkDirExists_adds dir w :
  let w' := (checkDirExists dir w).2 in
  extends (disk w) (disk w')
  ∧ ∀ k n, nodes (disk w) !! k = None → nodes (disk w') !! k = Some n →
           n = Dir octal_750.
Proof.
  cbv zeta. unfold checkDirExists. destruct (dir_falsy dir).
  - simpl. split; [apply extends_refl|]. intros k n H1 H2. congruence.
  - apply checkDirExists_loop_only_adds.
Qed.

(** X1.  Whether it returns or throws, [checkDirExists] only adds
    directories: every node the filesystem had is still there unchanged,
    every node that is new is a directory with mode [0o750], and the
    store, the operations in flight and the batch are untouched. *)
Theorem checkDirExists_only_adds (dir : dirvalue) (w : world) :
  let w' := (checkDirExists dir w).2 in
  extends (disk w) (disk w')
  ∧ (∀ k n, nodes (disk w) !! k = None → nodes (disk w') !! k = Some n →
            n = Dir octal_750)
  ∧ this w' = this w ∧ queue w' = queue w ∧ batch w' = batch w.
Proof.
  cbv zeta.
  destruct (checkDirExists_frame dir w) as (Ht & Hq & Hb & _).
  destruct (checkDirExists_adds dir w) as [He Hn].
  done.
Qed.

Lemma checkDirExists_loop_throw segs path index w e w' :
  checkDirExists_loop path index segs w = (Throw e, w') →
  ∃ p code evs rest,
    e = VErrno code p
    ∧ mkdir (disk w') p octal_750 = inl code
    ∧ exists_path (disk w') p = false
    ∧ trace w' = trace w ++ evs ++ [EvExistsSync p false; EvMkdirSync p octal_750]
    ∧ prefixes_from path index segs = tested evs ++ p :: rest
    ∧ ∀ q, q ∈ tested evs → exists_path (disk w') q = true.
Proof.
  revert path index w. induction segs as [|dir segs IH]; intros path index w.
  { simpl. discriminate. }
  rewrite checkDirExists_loop_cons. cbv zeta. simpl prefixes_from.
  set (p0 := next_path path index dir).
  destruct (exists_path (disk w) p0) eqn:Hex.
  - intros H.
    pose proof (checkDirExists_loop_only_adds segs p0 (S index)
                  (log (EvExistsSync p0 true) w)) as [Hext _].
    rewrite H in Hext. simpl in Hext.
    destruct (IH _ _ _ H) as (p & code & evs & rest & He & Hm & Hno & Htr & Hpre & Hall).
    exists p, code, (EvExistsSync p0 true :: evs), rest.
    repeat split; try done.
    + rewrite Htr. simpl. by rewrite <- app_assoc.
    + simpl. by rewrite Hpre.
    + simpl. intros q [->|Hq]%elem_of_cons; [|by apply Hall].
      by apply (exists_path_extends (disk w)).
  - destruct (mkdir (disk w) p0 octal_750) as [code|fs1] eqn:Hm.
    + intros [= <- <-]. exists p0, code, [], (prefixes_from p0 (S index) segs).
      repeat split; try done.
      * simpl. by rewrite <- app_assoc.
      * intros q Hq. by apply elem_of_nil in Hq.
    + intros H.
      pose proof (checkDirExists_loop_only_adds segs p0 (S index)
                    (set_disk fs1 (log (EvMkdirSync p0 octal_750)
                                     (log (EvExistsSync p0 false) w))))
        as [Hext _].
      rewrite H in Hext. simpl in Hext.
      destruct (mkdir_stat _ _ _ _ Hm) as (_ & Hst & _).
      destruct (IH _ _ _ H)
        as (p & code & evs & rest & He & Hm' & Hno & Htr & Hpre & Hall).
      exists p, code,
        (EvExistsSync p0 false :: EvMkdirSync p0 octal_750 :: evs), rest.
      repeat split; try done.
      * rewrite Htr. simpl. by rewrite <- !app_assoc.
      * simpl. by rewrite Hpre.
      * simpl. intros q [->|Hq]%elem_of_cons; [|by apply Hall].
        apply (exists_path_extends fs1); [done|].
        unfold exists_path. by rewrite Hst.
Qed.

(** X2.  When [checkDirExists] throws, what it throws is the error of
    [mkdirSync] on the prefix it had just found missing: the last two
    events are the test and the creation attempt on that prefix, the
    prefixes tested before it are the ones that precede it in the walk
    and all exist, and the prefix itself is still missing. *)
Theorem checkDirExists_failure (dir : dirvalue) (w w' : world) (e : value) :
  checkDirExists dir w = (Throw e, w') →
  ∃ p code evs rest,
    e = VErrno code p
    ∧ mkdir (disk w') p octal_750 = inl code
    ∧ exists_path (disk w') p = false
    ∧ trace w' = trace w ++ evs ++ [EvExistsSync p false; EvMkdirSync p octal_750]
    ∧ walked dir = tested evs ++ p :: rest
    ∧ ∀ q, q ∈ tested evs → exists_path (disk w') q = true.
Proof.
  unfold checkDirExists, walked. destruct (dir_falsy dir); [discriminate|].
  apply checkDirExists_loop_throw.
Qed.

(** Where [f] is a regular file, the walk of [f/x] tests [f], finds
    [f/x] missing and throws the error of its creation. *)
Lemma checkDirExists_failure_witness :
  ∃ p code evs rest,
    VErrno ENOTDIR "f/x" = VErrno code p
    ∧ mkdir (disk (checkDirExists (DStr "f/x") example_world).2) p octal_750
      = inl code
    ∧ exists_path (disk (checkDirExists (DStr "f/x") example_world).2) p = false
    ∧ trace (checkDirExists (DStr "f/x") example_world).2
      = trace example_world ++ evs
        ++ [EvExistsSync p false; EvMkdirSync p octal_750]
    ∧ walked (DStr "f/x") = tested evs ++ p :: rest
    ∧ ∀ q, q ∈ tested evs →
           exists_path (disk (checkDirExists (DStr "f/x") example_world).2) q
           = true.
Proof.
  apply (checkDirExists_failure (DStr "f/x") example_world).
  vm_compute. reflexivity.
Defined.

Lemma append_cons x (a b : string) : String x a +:+ b = String x (a +:+ b).
Proof. reflexivity. Qed.

Lemma append_assoc (a b c : string) : (a +:+ b) +:+ c = a +:+ (b +:+ c).
Proof. induction a as [|x a IH]; [done|]. rewrite !append_cons. by f_equal. Qed.

Lemma append_empty_r (a : string) : a +:+ "" = a.
Proof. induction a as [|x a IH]; [done|]. rewrite append_cons. by f_equal. Qed.

Lemma slashes_split_on r : slashes (split_on slash r) = "/" +:+ r.
Proof.
  induction r as [|c r IH]; [done|].
  simpl split_on. destruct (Ascii.eqb c slash) eqn:Hc.
  - apply Ascii.eqb_eq in Hc as ->. simpl slashes. by rewrite IH.
  - destruct (split_on slash r) as [|seg segs]; [discriminate IH|].
    change (String slash (seg +:+ slashes segs) = String slash r) in IH.
    change (String slash (String c (seg +:+ slashes segs))
            = String slash (String c r)).
    injection IH as IH. by rewrite IH.
Qed.

Lemma prefixes_from_last segs path index :
  path ≠ "" →
  last (path :: prefixes_from path (S index) segs) = Some (path +:+ slashes segs).
Proof.
  revert path index. induction segs as [|s segs IH]; intros path index Hp.
  { simpl. by rewrite append_empty_r. }
  simpl prefixes_from. rewrite last_cons_cons.
  assert (next_path path (S index) s = path +:+ "/" +:+ s) as ->.
  { unfold next_path. simpl. by destruct path. }
  rewrite (IH _ (S index)); [|by destruct path].
  simpl slashes. by rewrite append_assoc.
Qed.

Lemma walked_last d : d ≠ "" → last (walked (DStr d)) = Some (walk_end d).
Proof.
  intros Hd. unfold walked, walk_end. simpl dir_falsy. simpl dir_to_string.
  destruct (String.eqb d "") eqn:He; [by apply String.eqb_eq in He|].
  destruct d as [|c d]; [done|]. simpl replace_backslashes.
  set (c' := if Ascii.eqb c backslash then slash else c).
  set (n := replace_backslashes d).
  simpl split_on. simpl is_absolute.
  destruct (Ascii.eqb c' slash) eqn:Hc.
  - apply Ascii.eqb_eq in Hc as Hc'. simpl prefixes_from.
    change (next_path "" 0 "") with "/".
    rewrite (prefixes_from_last _ "/" 0); [|done].
    rewrite slashes_split_on. by rewrite Hc'.
  - pose proof (slashes_split_on n) as Hs.
    destruct (split_on slash n) as [|seg segs]; [discriminate|].
    change (String slash (seg +:+ slashes segs) = String slash n) in Hs.
    injection Hs as Hs. simpl prefixes_from.
    change (next_path "" 0 (String c' seg)) with (String c' seg).
    rewrite (prefixes_from_last _ (String c' seg) 0); [|done].
    by rewrite append_cons, Hs.
Qed.

Lemma exists_path_extra_slash fs r :
  exists_path fs (String slash (String slash r)) = exists_path fs (String slash r).
Proof. done. Qed.

Lemma exists_walk_end fs d :
  exists_path fs (walk_end d) = true →
  exists_path fs (replace_backslashes d) = true.
Proof.
  unfold walk_end.
  destruct (replace_backslashes d) as [|c n]; [done|]. simpl is_absolute.
  destruct (Ascii.eqb c slash) eqn:Hc; [|done].
  apply Ascii.eqb_eq in Hc as ->. by rewrite <- exists_path_extra_slash.
Qed.

(** X3.  When [checkDirExists] returns for a non-empty directory, the
    last path it went through is the directory itself, backslashes
    replaced (after a doubled [/] when it is absolute), and the directory
    with its backslashes replaced exists. *)
Theorem checkDirExists_reaches (d : string) (w w' : world) :
  d ≠ "" →
  checkDirExists (DStr d) w = (Ret tt, w') →
  last (walked (DStr d)) = Some (walk_end d)
  ∧ exists_path (disk w') (replace_backslashes d) = true.
Proof.
  intros Hd Hrun. pose proof (walked_last d Hd) as Hlast. split; [done|].
  assert (exists_path (disk w') (walk_end d) = true) as Hex.
  { apply last_Some_elem_of in Hlast. revert Hrun Hlast.
    unfold checkDirExists, walked. destruct (dir_falsy (DStr d)).
    - intros _ Hin. by apply elem_of_nil in Hin.
    - intros Hrun Hin.
      by destruct (checkDirExists_loop_creates _ _ _ _ _ Hrun) as (_ & Hall & _);
        apply Hall. }
  by apply exists_walk_end.
Qed.

Lemma checkDirExists_reaches_witness :
  last (walked (DStr "/a/b")) = Some "//a/b"
  ∧ exists_path
      (disk (checkDirExists (DStr "/a/b")
               (init_world example_store example_fs_a)).2) "/a/b" = true.
Proof.
  apply (checkDirExists_reaches "/a/b" (init_world example_store example_fs_a));
    [done|vm_compute; reflexivity].
Defined.

(** ** What the operations do to the store and the filesystem *)

Lemma this_complete t w : this (complete t w) = this w.
Proof.
  destruct t as [p d cb|p cb|args cb]; simpl.
  - destruct (write_file (disk w) p d);
      by rewrite (proj1 (this_disk_invoke _ _ _)).
  - destruct (read_file (disk w) p);
      by rewrite (proj1 (this_disk_invoke _ _ _)).
  - by rewrite (proj1 (this_disk_invoke _ _ _)).
Qed.

Lemma disk_complete t w : is_write t = false → disk (complete t w) = disk w.
Proof.
  destruct t as [p d cb|p cb|args cb]; [done| |]; intros _; simpl.
  - destruct (read_file (disk w) p);
      by rewrite (proj2 (this_disk_invoke _ _ _)).
  - by rewrite (proj2 (this_disk_invoke _ _ _)).
Qed.

Lemma this_step k w : this (step k w) = this w.
Proof.
  unfold step. destruct (take_out _ _) as [[t rest]|]; [|done].
  by rewrite this_complete.
Qed.

Lemma this_run sched w : this (run sched w) = this w.
Proof.
  revert w. induction sched as [|k sched IH]; intros w; [done|].
  simpl. change (fold_left _ sched ?x) with (run sched x).
  by rewrite IH, this_step.
Qed.

Lemma this_run_all sched w : this (run_all sched w) = this w.
Proof. unfold run_all, drain. by rewrite !this_run. Qed.

Lemma config_kept_trans s1 s2 s3 :
  config_kept s1 s2 → config_kept s2 s3 → config_kept s1 s3.
Proof.
  intros [->| ->] [->| ->]; try (by left); right; try done.
Qed.

(** What a dispatch leaves of the world, whether it returns or throws:
    the store and the filesystem, and nothing more in flight than
    replies. *)
Lemma emit_world ev calls cb w :
  let w' := (emit ev calls cb w).2 in
  this w' = this w ∧ disk w' = disk w
  ∧ ∃ ts, queue w' = queue w ++ ts ∧ Forall (λ t, is_write t = false) ts.
Proof.
  apply (emit_preserves
           (λ w', this w' = this w ∧ disk w' = disk w
                  ∧ ∃ ts, queue w' = queue w ++ ts
                          ∧ Forall (λ t, is_write t = false) ts)).
  - intros w' (Ht & Hd & ts & Hq & Hts). simpl. eauto.
  - intros w' args (Ht & Hd & ts & Hq & Hts). simpl.
    repeat split; try done. exists (ts ++ [TReply args cb]).
    split; [by rewrite Hq, <- app_assoc|].
    apply Forall_app. split; [done|]. by repeat constructor.
  - intros w' args (Ht & Hd & ts & Hq & Hts).
    destruct (call_world cb args w') as (Ht' & Hd' & Hq' & _).
    rewrite Ht', Hd', Hq'. eauto.
  - repeat split. exists []. by rewrite app_nil_r.
Qed.

Lemma saveFile_this w filename body callback :
  config_kept (this w) (this (saveFile filename body callback w).2).
Proof.
  destruct (enabled w) eqn:He.
  - destruct (save_listeners (this w)) as [|h hs] eqn:Hl.
    + rewrite saveFile_local_opt by done.
      pose proof (checkDirExists_frame (directory (this w)) w) as Hf.
      destruct (checkDirExists (directory (this w)) w) as [[[]|e] w1];
        simpl in Hf; destruct Hf as (Hthis & _); simpl.
      * right. destruct callback; simpl; by rewrite Hthis.
      * left. done.
    + rewrite saveFile_emit by (done || by rewrite Hl). left.
      apply emit_world.
  - rewrite saveFile_disabled by done. left.
    destruct callback as [cb|]; [|done]. apply call_world.
Qed.

Lemma readFile_frame w filename callback :
  let r := readFile filename callback w in
  this r.2 = this w ∧ disk r.2 = disk w
  ∧ ∃ ts, queue r.2 = queue w ++ ts ∧ Forall (λ t, is_write t = false) ts.
Proof.
  cbv zeta. destruct (enabled w) eqn:He.
  - destruct (read_listeners (this w)) as [|h hs] eqn:Hl.
    + rewrite readFile_local by done. simpl. repeat split.
      eexists. split; [done|]. by repeat constructor.
    + rewrite readFile_emit by (done || by rewrite Hl). apply emit_world.
  - rewrite readFile_disabled by done.
    destruct (call_world callback [not_enabled] w) as (-> & -> & -> & _).
    repeat split. exists []. by rewrite app_nil_r.
Qed.

Lemma this_disk_call_final args w :
  this (call_final args w) = this w ∧ disk (call_final args w) = disk w.
Proof. unfold call_final. by destruct (final (batch w)) as [[]|]. Qed.

Lemma iterate_saveFile_this rest j w :
  config_kept (this w)
    (this (iterate (λ (entry : string * contents) i,
                      saveFile entry.1 entry.2 (Some (EachDone i))) j rest w).2).
Proof.
  revert j w. induction rest as [|x rest IH]; intros j w; [by left|].
  simpl. unfold mbind, M_bind.
  pose proof (saveFile_this w x.1 x.2 (Some (EachDone j))) as Hs.
  destruct (saveFile x.1 x.2 (Some (EachDone j)) w) as [[[]|e] w1];
    simpl in Hs; [|done].
  by apply (config_kept_trans _ (this w1)).
Qed.

Lemma saveFiles_this files callback w :
  config_kept (this w) (this (saveFiles files callback w).2).
Proof.
  unfold saveFiles, async_each. destruct files as [|x rest].
  - simpl. unfold mbind, M_bind, modify. simpl. left.
    by rewrite (proj1 (this_disk_call_final _ _)).
  - unfold mbind at 1. unfold M_bind, modify.
    exact (iterate_saveFile_this (x :: rest) 0 (set_batch _ w)).
Qed.

Lemma iterate_readFile_frame rest j w :
  let r := iterate (λ filename i,
                      readFile filename (ReadReply filename (MapDone i)))
             j rest w in
  this r.2 = this w ∧ disk r.2 = disk w
  ∧ ∃ ts, queue r.2 = queue w ++ ts ∧ Forall (λ t, is_write t = false) ts.
Proof.
  cbv zeta. revert j w. induction rest as [|x rest IH]; intros j w.
  { simpl. repeat split. exists []. by rewrite app_nil_r. }
  simpl. unfold mbind, M_bind.
  destruct (readFile_frame w x (ReadReply x (MapDone j)))
    as (Ht & Hd & ts & Hq & Hts).
  destruct (readFile x (ReadReply x (MapDone j)) w) as [[[]|e] w1];
    simpl in Ht, Hd, Hq; [|by eauto].
  destruct (IH (S j) w1) as (Ht' & Hd' & ts' & Hq' & Hts').
  repeat split; try congruence.
  exists (ts ++ ts'). split; [by rewrite Hq', Hq, <- app_assoc|].
  by apply Forall_app.
Qed.

Lemma readFiles_frame names id w :
  let r := readFiles names id w in
  this r.2 = this w ∧ disk r.2 = disk w
  ∧ ∃ ts, queue r.2 = queue w ++ ts ∧ Forall (λ t, is_write t = false) ts.
Proof.
  cbv zeta. unfold readFiles, async_each. destruct names as [|x rest].
  - simpl. unfold mbind, M_bind, modify. simpl. repeat split.
    exists []. by rewrite app_nil_r.
  - unfold mbind at 1. unfold M_bind, modify.
    exact (iterate_readFile_frame (x :: rest) 0 (set_batch _ w)).
Qed.

Lemma disk_run sched w :
  Forall (λ t, is_write t = false) (queue w) →
  disk (run sched w) = disk w
  ∧ Forall (λ t, is_write t = false) (queue (run sched w)).
Proof.
  revert w. induction sched as [|k sched IH]; intros w Hq; [done|].
  simpl. change (fold_left _ sched ?x) with (run sched x).
  assert (disk (step k w) = disk w
          ∧ Forall (λ t, is_write t = false) (queue (step k w))) as [Hd Hq'].
  { unfold step. destruct (take_out _ _) as [[t rest]|] eqn:Ht; [|done].
    apply take_out_perm in Ht. rewrite Ht in Hq.
    apply Forall_cons in Hq as [Ht' Hrest].
    rewrite queue_complete, disk_complete by done. done. }
  destruct (IH _ Hq') as [-> ?]. by rewrite Hd.
Qed.

Lemma disk_run_all sched w :
  Forall (λ t, is_write t = false) (queue w) →
  disk (run_all sched w) = disk w.
Proof.
  intros Hq. unfold run_all, drain.
  destruct (disk_run sched w Hq) as [<- Hq'].
  by apply disk_run.
Qed.

(** X4.  No operation changes the directory or the listeners of the
    store, whatever is in flight and in whatever order it completes: a
    save or a batch of saves leaves the store as it was or with
    [_directoryCreated] set to [true]; a read or a batch of reads leaves
    it as it was; so no operation enables or disables the store. *)
Theorem operations_keep_config (w : world) (sched : list nat)
    (filename : string) (body : contents) (cb : option callback)
    (rcb : callback) (files : list (string * contents)) (fcb : option nat)
    (names : list string) (id : nat) :
  let after (op : M unit) := run_all sched (op w).2 in
  config_kept (this w) (this (after (saveFile filename body cb)))
  ∧ this (after (readFile filename rcb)) = this w
  ∧ config_kept (this w) (this (after (saveFiles files fcb)))
  ∧ this (after (readFiles names id)) = this w
  ∧ ∀ op, op ∈ [saveFile filename body cb; readFile filename rcb;
                saveFiles files fcb; readFiles names id] →
          enabled (after op) = enabled w.
Proof.
  cbv beta zeta. rewrite !this_run_all.
  assert (config_kept (this w) (this (saveFile filename body cb w).2)) as H1
    by apply saveFile_this.
  assert (this (readFile filename rcb w).2 = this w) as H2
    by apply readFile_frame.
  assert (config_kept (this w) (this (saveFiles files fcb w).2)) as H3
    by apply saveFiles_this.
  assert (this (readFiles names id w).2 = this w) as H4
    by apply readFiles_frame.
  repeat split; try done.
  intros op Hop. rewrite !enabled_unfold, this_run_all.
  repeat (apply elem_of_cons in Hop as [->|Hop]);
    [by destruct H1 as [-> | ->]|by rewrite H2|by destruct H3 as [-> | ->]
    |by rewrite H4|by apply elem_of_nil in Hop].
Qed.

(** X5.  Reading never changes the filesystem: with no write in flight,
    the filesystem after [readFile] or [readFiles] and the completion of
    everything in flight, in any order, is the filesystem before. *)
Theorem reads_keep_disk (w : world) (sched : list nat) (filename : string)
    (cb : callback) (names : list string) (id : nat) :
  Forall (λ t, is_write t = false) (queue w) →
  disk (run_all sched (readFile filename cb w).2) = disk w
  ∧ disk (run_all sched (readFiles names id w).2) = disk w.
Proof.
  intros Hq. split.
  - destruct (readFile_frame w filename cb) as (_ & Hd & ts & Hts & Hw).
    rewrite disk_run_all; [done|]. rewrite Hts. by apply Forall_app.
  - destruct (readFiles_frame names id w) as (_ & Hd & ts & Hts & Hw).
    rewrite disk_run_all; [done|]. rewrite Hts. by apply Forall_app.
Qed.

Lemma reads_keep_disk_witness :
  disk (run_all [1] (readFile "f" (User 2) example_world).2) = example_fs
  ∧ disk (run_all [1] (readFiles ["f"; "g"] 7 example_world).2) = example_fs.
Proof.
  apply (reads_keep_disk example_world [1] "f" (User 2) ["f"; "g"] 7).
  constructor.
Defined.

(** ** One operation and the listeners *)

(** X6.  With ['save'] listeners on an enabled store, [saveFile] hands
    the name and the bytes to every listener and the caller's callback is
    called once for each listener's reply, with the error the listener
    gave or with [null] when that is falsy; the calls are those, in an
    order that depends on the completion order, and the filesystem is
    not touched. *)
Theorem saveFile_fans_out (store : FileStorage) (fs : filesystem)
    (name : string) (body : contents) (sched : list nat) :
  enabled (init_world store fs) = true →
  save_listeners store ≠ [] →
  let w := saved store fs name body sched in
  callbacks_of 1 (trace w)
    ≡ₚ (λ h : save_handler, [js_or (h name (to_buffer body)) VNull])
       <$> save_listeners store
  ∧ List.filter is_fs (trace w) = []
  ∧ disk w = fs ∧ this w = store ∧ queue w = [].
Proof.
  intros Hen Hl. cbv zeta. unfold saved.
  rewrite saveFile_emit by done. unfold emit_save.
  destruct (emit_fan_out (EvEmitSave name (to_buffer body))
              (save_calls (save_listeners store) name (to_buffer body))
              (SaveReply (Some (User 1))) 1
              (λ args, [js_or (arg 0 args) VNull]) sched (init_world store fs))
    as (Hr & Hcb & Hio & Hd & Ht & Hq); [done|done|done|].
  cbn [this init_world].
  repeat split; try done.
  - rewrite Hcb. unfold save_calls. by rewrite <- list_fmap_compose.
  - rewrite filter_fs_io, Hio. simpl. clear.
    by induction (save_calls _ _ _).
Qed.

Lemma saveFile_fans_out_witness :
  callbacks_of 1 (trace (saved example_remote example_fs "a" (CString "x") [1]))
    ≡ₚ [[VError "remote"]; [VNull]]
  ∧ disk (saved example_remote example_fs "a" (CString "x") [1]) = example_fs.
Proof.
  destruct (saveFile_fans_out example_remote example_fs "a" (CString "x") [1])
    as (Hcalls & _ & Hdisk & _); [reflexivity|discriminate|].
  split; [exact Hcalls|exact Hdisk].
Defined.

(** X7.  [readFile] from a world with nothing in flight, for every store:
    the callback is called with the not-enabled error on a disabled store,
    once for each ['read'] listener's reply with exactly what the listener
    answered when there are listeners, and otherwise once with the outcome
    of reading [directory + '/' + name]; the calls are those, in an order
    that depends on the completion order, and the store and the
    filesystem are left as they were. *)
Theorem readFile_answers (store : FileStorage) (fs : filesystem)
    (name : string) (sched : list nat) :
  let w := read_back (init_world store fs) name sched in
  callbacks_of 2 (trace w) ≡ₚ read_answers store fs name
  ∧ disk w = fs ∧ this w = store ∧ queue w = [].
Proof.
  cbv zeta. unfold read_back, read_answers.
  destruct (enabled (init_world store fs)) eqn:He.
  - destruct (read_listeners store) as [|h hs] eqn:Hl.
    + rewrite readFile_local by done. cbn [snd].
      set (p := local_path (this (init_world store fs)) name).
      set (wq := dispatched _ _ _).
      assert (Hcomp : complete (TReadFile p (User 2)) (set_queue [] wq) =
                match read_file fs p with
                | inr data => log (EvCallback 2 [VNull; VBuffer data])
                                (set_queue [] wq)
                | inl e => log (EvCallback 2 [read_error e p]) (set_queue [] wq)
                end).
      { simpl. by destruct (read_file fs p). }
      rewrite (run_all_single sched wq (TReadFile p (User 2))); [|done|].
      2:{ rewrite Hcomp. by destruct (read_file fs p). }
      rewrite Hcomp. subst p wq. simpl.
      by destruct (read_file fs (local_path store name)).
    + rewrite readFile_emit by (done || (simpl; by rewrite Hl)).
      unfold emit_read.
      destruct (emit_fan_out (EvEmitRead name)
                  (read_calls (read_listeners store) name) (User 2) 2
                  (λ args, args) sched (init_world store fs))
        as (Hr & Hcb & Hio & Hd & Ht & Hq); [done|done|done|].
      cbn [this init_world]. rewrite <- Hl. repeat split; try done.
      rewrite Hcb. unfold read_calls. by rewrite <- list_fmap_compose.
  - rewrite readFile_disabled by done. simpl.
    by rewrite !run_all_idle.
Qed.

(** ** [saveFile] on the local directory (index.js:65-68) *)

(** The world a local save ends in, from a world with nothing in
    flight. *)
Lemma saveFile_local_world w name body id sched :
  enabled w = true → save_listeners (this w) = [] → queue w = [] →
  let p := local_path (this w) name in
  let data := to_buffer body in
  match checkDirExists (directory (this w)) w with
  | (Throw e, w1) =>
      saveFile name body (Some (User id)) w = (Throw e, w1)
      ∧ run_all sched (saveFile name body (Some (User id)) w).2 = w1
  | (Ret _, w1) =>
      (saveFile name body (Some (User id)) w).1 = Ret tt
      ∧ run_all sched (saveFile name body (Some (User id)) w).2 =
          let wq := set_queue [] (log (EvWriteFile p data)
                                    (set_this mark_directoryCreated w1)) in
          match write_file (disk w1) p data with
          | inr fs' => log (EvCallback id [VNull]) (set_disk fs' wq)
          | inl e => log (EvCallback id [VErrno e p]) wq
          end
  end.
Proof.
  intros He Hs Hidle. cbv zeta. rewrite saveFile_local by done.
  pose proof (checkDirExists_frame (directory (this w)) w) as Hf.
  destruct (checkDirExists (directory (this w)) w)
    as [[[]|e] w1]; simpl in Hf; destruct Hf as (Hthis & Hq & _).
  - split; [done|]. cbn [snd].
    set (p := local_path (this w) name).
    set (t := TWriteFile p (to_buffer body) (User id)).
    set (wq := dispatched _ _ _).
    assert (Hqq : queue wq = [t]) by (unfold wq; simpl; by rewrite Hq, Hidle).
    assert (Hcomp : complete t (set_queue [] wq) =
              match write_file (disk w1) p (to_buffer body) with
              | inr fs' => log (EvCallback id [VNull])
                             (set_disk fs' (set_queue [] wq))
              | inl e => log (EvCallback id [VErrno e p]) (set_queue [] wq)
              end).
    { simpl. by destruct (write_file (disk w1) p (to_buffer body)). }
    rewrite (run_all_single sched wq t Hqq).
    2:{ rewrite Hcomp. by destruct (write_file (disk w1) p (to_buffer body)). }
    by rewrite Hcomp.
  - split; [done|]. cbn [snd]. rewrite run_all_idle; [done|]. by rewrite Hq.
Qed.

Lemma saved_local_world store fs name body sched :
  directory store ≠ DNull → save_listeners store = [] →
  let w0 := init_world store fs in
  let p := local_path store name in
  let data := to_buffer body in
  match checkDirExists (directory store) w0 with
  | (Throw e, w1) =>
      saveFile name body (Some (User 1)) w0 = (Throw e, w1)
      ∧ saved store fs name body sched = w1
  | (Ret _, w1) =>
      (saveFile name body (Some (User 1)) w0).1 = Ret tt
      ∧ saved store fs name body sched =
          let wq := set_queue [] (log (EvWriteFile p data)
                                    (set_this mark_directoryCreated w1)) in
          match write_file (disk w1) p data with
          | inr fs' => log (EvCallback 1 [VNull]) (set_disk fs' wq)
          | inl e => log (EvCallback 1 [VErrno e p]) wq
          end
  end.
Proof.
  intros Hd Hs.
  apply (saveFile_local_world (init_world store fs) name body 1 sched);
    [by apply enabled_init|done|done].
Qed.



Lemma one_file_changed_extends fs fs' data :
  extends fs fs' →
  (∀ k n, nodes fs !! k = None → nodes fs' !! k = Some n → n = Dir octal_750) →
  one_file_changed fs fs' data.
Proof.
  intros [Hc He] Hnew. split; [done|]. exists []. repeat split.
  - intros k n _. apply He.
  - intros n Hn. left. by apply He.
  - intros k n H1 H2. left. by apply (Hnew k).
Qed.

(** X9.  A save changes at most one file, for every store, name, contents
    and completion order: after [saveFile] and the completion of what it
    started, every node of the filesystem but one is as before, no
    directory has been removed or replaced, what is new is either a
    directory with mode [0o750] or the one file, and the one file, when
    it is new or has changed, holds exactly the bytes saved. *)
Theorem saveFile_changes_one_file (store : FileStorage) (fs : filesystem)
    (name : string) (body : contents) (sched : list nat) :
  one_file_changed fs (disk (saved store fs name body sched)) (to_buffer body).
Proof.
  assert (one_file_changed fs fs (to_buffer body)) as Hsame.
  { apply one_file_changed_extends; [apply extends_refl|].
    intros k n H1 H2. congruence. }
  destruct (enabled (init_world store fs)) eqn:He.
  - destruct (save_listeners store) as [|h hs] eqn:Hl.
    + assert (directory store ≠ DNull) as Hd.
      { rewrite enabled_unfold in He. simpl in He. rewrite Hl in He.
        simpl in He. by apply is_null_false, negb_true_iff. }
      pose proof (saved_local_world store fs name body sched Hd Hl) as Hw.
      destruct (checkDirExists_adds (directory store) (init_world store fs))
        as [Hext Hnew].
      cbv zeta in Hw, Hext, Hnew.
      destruct (checkDirExists (directory store) (init_world store fs))
        as [[[]|e] w1]; simpl in Hext, Hnew; destruct Hw as [_ ->].
      * destruct (write_file (disk w1) (local_path store name) (to_buffer body))
          as [e|fs'] eqn:Hwf; simpl.
        { by apply one_file_changed_extends. }
        apply write_file_inv in Hwf
          as (init & nm & cur & m & _ & _ & _ & _ & _ & _ & Hnd & ->).
        destruct Hext as [Hc Hext]. split; [simpl; done|].
        exists (nm :: cur). simpl. repeat split.
        -- intros k n Hne Hk. rewrite lookup_insert_ne by done. by apply Hext.
        -- intros n Hn. right. rewrite lookup_insert_eq. split; [|done].
           apply Hext in Hn. destruct n as [m'|d]; [|by exists d].
           by destruct (Hnd m').
        -- intros k n H1 H2. destruct (decide (nm :: cur = k)) as [<-|Hne].
           ++ rewrite lookup_insert_eq in H2. injection H2 as <-. by right.
           ++ rewrite lookup_insert_ne in H2 by done. left.
              by apply (Hnew k).
      * by apply one_file_changed_extends.
    + unfold saved. rewrite saveFile_emit by (done || (simpl; by rewrite Hl)).
      unfold emit_save.
      destruct (emit_world (EvEmitSave name (to_buffer body))
                  (save_calls (save_listeners (this (init_world store fs))) name
                     (to_buffer body))
                  (SaveReply (Some (User 1))) (init_world store fs))
        as (_ & Hd & ts & Hq & Hts).
      rewrite disk_run_all; [by rewrite Hd|]. by rewrite Hq.
  - unfold saved. rewrite saveFile_disabled by done. simpl.
    by rewrite run_all_idle.
Qed.

(** ** [saveFiles] and the walk (index.js:76-81) *)

Lemma called_each_done i err w k :
  k ∈ called (batch (settle (each_done i err w))) →
  k = i ∨ k ∈ called (batch w).
Proof.
  rewrite settle_each_done. unfold item_done, call_final.
  case_decide; [by right|].
  destruct (truthy err); cbn [batch log set_batch final].
  - destruct (final (batch w)) as [[]|]; simpl; by rewrite elem_of_cons.
  - destruct (total (batch w) <=? S (completed (batch w)))%nat;
      [destruct (final (batch w)) as [[]|]|]; simpl; by rewrite elem_of_cons.
Qed.

(** One call of [saveFile] from a batch, on a store where no dispatch
    throws: it returns, or the directory walk throws. *)
Lemma saveFile_guarded j w name body :
  save_calm (this w) (disk w) →
  (∀ i, i ∈ called (batch w) → i < j) →
  match saveFile name body (Some (EachDone j)) w with
  | (Ret _, w') => ∀ i, i ∈ called (batch w') → i < S j
  | (Throw e, w') =>
      enabled w = true ∧ save_listeners (this w) = []
      ∧ checkDirExists (directory (this w)) w = (Throw e, w')
  end.
Proof.
  intros Hcalm Hc.
  assert (Hfresh : ∀ w0 cb, batch w0 = batch w → guard_of cb = Some j →
            ∀ i, guard_of cb = Some i → i ∉ called (batch w0)).
  { intros w0 cb Hb Hg i Hi Hin. rewrite Hg in Hi. injection Hi as <-.
    rewrite Hb in Hin. apply Hc in Hin. lia. }
  assert (Hnow : ∀ w0 err, batch w0 = batch w →
            ∀ i, i ∈ called (batch (settle (each_done j err w0))) → i < S j).
  { intros w0 err Hb i [->|Hi]%called_each_done; [lia|].
    rewrite Hb in Hi. apply Hc in Hi. lia. }
  destruct (enabled w) eqn:He.
  - destruct (save_listeners (this w)) as [|h hs] eqn:Hl.
    + rewrite saveFile_local by done.
      pose proof (checkDirExists_frame (directory (this w)) w) as Hf.
      destruct (checkDirExists (directory (this w)) w) as [[[]|e] w1];
        simpl in Hf; destruct Hf as (_ & _ & Hb & _); [|done].
      simpl. rewrite Hb. intros i Hi. apply Hc in Hi. lia.
    + assert (Hcase : save_later (this w) ∨ (hs = [] ∧ save_timing h = Now)).
      { destruct Hcalm as [Hdis|[Hlat|Hone]].
        - change (enabled (init_world (this w) (disk w))) with (enabled w) in Hdis.
          congruence.
        - by left.
        - rewrite Hl in Hone. destruct hs; [|simpl in Hone; lia].
          destruct (save_timing h) eqn:Ht; [by right|].
          left. unfold save_later. rewrite Hl. by repeat constructor. }
      destruct Hcase as [Hlater|[-> Hn]].
      * rewrite saveFile_handler by (done || by rewrite Hl). simpl.
        intros i Hi. apply Hc in Hi. lia.
      * rewrite saveFile_emit by (done || by rewrite Hl).
        rewrite Hl, emit_save_now by done.
        rewrite call_fresh by (by apply Hfresh).
        by apply (Hnow (log _ w)).
  - rewrite saveFile_disabled by done.
    rewrite call_fresh by (by apply Hfresh). by apply (Hnow w).
Qed.

Lemma iterate_saveFile_settled rest j w :
  save_calm (this w) (disk w) →
  (∀ i, i ∈ called (batch w) → i < j) →
  walk_settled w →
  (iterate (λ (entry : string * contents) i,
              saveFile entry.1 entry.2 (Some (EachDone i))) j rest w).1 = Ret tt.
Proof.
  revert j w. induction rest as [|x rest IH]; intros j w Hcalm Hc Hw; [done|].
  simpl. unfold mbind, M_bind.
  pose proof (saveFile_guarded j w x.1 x.2 Hcalm Hc) as Hg.
  pose proof (saveFile_config w x.1 x.2 (Some (EachDone j))) as Hcfg.
  destruct (saveFile x.1 x.2 (Some (EachDone j)) w) as [[[]|e] w1] eqn:Hrun.
  - apply IH; [|done|by apply saveFile_settles in Hrun].
    by apply (save_calm_config (this w) _ (disk w)).
  - exfalso. destruct Hg as (He & Hl & Hwalk).
    destruct Hw as [Hw|[Hw|Hw]]; [congruence|done|].
    by rewrite checkDirExists_idem in Hwalk.
Qed.

(** X10.  On a store that is disabled, has at most one ['save']
    listener or has ['save'] listeners that all answer on a later turn,
    [saveFiles] throws only on its first entry.  When it throws, it is
    [saveFile] on the first entry that threw, with the error [mkdirSync]
    gave in the directory walk: no entry has been handed to a write or a
    listener, nothing has been put in flight, no callback has been
    called and the store is as it was. *)
Theorem saveFiles_throws_first (files : list (string * contents))
    (callback : option nat) (w w' : world) (e : value) :
  save_calm (this w) (disk w) →
  saveFiles files callback w = (Throw e, w') →
  (∃ x rest b, files = x :: rest
     ∧ saveFile x.1 x.2 (Some (EachDone 0)) (set_batch b w) = (Throw e, w'))
  ∧ (∃ code p, e = VErrno code p)
  ∧ List.filter is_issue (trace w') = List.filter is_issue (trace w)
  ∧ (∀ id, callbacks_of id (trace w') = callbacks_of id (trace w))
  ∧ queue w' = queue w
  ∧ this w' = this w.
Proof.
  intros Hcalm. unfold saveFiles, async_each. destruct files as [|x rest].
  { simpl. unfold mbind, M_bind, modify. simpl. discriminate. }
  unfold mbind at 1. unfold M_bind, modify.
  set (w0 := set_batch _ w). simpl iterate. unfold mbind, M_bind.
  assert (Hc0 : ∀ i, i ∈ called (batch w0) → i < 0).
  { intros i Hi. by apply elem_of_nil in Hi. }
  pose proof (saveFile_guarded 0 w0 x.1 x.2 Hcalm Hc0) as Hg.
  pose proof (saveFile_config w0 x.1 x.2 (Some (EachDone 0))) as Hcfg.
  destruct (saveFile x.1 x.2 (Some (EachDone 0)) w0) as [[[]|e1] w1] eqn:Hfirst.
  - pose proof (iterate_saveFile_settled rest 1 w1) as Hret.
    intros Hrun. rewrite Hrun in Hret. simpl in Hret.
    discriminate Hret; [|done|by apply saveFile_settles in Hfirst].
    by apply (save_calm_config (this w) _ (disk w)).
  - intros [= <- <-]. split; [by eexists x, rest, _|].
    destruct Hg as (_ & _ & Hwalk).
    pose proof (checkDirExists_frame (directory (this w0)) w0) as Hf.
    rewrite Hwalk in Hf. simpl in Hf.
    destruct Hf as (Hthis & Hq & _ & _ & evs & Htr & Hwk).
    repeat split; try done.
    + revert Hwalk. unfold checkDirExists.
      destruct (dir_falsy (directory (this w0))); [discriminate|].
      intros (p & code & _ & _ & -> & _)%checkDirExists_loop_throw. eauto.
    + rewrite Htr, List.filter_app, (filter_issue_walk evs Hwk).
      by rewrite app_nil_r.
    + intros id. rewrite Htr, callbacks_of_app, (callbacks_of_walk id evs Hwk).
      by rewrite app_nil_r.
Qed.

Lemma saveFiles_throws_first_witness :
  save_calm (new_FileStorage (DStr "f/x")) example_fs
  ∧ List.filter is_issue
      (trace (saveFiles [("x", CString "1"); ("y", CString "2")] (Some 7)
                (init_world (new_FileStorage (DStr "f/x")) example_fs)).2) = []
  ∧ queue (saveFiles [("x", CString "1"); ("y", CString "2")] (Some 7)
             (init_world (new_FileStorage (DStr "f/x")) example_fs)).2 = [].
Proof.
  assert (Hcalm : save_calm (new_FileStorage (DStr "f/x")) example_fs).
  { right. left. constructor. }
  split; [exact Hcalm|].
  destruct (saveFiles_throws_first [("x", CString "1"); ("y", CString "2")]
              (Some 7) (init_world (new_FileStorage (DStr "f/x")) example_fs)
              (saveFiles [("x", CString "1"); ("y", CString "2")] (Some 7)
                 (init_world (new_FileStorage (DStr "f/x")) example_fs)).2
              (VErrno ENOTDIR "f/x") Hcalm)
    as (_ & _ & Hissue & _ & Hq & _); [vm_compute; reflexivity|].
  split; [exact Hissue|exact Hq].
Defined.

(** ** Batches on a disabled store *)

(** Once the final callback has been replaced by the no-op, a per-item
    callback of [Async.each] calls nothing. *)
Lemma each_done_after_error i err w :
  final (batch w) = None →
  let w' := settle (each_done i err w) in
  final (batch w') = None
  ∧ (∀ id, callbacks_of id (trace w') = callbacks_of id (trace w))
  ∧ List.filter is_io (trace w') = List.filter is_io (trace w)
  ∧ queue w' = queue w ∧ disk w' = disk w ∧ this w' = this w.
Proof.
  intros Hfin. cbv zeta. rewrite settle_each_done.
  unfold item_done, call_final. case_decide.
  - simpl. repeat split; try done.
    + intros id. by rewrite callbacks_of_snoc_other.
    + by rewrite filter_io_snoc.
  - destruct (truthy err); cbn [batch log set_batch final]; rewrite Hfin.
    + simpl. repeat split; try done.
      * intros id. by rewrite callbacks_of_snoc_other.
      * by rewrite filter_io_snoc.
    + destruct (total (batch w) <=? S (completed (batch w)))%nat;
        simpl; rewrite ?Hfin; simpl; repeat split; try done.
      * intros id. by rewrite callbacks_of_snoc_other.
      * by rewrite filter_io_snoc.
      * intros id. by rewrite callbacks_of_snoc_other.
      * by rewrite filter_io_snoc.
Qed.

Lemma iterate_saveFile_disabled rest j w :
  enabled w = false → final (batch w) = None →
  (∀ i, i ∈ called (batch w) → i < j) →
  ∃ w', iterate (λ (entry : string * contents) i,
                   saveFile entry.1 entry.2 (Some (EachDone i))) j rest w
        = (Ret tt, w')
        ∧ (∀ id, callbacks_of id (trace w') = callbacks_of id (trace w))
        ∧ List.filter is_io (trace w') = List.filter is_io (trace w)
        ∧ queue w' = queue w ∧ disk w' = disk w ∧ this w' = this w.
Proof.
  revert j w. induction rest as [|x rest IH]; intros j w He Hfin Hc.
  { by exists w. }
  simpl. unfold mbind, M_bind. rewrite saveFile_disabled by done.
  rewrite call_fresh.
  2:{ intros i [= <-] Hin. apply Hc in Hin. lia. }
  change (invoke (EachDone j) [not_enabled] w)
    with (settle (each_done j not_enabled w)).
  destruct (each_done_after_error j not_enabled w Hfin)
    as (Hfin1 & Hcb1 & Hio1 & Hq1 & Hd1 & Ht1).
  destruct (IH (S j) (settle (each_done j not_enabled w)))
    as (w' & Hrun & Hcb & Hio & Hq & Hd & Ht).
  { rewrite <- He. by apply enabled_this. }
  { done. }
  { intros i [->|Hi]%called_each_done; [lia|]. apply Hc in Hi. lia. }
  exists w'. split; [done|]. repeat split; congruence.
Qed.

(** X11.  On a disabled store [saveFiles] with at least one entry ends
    before it returns: the callback is called exactly once, with the
    not-enabled error, however many entries there are; nothing is handed
    to the filesystem or to a listener, nothing is put in flight, and the
    store and the filesystem are as they were. *)
Theorem saveFiles_disabled (files : list (string * contents)) (id : nat)
    (w : world) :
  enabled w = false →
  files ≠ [] →
  let r := saveFiles files (Some id) w in
  r.1 = Ret tt
  ∧ callbacks_of id (trace r.2) = callbacks_of id (trace w) ++ [[not_enabled]]
  ∧ List.filter is_io (trace r.2) = List.filter is_io (trace w)
  ∧ queue r.2 = queue w ∧ disk r.2 = disk w ∧ this r.2 = this w.
Proof.
  intros He Hne. cbv zeta. destruct files as [|x rest]; [done|].
  set (w0 := set_batch {| total := length (x :: rest); completed := 0;
                          called := []; results := [];
                          final := Some (EachFinal id) |} w).
  set (w1 := set_batch {| total := length (x :: rest); completed := 0;
                          called := [0]; results := []; final := None |}
               (log (EvCallback id [not_enabled])
                  (log (EvDone 0 not_enabled) w0))).
  destruct (iterate_saveFile_disabled rest 1 w1)
    as (w' & Hrun & Hcb & Hio & Hq & Hd & Ht); [by rewrite <- He|done| |].
  { subst w1. simpl. intros i ->%list_elem_of_singleton. lia. }
  assert (saveFiles (x :: rest) (Some id) w = (Ret tt, w')) as ->.
  { unfold saveFiles, async_each. unfold mbind at 1. unfold M_bind, modify.
    simpl iterate. unfold mbind, M_bind.
    rewrite saveFile_disabled by done.
    rewrite call_fresh by (intros i [= <-]; apply not_elem_of_nil).
    exact Hrun. }
  cbn [fst snd]. rewrite Hcb, Hio, Hq, Hd, Ht. subst w1 w0. simpl.
  repeat split.
  - rewrite !callbacks_of_app. simpl. rewrite decide_True by done.
    by rewrite app_nil_r.
  - rewrite <- app_assoc. by rewrite List.filter_app, app_nil_r.
Qed.

Lemma saveFiles_disabled_witness :
  callbacks_of 7
    (trace (saveFiles [("x", CString "1"); ("y", CString "2")] (Some 7)
              (init_world (new_FileStorage DNull) example_fs)).2)
    = [[not_enabled]].
Proof.
  destruct (saveFiles_disabled [("x", CString "1"); ("y", CString "2")] 7
              (init_world (new_FileStorage DNull) example_fs))
    as (_ & Hcb & _); [reflexivity|discriminate|exact Hcb].
Defined.

(** ** [readFiles] and the completion order (index.js:107-122) *)

(** X12.  On a store that is disabled or has at most one ['read']
    listener, the array [readFiles] reports does not depend on the order
    in which the reads complete: it holds, for each name in the order of
    the names, the outcome of [readFile] for that name. *)
Theorem readFiles_any_order (store : FileStorage) (fs : filesystem)
    (names : list string) (id : nat) (sched : list nat) :
  enabled (init_world store fs) = false ∨ length (read_listeners store) ≤ 1 →
  callbacks_of id
    (trace (run_all sched (readFiles names id (init_world store fs)).2))
  = [[VNull; VArray (read_outcome store fs <$> names)]].
Proof.
  intros Hone. by destruct (readFiles_reports store fs names id sched Hone).
Qed.

Lemma readFiles_any_order_witness :
  callbacks_of 7
    (trace (run_all [1] (readFiles ["f"; "g"] 7
                           (init_world (new_FileStorage (DStr "")) example_fs)).2))
  = [[VNull; VArray [VRespContents "f" (VBuffer []);
                     VRespError "g" (VErrno ENOENT "/g")]]].
Proof.
  apply (readFiles_any_order (new_FileStorage (DStr "")) example_fs
           ["f"; "g"] 7 [1]).
  right. simpl. lia.
Defined.

Lemma iterate_readFile_disabled rest j w :
  enabled w = false →
  List.filter is_io
    (trace (iterate (λ filename i,
                       readFile filename (ReadReply filename (MapDone i)))
              j rest w).2)
  = List.filter is_io (trace w).
Proof.
  revert j w. induction rest as [|x rest IH]; intros j w He; [done|].
  simpl. unfold mbind, M_bind. rewrite readFile_disabled by done.
  destruct (call_world (ReadReply x (MapDone j)) [not_enabled] w)
    as (Ht & _ & _ & _ & Hio).
  destruct (call _ _ w) as [[[]|e] w1]; simpl in *; [|done].
  rewrite IH; [done|]. rewrite <- He. by apply enabled_this.
Qed.

(** X13.  On a disabled store [readFiles] ends before it returns: the
    callback is called exactly once, with no overall error and, for each
    name in order, an object that carries the name and the not-enabled
    error; nothing is handed to the filesystem or to a listener and
    nothing is put in flight. *)
Theorem readFiles_disabled (store : FileStorage) (fs : filesystem)
    (names : list string) (id : nat) :
  enabled (init_world store fs) = false →
  let r := readFiles names id (init_world store fs) in
  r.1 = Ret tt
  ∧ callbacks_of id (trace r.2)
    = [[VNull; VArray ((λ name, VRespError name not_enabled) <$> names)]]
  ∧ List.filter is_io (trace r.2) = []
  ∧ queue r.2 = [] ∧ disk r.2 = fs ∧ this r.2 = store.
Proof.
  intros He. cbv zeta.
  destruct (readFiles_frame names id (init_world store fs))
    as (Hthis & Hdisk & _).
  assert (List.filter is_io (trace (readFiles names id (init_world store fs)).2)
          = []) as Hio.
  { unfold readFiles, async_each. destruct names as [|x rest]; [done|].
    unfold mbind at 1. unfold M_bind, modify.
    by rewrite iterate_readFile_disabled. }
  revert Hthis Hdisk Hio.
  destruct (readFiles_inv store fs names id) as (w1 & -> & Hinv); [by left|].
  cbn [fst snd]. intros Hthis Hdisk Hio.
  assert (queue w1 = []) as Hq.
  { destruct Hinv as (_ & Hqu & _). unfold read_queue in Hqu.
    destruct (queue w1) as [|t q]; [done|].
    destruct (Hqu t) as (i & _ & Hitem); [left|].
    destruct Hitem; congruence. }
  destruct (read_inv_idle store fs names id w1 Hinv Hq) as (rs & -> & Hrs).
  rewrite (good_results_single store fs names rs); [| |done].
  - assert (read_outcome store fs <$> names
            = (λ name, VRespError name not_enabled) <$> names) as ->; [|done].
    apply list_fmap_ext. intros _ name _. unfold read_outcome. by rewrite He.
  - intros name. apply read_outcomes_single. by left.
Qed.

Lemma readFiles_disabled_witness :
  callbacks_of 7
    (trace (readFiles ["a"; "b"] 7
              (init_world (new_FileStorage DNull) example_fs)).2)
  = [[VNull; VArray [VRespError "a" not_enabled; VRespError "b" not_enabled]]].
Proof.
  destruct (readFiles_disabled (new_FileStorage DNull) example_fs ["a"; "b"] 7)
    as (_ & Hcb & _); [reflexivity|exact Hcb].
Defined.

(** ** Saving again under a name *)

Lemma checkDirExists_exists dir w w' :
  checkDirExists dir w = (Ret tt, w') →
  ∀ p, p ∈ walked dir → exists_path (disk w') p = true.
Proof.
  unfold checkDirExists, walked. destruct (dir_falsy dir).
  - intros _ p Hp. by apply elem_of_nil in Hp.
  - intros Hrun.
    by destruct (checkDirExists_loop_creates _ _ _ _ _ Hrun) as (_ & Hall & _).
Qed.

Lemma write_file_keeps_dirs fs p data fs' :
  write_file fs p data = inr fs' →
  cwd fs' = cwd fs
  ∧ ∀ k m, nodes fs !! k = Some (Dir m) → nodes fs' !! k = Some (Dir m).
Proof.
  intros (init & name & cur & m & _ & _ & _ & _ & _ & _ & Hnd & ->)%write_file_inv.
  split; [done|]. intros k m0 Hk. simpl.
  destruct (decide (k = name :: cur)) as [->|Hne].
  - exfalso. by apply (Hnd m0).
  - by rewrite lookup_insert_ne.
Qed.

Lemma write_file_keeps_nodes fs p data fs' k n :
  write_file fs p data = inr fs' →
  node_at (nodes fs) k = Some n → ∃ n', node_at (nodes fs') k = Some n'.
Proof.
  intros (init & name & cur & m & _ & _ & _ & _ & _ & _ & Hnd & ->)%write_file_inv.
  destruct k as [|s k]; [by eauto|]. simpl. intros Hk.
  destruct (decide (name :: cur = s :: k)) as [->|Hne].
  - rewrite lookup_insert_eq. eauto.
  - rewrite lookup_insert_ne by done. eauto.
Qed.

Lemma exists_path_write fs p data fs' q :
  write_file fs p data = inr fs' →
  exists_path fs q = true → exists_path fs' q = true.
Proof.
  intros Hw. destruct (write_file_keeps_dirs _ _ _ _ Hw) as [Hc Hk].
  unfold exists_path, stat, resolve. destruct (is_empty q); [done|].
  rewrite (start_of_cwd fs fs' q Hc).
  destruct (walk (nodes fs) (start_of fs q) (split_on slash q)) as [e|k] eqn:Hwk;
    [done|].
  rewrite (walk_keep _ _ _ Hk _ _ Hwk).
  destruct (node_at (nodes fs) k) as [n|] eqn:Hn; [|done]. intros _.
  by destruct (write_file_keeps_nodes _ _ _ _ _ _ Hw Hn) as [n' ->].
Qed.

Lemma write_file_again fs p d1 fs1 d2 :
  write_file fs p d1 = inr fs1 → ∃ fs2, write_file fs1 p d2 = inr fs2.
Proof.
  intros Hw. destruct (write_file_keeps_dirs _ _ _ _ Hw) as [Hc Hk].
  destruct (write_file_inv _ _ _ _ Hw)
    as (init & name & cur & m & Hp & Hsplit & Hwk & Hn & He & Hd & Hnd & ->).
  unfold write_file. rewrite Hp, Hsplit, unsnoc_snoc, He.
  rewrite (start_of_cwd fs (Filesystem (cwd fs) _) p eq_refl).
  rewrite (walk_keep _ _ _ Hk _ _ Hwk).
  rewrite (node_at_keep _ _ Hk _ _ Hn), Hd. simpl.
  rewrite lookup_insert_eq. eauto.
Qed.

(** X14.  Saving again under a name replaces the file as a whole.  On a
    store with a directory and no ['save'] listener, when a save under a
    name has reported success, a second save under the same name returns,
    creates no directory, reports success too, and the file then holds
    exactly the bytes of the second save, whatever the completion
    order. *)
Theorem saveFile_overwrites (store : FileStorage) (fs : filesystem)
    (name : string) (b1 b2 : contents) (s1 s2 : list nat) :
  directory store ≠ DNull →
  save_listeners store = [] →
  let w1 := saved store fs name b1 s1 in
  let w2 := run_all s2 (saveFile name b2 (Some (User 3)) w1).2 in
  callbacks_of 1 (trace w1) = [[VNull]] →
  (saveFile name b2 (Some (User 3)) w1).1 = Ret tt
  ∧ callbacks_of 3 (trace w2) = [[VNull]]
  ∧ created (trace w2) = created (trace w1)
  ∧ read_file (disk w2) (local_path store name) = inr (to_buffer b2).
Proof.
  intros Hd Hs. cbv zeta.
  pose proof (saved_local_world store fs name b1 s1 Hd Hs) as Hw.
  pose proof (checkDirExists_frame (directory store) (init_world store fs)) as Hf.
  cbv zeta in Hw, Hf.
  destruct (checkDirExists (directory store) (init_world store fs))
    as [[[]|e] w0] eqn:Hwalk; simpl in Hf;
    destruct Hf as (Hthis & Hq & Hb & _ & evs & Htr & Hev);
    destruct Hw as [Hrun ->].
  2:{ rewrite Htr. simpl. by rewrite (callbacks_of_walk 1 evs Hev). }
  destruct (write_file (disk w0) (local_path store name) (to_buffer b1))
    as [e|fs1] eqn:Hwf.
  { simpl. rewrite Htr. simpl.
    rewrite !callbacks_of_app, (callbacks_of_walk 1 evs Hev). done. }
  intros _. set (w1 := log _ _).
  assert (this w1 = mark_directoryCreated store) as Hthis1
    by (subst w1; simpl; by rewrite Hthis).
  assert (enabled w1 = true) as Hen1.
  { rewrite enabled_unfold, Hthis1. simpl. apply orb_true_iff. right.
    by apply negb_true_iff, is_null_false. }
  pose proof (saveFile_local_world w1 name b2 3 s2 Hen1) as Hw2.
  rewrite Hthis1 in Hw2. specialize (Hw2 Hs eq_refl). cbv zeta in Hw2.
  change (directory (mark_directoryCreated store)) with (directory store) in Hw2.
  change (local_path (mark_directoryCreated store) name)
    with (local_path store name) in Hw2.
  rewrite checkDirExists_idem in Hw2.
  2:{ intros p Hp. subst w1. simpl.
      apply (exists_path_write _ _ _ _ _ Hwf).
      by apply (checkDirExists_exists _ _ _ Hwalk). }
  destruct Hw2 as [-> ->]. split; [done|].
  change (disk (dispatched _ [] w1)) with fs1.
  destruct (write_file_again _ _ _ _ (to_buffer b2) Hwf) as [fs2 Hwf2].
  rewrite Hwf2. subst w1. simpl. rewrite Htr. simpl.
  repeat split.
  - rewrite !callbacks_of_app, (callbacks_of_walk 3 evs Hev). simpl.
    rewrite callbacks_of_no_callback; [done|].
    apply Forall_fmap. by apply Forall_true.
  - assert (∀ a b, created (a ++ b) = created a ++ created b) as Happ.
    { intros a b. induction a as [|[] a IH]; simpl; by rewrite ?IH. }
    rewrite !Happ. simpl.
    assert (created ((λ p, EvExistsSync p true) <$> walked (directory store))
            = []) as ->.
    { induction (walked (directory store)) as [|x l IH]; [done|]. done. }
    by rewrite !app_nil_r.
  - by apply (write_then_read _ _ _ _ Hwf2).
Qed.

Lemma saveFile_overwrites_witness :
  callbacks_of 3
    (trace (run_all []
              (saveFile "a" (CString "new") (Some (User 3))
                 (saved example_store example_fs "a" (CString "old") [])).2))
  = [[VNull]]
  ∧ read_file
      (disk (run_all []
               (saveFile "a" (CString "new") (Some (User 3))
                  (saved example_store example_fs "a" (CString "old") [])).2))
      "data/a"
    = inr ["n"%byte; "e"%byte; "w"%byte].
Proof.
  destruct (saveFile_overwrites example_store example_fs "a"
              (CString "old") (CString "new") [] [])
    as (_ & Hcb & _ & Hread); [discriminate|reflexivity|reflexivity|].
  split; [exact Hcb|exact Hread].
Defined.

(** ** The walk of a directory that exists *)

Lemma split_on_segments s :
  Forall (λ seg, split_on slash seg = [seg]) (split_on slash s).
Proof.
  induction s as [|c s IH]; [by repeat constructor|].
  simpl split_on. destruct (Ascii.eqb c slash) eqn:Hc.
  - by constructor.
  - destruct (split_on slash s) as [|seg segs].
    { constructor; [simpl; by rewrite Hc|constructor]. }
    apply Forall_cons in IH as [Hseg Hsegs]. constructor; [|done].
    simpl. by rewrite Hc, Hseg.
Qed.

Lemma start_of_absolute fs p :
  start_of fs p = if is_absolute p then [] else cwd fs.
Proof. by destruct p. Qed.

Lemma prefixes_from_split segs path index base :
  path ≠ "" → split_on slash path = base →
  Forall (λ s, split_on slash s = [s]) segs →
  ∀ p, p ∈ prefixes_from path (S index) segs →
    ∃ l1 l2, segs = l1 ++ l2 ∧ split_on slash p = base ++ l1
             ∧ is_absolute p = is_absolute path ∧ p ≠ "".
Proof.
  revert path index base.
  induction segs as [|s segs IH]; intros path index base Hne Hbase Hsegs p Hp.
  { by apply elem_of_nil in Hp. }
  apply Forall_cons in Hsegs as [Hs Hsegs]. simpl in Hp.
  assert (next_path path (S index) s = path +:+ String slash s) as Hnext.
  { unfold next_path. simpl. by destruct path. }
  rewrite Hnext in Hp.
  assert (split_on slash (path +:+ String slash s) = base ++ [s]) as Hsplit
    by (by rewrite split_on_append, Hbase, Hs).
  assert (is_absolute (path +:+ String slash s) = is_absolute path) as Habs
    by (by destruct path).
  assert (path +:+ String slash s ≠ "") as Hne' by (by destruct path).
  apply elem_of_cons in Hp as [->|Hp].
  - by exists [s], segs.
  - destruct (IH _ (S index) _ Hne' Hsplit Hsegs p Hp)
      as (l1 & l2 & -> & Hsp & Ha & Hp').
    exists (s :: l1), l2. rewrite Hsp, <- app_assoc. repeat split; try done.
    by rewrite Ha.
Qed.

Lemma walk_prefix t cur l1 l2 k n :
  walk t cur (l1 ++ l2) = inr k → node_at t k = Some n →
  ∃ k1 n1, walk t cur l1 = inr k1 ∧ node_at t k1 = Some n1.
Proof.
  rewrite walk_app. destruct (walk t cur l1) as [e|k1]; [done|].
  destruct l2 as [|s l2].
  - simpl. intros [= ->] Hn. eauto.
  - intros Hw _. destruct (node_at t k1) as [[m|d]|] eqn:Hk1; [eauto| |];
      exfalso; revert Hw; cbn [walk]; by rewrite Hk1.
Qed.

Lemma exists_path_prefixes fs n :
  exists_path fs n = true →
  ∀ p, p ∈ prefixes_from "" 0 (split_on slash n) → exists_path fs p = true.
Proof.
  unfold exists_path at 1. unfold stat, resolve.
  destruct n as [|c r]; [done|].
  change (is_empty (String c r)) with false. cbv iota.
  destruct (walk _ _ _) as [e|k] eqn:Hwalk; [done|].
  destruct (node_at (nodes fs) k) as [n|] eqn:Hk; [|done]. intros _ p.
  pose proof (split_on_segments (String c r)) as Hsegs.
  revert Hwalk Hsegs. rewrite start_of_absolute. simpl split_on. simpl is_absolute.
  assert (∀ q l, q ≠ "" → split_on slash q = l →
            (∃ k1 n1, walk (nodes fs) (if is_absolute q then [] else cwd fs) l
                      = inr k1 ∧ node_at (nodes fs) k1 = Some n1) →
            exists_path fs q = true) as Hex.
  { intros q l Hq <- (k1 & n1 & Hw1 & Hn1). unfold exists_path, stat, resolve.
    destruct q; [done|]. change (is_empty (String a q)) with false. cbv iota.
    by rewrite start_of_absolute, Hw1, Hn1. }
  destruct (Ascii.eqb c slash) eqn:Hc.
  - intros Hwalk Hsegs. apply Forall_cons in Hsegs as [_ Hsegs].
    simpl prefixes_from. change (next_path "" 0 "") with "/".
    intros [->|Hp]%elem_of_cons; [done|].
    destruct (prefixes_from_split _ "/" 0 [""; ""] ltac:(done) eq_refl Hsegs p Hp)
      as (l1 & l2 & Hl & Hsp & Ha & Hne).
    apply (Hex p _ Hne Hsp). rewrite Ha. simpl is_absolute.
    rewrite Hl in Hwalk.
    change (walk (nodes fs) [] ([""; ""] ++ l1)) with (walk (nodes fs) [] l1).
    change (walk (nodes fs) [] ("" :: l1 ++ l2))
      with (walk (nodes fs) [] (l1 ++ l2)) in Hwalk.
    by apply (walk_prefix _ _ _ _ _ _ Hwalk Hk).
  - destruct (split_on slash r) as [|seg segs] eqn:Hr.
    { by destruct (split_on_nonempty slash r). }
    intros Hwalk Hsegs. apply Forall_cons in Hsegs as [Hseg Hsegs].
    simpl prefixes_from.
    change (next_path "" 0 (String c seg)) with (String c seg).
    assert (is_absolute (String c seg) = false) as Hrel by (simpl; done).
    intros [->|Hp]%elem_of_cons.
    + apply (Hex (String c seg) _ ltac:(done) Hseg). rewrite Hrel.
      by apply (walk_prefix _ _ [String c seg] segs _ _ Hwalk Hk).
    + destruct (prefixes_from_split _ (String c seg) 0 [String c seg]
                  ltac:(done) Hseg Hsegs p Hp)
        as (l1 & l2 & Hl & Hsp & Ha & Hne).
      apply (Hex p _ Hne Hsp). rewrite Ha, Hrel. rewrite Hl in Hwalk.
      by apply (walk_prefix _ _ ([String c seg] ++ l1) l2 _ _ Hwalk Hk).
Qed.

(** X15.  When the directory, with its backslashes replaced, already
    exists, [checkDirExists] finds every prefix in place: it returns
    without throwing, having tested each prefix and created nothing. *)
Theorem checkDirExists_existing (d : string) (w : world) :
  exists_path (disk w) (replace_backslashes d) = true →
  checkDirExists (DStr d) w =
    (Ret tt, dispatched ((λ p, EvExistsSync p true) <$> walked (DStr d)) [] w).
Proof.
  intros Hex. apply checkDirExists_idem. unfold walked.
  destruct (dir_falsy (DStr d)).
  - intros p Hp. by apply elem_of_nil in Hp.
  - by apply exists_path_prefixes.
Qed.

Lemma checkDirExists_existing_witness :
  checkDirExists (DStr "data\n") example_world =
    (Ret tt,
     dispatched [EvExistsSync "data" true; EvExistsSync "data/n" true] []
       example_world).
Proof.
  apply (checkDirExists_existing "data\n" example_world). reflexivity.
Defined.

(** ** A store without a usable directory *)



(** ** A batch of saves and the files it leaves (index.js:76-81) *)

Lemma completions_each_done i err w :
  completions (trace (settle (each_done i err w))) = completions (trace w)
  ∨ completions (trace (settle (each_done i err w)))
    = completions (trace w) ++ [(i, err)].
Proof.
  rewrite settle_each_done. unfold item_done, call_final. case_decide.
  - left. simpl. by rewrite completions_snoc_other.
  - right. destruct (truthy err); cbn [batch log set_batch final trace].
    + by destruct (final (batch w)) as [[]|]; norm_trace.
    + destruct (total (batch w) <=? S (completed (batch w)))%nat;
        [|by norm_trace].
      by destruct (final (batch w)) as [[]|]; norm_trace.
Qed.

Lemma start_of_local_path fs (s : FileStorage) name name' :
  start_of fs (local_path s name) = start_of fs (local_path s name').
Proof.
  unfold local_path. by destruct (dir_to_string (directory s)).
Qed.

Lemma split_on_local_path (s : FileStorage) name :
  plain_name name →
  split_on slash (local_path s name)
  = split_on slash (dir_to_string (directory s)) ++ [name].
Proof.
  intros (Hp & _). unfold local_path.
  change ("/" +:+ name) with (String slash name).
  by rewrite split_on_append, Hp.
Qed.

(** A write under one plain name leaves the file under another as it
    was. *)
Lemma read_file_write_other fs (s : FileStorage) name data fs' name' data' :
  plain_name name → plain_name name' → name ≠ name' →
  write_file fs (local_path s name) data = inr fs' →
  read_file fs (local_path s name') = inr data' →
  read_file fs' (local_path s name') = inr data'.
Proof.
  intros Hpl Hpl' Hne Hw.
  destruct (write_file_keeps_dirs _ _ _ _ Hw) as [Hc Hk].
  destruct (write_file_inv _ _ _ _ Hw)
    as (init & nm & cur & m & _ & Hsplit & Hwk & Hn & _ & _ & _ & Hfs).
  rewrite (split_on_local_path s name Hpl) in Hsplit.
  apply app_inj_tail in Hsplit as [<- <-].
  unfold read_file, stat, resolve.
  destruct (is_empty (local_path s name')); [done|].
  rewrite (start_of_cwd fs fs' _ Hc).
  rewrite (split_on_local_path s name' Hpl'), !walk_app.
  rewrite (start_of_local_path fs s name' name), Hwk.
  rewrite (walk_keep _ _ _ Hk _ _ Hwk).
  destruct Hpl' as (_ & He' & Hd').
  rewrite (walk_name _ _ m name' Hn He' Hd').
  rewrite (walk_name _ _ m name' (node_at_keep _ _ Hk _ _ Hn) He' Hd').
  rewrite Hfs. simpl. rewrite lookup_insert_ne; [done|]. congruence.
Qed.

Section SavedBatch.

Context (store : FileStorage) (files : list (string * contents)).
Hypothesis Hplain : ∀ name, name ∈ files.*1 → plain_name name.
Hypothesis Hnodup : NoDup files.*1.

Lemma entry_plain i name body : files !! i = Some (name, body) → plain_name name.
Proof.
  intros Hi. apply Hplain. apply list_elem_of_fmap. exists (name, body).
  split; [done|]. by apply list_elem_of_lookup_2 in Hi.
Qed.

Lemma entry_unique i j name body body' :
  files !! i = Some (name, body) → files !! j = Some (name, body') → i = j.
Proof.
  intros Hi Hj. apply (NoDup_lookup _ _ _ name Hnodup);
    by rewrite list_lookup_fmap, ?Hi, ?Hj.
Qed.

Lemma batch_written_step k w :
  batch_written store files w → batch_written store files (step k w).
Proof.
  intros [Hq Hc]. unfold step.
  destruct (take_out _ _) as [[t rest]|] eqn:Ht; [|done].
  apply take_out_perm in Ht.
  assert (∀ t', t' ∈ rest → t' ∈ queue w) as Hsub.
  { intros t' Ht'. rewrite Ht. by right. }
  destruct (Hq t) as (i & name & body & Hi & ->); [rewrite Ht; left|].
  set (p := local_path store name). set (data := to_buffer body).
  assert (∀ err w',
            queue w' = rest →
            (∀ j e, (j, e) ∈ completions (trace w') ++ [(i, err)] →
               truthy e = false →
               ∃ name' body', files !! j = Some (name', body')
                 ∧ read_file (disk w') (local_path store name')
                   = inr (to_buffer body')) →
            batch_written store files (settle (each_done i err w'))) as Hdone.
  { intros err w' Hq' Hc'. split.
    - rewrite queue_each_done, Hq'. intros t' Ht'. by apply Hq, Hsub.
    - rewrite (proj2 (this_disk_each_done i err w')).
      intros j e Hj. apply Hc'.
      destruct (completions_each_done i err w') as [Heq|Heq];
        rewrite Heq in Hj; [|done].
      apply elem_of_app. by left. }
  simpl complete. cbn [disk set_queue].
  destruct (write_file (disk w) p data) as [e|fs'] eqn:Hw;
    unfold invoke; cbn [call arg nth].
  - apply (Hdone (VErrno e p) (set_queue rest w)); [done|]. simpl.
    intros j e' [Hj|Hj%list_elem_of_singleton]%elem_of_app He'.
    + by apply (Hc j e').
    + injection Hj as -> ->. done.
  - apply (Hdone VNull (set_disk fs' (set_queue rest w))); [done|]. simpl.
    intros j e' [Hj|Hj%list_elem_of_singleton]%elem_of_app He'.
    + destruct (Hc j e' Hj He') as (name' & body' & Hj' & Hread).
      exists name', body'. split; [done|].
      destruct (decide (name = name')) as [<-|Hne].
      * rewrite (entry_unique _ _ _ _ _ Hi Hj') in Hi.
        assert (body' = body) as -> by congruence.
        by apply (write_then_read _ _ _ _ Hw).
      * apply (read_file_write_other _ _ name data _ _ _
                 (entry_plain _ _ _ Hi) (entry_plain _ _ _ Hj') Hne Hw Hread).
    + injection Hj as -> ->. exists name, body. split; [done|].
      by apply (write_then_read _ _ _ _ Hw).
Qed.

Lemma batch_written_run sched w :
  batch_written store files w → batch_written store files (run sched w).
Proof.
  revert w. induction sched as [|k sched IH]; intros w Hw; [done|].
  simpl. change (fold_left _ sched ?x) with (run sched x).
  by apply IH, batch_written_step.
Qed.

Lemma batch_written_run_all sched w :
  batch_written store files w → batch_written store files (run_all sched w).
Proof. intros Hw. unfold run_all, drain. by do 2 apply batch_written_run. Qed.

End SavedBatch.

Lemma enabled_config_kept w w' :
  config_kept (this w) (this w') → enabled w' = enabled w.
Proof. rewrite !enabled_unfold. by intros [-> | ->]. Qed.

Lemma saveFile_local_task w name body j :
  enabled w = true → save_listeners (this w) = [] →
  match saveFile name body (Some (EachDone j)) w with
  | (Ret _, w') =>
      queue w' = queue w ++ [TWriteFile (local_path (this w) name)
                               (to_buffer body) (EachDone j)]
      ∧ completions (trace w') = completions (trace w)
      ∧ this w' = mark_directoryCreated (this w)
  | (Throw _, _) => True
  end.
Proof.
  intros He Hs. rewrite saveFile_local by done.
  pose proof (checkDirExists_frame (directory (this w)) w) as Hf.
  destruct (checkDirExists (directory (this w)) w) as [[[]|e] w1]; [|done].
  simpl in Hf. destruct Hf as (Hthis & Hq & _ & _ & evs & Htr & Hwalk).
  simpl. rewrite Hq, Hthis, Htr. repeat split.
  by rewrite !completions_app, (completions_walk evs Hwalk), !app_nil_r.
Qed.

Lemma iterate_saveFile_tasks store files rest pre w :
  files = pre ++ rest →
  enabled w = true → save_listeners (this w) = [] →
  directory (this w) = directory store →
  (∀ t, t ∈ queue w → write_task store files t) →
  match iterate (λ (entry : string * contents) i,
                   saveFile entry.1 entry.2 (Some (EachDone i)))
          (length pre) rest w with
  | (Ret _, w') =>
      (∀ t, t ∈ queue w' → write_task store files t)
      ∧ completions (trace w') = completions (trace w)
  | (Throw _, _) => True
  end.
Proof.
  revert pre w. induction rest as [|x rest IH]; intros pre w Hf He Hs Hd Hq.
  { done. }
  simpl. unfold mbind, M_bind.
  pose proof (saveFile_local_task w x.1 x.2 (length pre) He Hs) as Hone.
  destruct (saveFile x.1 x.2 (Some (EachDone (length pre))) w)
    as [[[]|e] w1]; [|done].
  destruct Hone as (Hq1 & Hc1 & Ht1).
  specialize (IH (pre ++ [x]) w1).
  replace (length (pre ++ [x])) with (S (length pre)) in IH
    by (rewrite length_app; simpl; lia).
  assert (config_kept (this w) (this w1)) as Hk by (right; done).
  destruct (iterate _ (S (length pre)) rest w1) as [[[]|e] w2] eqn:Hit;
    [|done].
  rewrite <- Hc1. apply IH.
  - by rewrite <- app_assoc.
  - by rewrite (enabled_config_kept w w1 Hk).
  - by rewrite Ht1.
  - by rewrite Ht1.
  - intros t. rewrite Hq1. intros [Ht|Ht%list_elem_of_singleton]%elem_of_app.
    + by apply Hq.
    + exists (length pre), x.1, x.2. split.
      * rewrite Hf. destruct x. by apply list_lookup_middle.
      * rewrite Ht. unfold local_path. by rewrite Hd.
Qed.

(** X17.  A batch of saves under distinct plain names, on a store with a
    directory and no ['save'] listener: when [saveFiles] has reported
    success to its callback, every entry's file holds exactly the bytes
    of that entry, whatever the order in which the writes completed. *)
Theorem saveFiles_then_read (store : FileStorage) (fs : filesystem)
    (files : list (string * contents)) (id : nat) (sched : list nat) :
  directory store ≠ DNull →
  save_listeners store = [] →
  (∀ name, name ∈ files.*1 → plain_name name) →
  NoDup files.*1 →
  let w := run_all sched (saveFiles files (Some id) (init_world store fs)).2 in
  callbacks_of id (trace w) = [[VNull]] →
  ∀ name body, (name, body) ∈ files →
    read_file (disk w) (local_path store name) = inr (to_buffer body).
Proof.
  intros Hd Hs Hplain Hnodup. cbv zeta.
  destruct files as [|x fl] eqn:Hfiles.
  { intros _ name body Hin. by apply elem_of_nil in Hin. }
  rewrite <- Hfiles in *. set (n := length files).
  set (w0 := set_batch {| total := n; completed := 0; called := [];
                          results := []; final := Some (EachFinal id) |}
               (init_world store fs)).
  assert (saveFiles files (Some id) (init_world store fs)
          = iterate (λ (entry : string * contents) i,
                       saveFile entry.1 entry.2 (Some (EachDone i))) 0 files w0)
    as ->.
  { subst w0 n. rewrite Hfiles. reflexivity. }
  assert (Hinv0 : save_inv n (Some id) 0 w0).
  { split; [|split].
    - constructor; simpl; try done.
      + lia.
      + constructor.
      + intros i Hi. by apply elem_of_nil in Hi.
      + intros id0 _. subst n. by rewrite Hfiles.
    - intros t Ht. by apply elem_of_nil in Ht.
    - intros i Hi. lia. }
  assert (Hcalm : save_calm (this w0) (disk w0)).
  { right. left. unfold save_later. simpl. rewrite Hs. constructor. }
  pose proof (iterate_saveFile_inv n (Some id) files [] w0 eq_refl Hcalm Hinv0)
    as Hit.
  pose proof (iterate_saveFile_tasks store files files [] w0 eq_refl) as Htasks.
  simpl length in Hit, Htasks.
  destruct (iterate (λ (entry : string * contents) i,
                       saveFile entry.1 entry.2 (Some (EachDone i))) 0 files w0)
    as [[[]|e] w1]; cbn [snd].
  - destruct Htasks as [Hq1 Hc1]; [by apply enabled_init|done|done| |].
    { intros t Ht. by apply elem_of_nil in Ht. }
    assert (batch_written store files w1) as Hwr.
    { split; [done|]. rewrite Hc1. intros i err Hi. by apply elem_of_nil in Hi. }
    apply (batch_written_run_all store files Hplain Hnodup sched) in Hwr.
    pose proof (save_inv_run_all n (Some id) n sched w1 Hit) as Hinv.
    pose proof (queue_run_all sched w1) as Hq.
    set (wf := run_all sched w1) in *.
    pose proof (called_all_when_idle _ _ _ _ Hinv Hq) as Hall.
    destruct Hinv as (Hc & _ & _).
    rewrite (sc_log _ _ _ _ Hc id eq_refl). unfold reported.
    destruct (first_error (completions (trace wf))) as [e|] eqn:Hfe.
    { intros [= ->]. by apply first_error_truthy in Hfe. }
    intros _ name body Hin.
    apply list_elem_of_lookup_1 in Hin as [i Hi].
    assert (i ∈ (completions (trace wf)).*1) as Hdone.
    { rewrite (sc_completions _ _ _ _ Hc), <- Permutation_rev. apply Hall.
      by apply lookup_lt_Some in Hi. }
    apply list_elem_of_fmap in Hdone as ([i' err] & -> & Hdone).
    apply first_error_None in Hfe.
    destruct (proj2 Hwr i' err Hdone) as (name' & body' & Hi' & Hread).
    { by apply (proj1 (Forall_forall _ _) Hfe _ Hdone). }
    simpl in Hi. rewrite Hi in Hi'. by injection Hi' as <- <-.
  - destruct Hit as (j & Hj & Hinv).
    pose proof (save_inv_run_all n (Some id) j sched w1 Hinv) as (Hc & _ & _).
    destruct (save_core_length _ _ _ _ Hc) as [Hlen Hub].
    rewrite (sc_log _ _ _ _ Hc id eq_refl). unfold reported.
    destruct (first_error (completions (trace (run_all sched w1))))
      as [e0|] eqn:Hfe.
    + intros [= ->]. by apply first_error_truthy in Hfe.
    + by rewrite (proj2 (Nat.leb_gt _ _)) by lia.
Qed.

Lemma saveFiles_then_read_witness :
  read_file
    (disk (run_all [1]
             (saveFiles [("a", CString "1"); ("b", CString "2")] (Some 7)
                example_world).2))
    "data/a" = inr ["1"%byte]
  ∧ read_file
      (disk (run_all [1]
               (saveFiles [("a", CString "1"); ("b", CString "2")] (Some 7)
                  example_world).2))
      "data/b" = inr ["2"%byte].
Proof.
  pose proof (saveFiles_then_read example_store example_fs
                [("a", CString "1"); ("b", CString "2")] 7 [1]) as H.
  assert (directory example_store ≠ DNull) as Hd by discriminate.
  assert (∀ name, name ∈ [("a", CString "1"); ("b", CString "2")].*1 →
                  plain_name name) as Hplain.
  { intros name Hin. simpl in Hin.
    apply elem_of_cons in Hin as [->|Hin]; [by repeat split|].
    apply list_elem_of_singleton in Hin as ->. by repeat split. }
  assert (NoDup [("a", CString "1"); ("b", CString "2")].*1) as Hnodup.
  { simpl. apply NoDup_cons. split; [|apply NoDup_singleton].
    intros Hin%list_elem_of_singleton. discriminate. }
  specialize (H Hd eq_refl Hplain Hnodup eq_refl).
  split; [apply (H "a" (CString "1"))|apply (H "b" (CString "2"))].
  - left.
  - right. left.
Defined.

(** ** Saves that succeed *)

Lemma created_app a b : created (a ++ b) = created a ++ created b.
Proof. induction a as [|[] a IH]; simpl; by rewrite ?IH. Qed.

Lemma created_tests (ps : list string) :
  created ((λ p, EvExistsSync p true) <$> ps) = [].
Proof. by induction ps. Qed.

Lemma exists_path_resolved fs d k n :
  resolve fs d = inr k → node_at (nodes fs) k = Some n → exists_path fs d = true.
Proof. intros Hr Hn. unfold exists_path, stat. by rewrite Hr, Hn. Qed.

Lemma walked_exist fs d k n :
  replace_backslashes d = d →
  resolve fs d = inr k → node_at (nodes fs) k = Some n →
  ∀ p, p ∈ walked (DStr d) → exists_path fs p = true.
Proof.
  intros Hb Hr Hn. unfold walked. destruct (dir_falsy (DStr d)).
  - intros p Hp. by apply elem_of_nil in Hp.
  - apply exists_path_prefixes. simpl. rewrite Hb.
    by apply (exists_path_resolved _ _ k n).
Qed.

(** Where a successful write under a plain name puts the file. *)
Lemma write_file_local fs (s : FileStorage) d name data fs' k :
  directory s = DStr d → plain_name name →
  resolve fs d = inr k →
  write_file fs (local_path s name) data = inr fs' →
  fs' = Filesystem (cwd fs) (<[name :: k := File data]> (nodes fs)).
Proof.
  intros Hd Hpl Hr Hw.
  destruct (write_file_inv _ _ _ _ Hw)
    as (init & nm & cur & m & _ & Hsplit & Hwk & _ & _ & _ & _ & ->).
  rewrite (split_on_local_path s name Hpl) in Hsplit.
  apply app_inj_tail in Hsplit as [<- <-].
  revert Hr Hwk. unfold resolve, local_path. rewrite Hd. simpl dir_to_string.
  destruct d as [|c d]; [done|].
  change (is_empty (String c d)) with false. cbv iota.
  change (start_of fs (String c d +:+ "/" +:+ name))
    with (start_of fs (String c d)).
  intros -> [= <-]. done.
Qed.

(** X18.  A save that cannot fail.  On a store without ['save'] listener
    whose directory (written without backslashes) is an existing
    directory, saving under a plain name that is not itself a directory
    reports success whatever the completion order; no directory is
    created, the file then holds exactly the bytes saved, and no other
    node of the filesystem has changed. *)
Theorem saveFile_succeeds (store : FileStorage) (fs : filesystem)
    (d name : string) (body : contents) (sched : list nat)
    (k : list string) (m : N) :
  directory store = DStr d →
  replace_backslashes d = d →
  save_listeners store = [] →
  resolve fs d = inr k →
  node_at (nodes fs) k = Some (Dir m) →
  plain_name name →
  (∀ m', node_at (nodes fs) (name :: k) ≠ Some (Dir m')) →
  let w := saved store fs name body sched in
  callbacks_of 1 (trace w) = [[VNull]]
  ∧ created (trace w) = []
  ∧ read_file (disk w) (local_path store name) = inr (to_buffer body)
  ∧ disk w = Filesystem (cwd fs) (<[name :: k := File (to_buffer body)]> (nodes fs)).
Proof.
  intros Hd Hb Hs Hr Hk Hpl Hnd. cbv zeta.
  assert (directory store ≠ DNull) as Hdn by (by rewrite Hd).
  pose proof (saved_local_world store fs name body sched Hdn Hs) as Hw.
  cbv zeta in Hw. rewrite Hd in Hw.
  rewrite checkDirExists_idem in Hw by (by apply (walked_exist _ _ k (Dir m))).
  destruct Hw as [_ ->]. cbn [disk dispatched init_world].
  destruct Hpl as (Hp1 & Hp2 & Hp3).
  destruct (write_file_plain fs d name (to_buffer body) k m Hr Hk Hp1 Hp2 Hp3 Hnd)
    as [fs' Hwf].
  assert (local_path store name = d +:+ "/" +:+ name) as Hlp
    by (unfold local_path; by rewrite Hd).
  rewrite Hlp, Hwf. simpl. repeat split.
  - rewrite !callbacks_of_app. simpl.
    rewrite callbacks_of_no_callback; [done|].
    apply Forall_fmap. by apply Forall_true.
  - by rewrite !created_app, created_tests.
  - by apply (write_then_read _ _ _ _ Hwf).
  - rewrite <- Hlp in Hwf.
    by apply (write_file_local fs store d name _ _ k Hd (conj Hp1 (conj Hp2 Hp3)) Hr).
Qed.

Lemma saveFile_succeeds_witness :
  callbacks_of 1 (trace (saved example_store example_fs "a" (CString "hi") [2]))
    = [[VNull]]
  ∧ read_file (disk (saved example_store example_fs "a" (CString "hi") [2]))
      "data/a" = inr ["h"%byte; "i"%byte].
Proof.
  destruct (saveFile_succeeds example_store example_fs "data" "a" (CString "hi")
              [2] ["data"] 493) as (Hcb & _ & Hread & _);
    try reflexivity.
  - by repeat split.
  - intros m'. discriminate.
  - split; [exact Hcb|exact Hread].
Defined.

Lemma resolve_write fs p data fs' q k :
  write_file fs p data = inr fs' → resolve fs q = inr k → resolve fs' q = inr k.
Proof.
  intros Hw. destruct (write_file_keeps_dirs _ _ _ _ Hw) as [Hc Hk].
  unfold resolve. destruct (is_empty q); [done|].
  rewrite (start_of_cwd fs fs' q Hc). by apply walk_keep.
Qed.

Lemma io_complete t w :
  List.filter is_io (trace (complete t w)) = List.filter is_io (trace w).
Proof.
  destruct t as [p d cb|p cb|args cb]; simpl.
  - destruct (write_file (disk w) p d); by rewrite invoke_io.
  - destruct (read_file (disk w) p); by rewrite invoke_io.
  - by rewrite invoke_io.
Qed.

Lemma io_run sched w :
  List.filter is_io (trace (run sched w)) = List.filter is_io (trace w).
Proof.
  revert w. induction sched as [|k sched IH]; intros w; [done|].
  simpl. change (fold_left _ sched ?x) with (run sched x). rewrite IH.
  unfold step. destruct (take_out _ _) as [[t rest]|]; [|done].
  by rewrite io_complete.
Qed.

Lemma io_run_all sched w :
  List.filter is_io (trace (run_all sched w)) = List.filter is_io (trace w).
Proof. unfold run_all, drain. by rewrite !io_run. Qed.

Lemma created_filter_io tr : created (List.filter is_io tr) = created tr.
Proof.
  induction tr as [|[] tr IH]; simpl; by rewrite ?IH.
Qed.

Section BatchSucceeds.

Context (store : FileStorage) (files : list (string * contents)).
Context (d : string) (k : list string).
Hypothesis Hdir : directory store = DStr d.
Hypothesis Hplain : ∀ name, name ∈ files.*1 → plain_name name.

Lemma batch_ok_step j w :
  batch_ok store files d k w → batch_ok store files d k (step j w).
Proof.
  intros (Hq & Hr & [m Hk] & Hnd & Hfe). unfold step.
  destruct (take_out _ _) as [[t rest]|] eqn:Ht;
    [|by repeat split; eauto].
  apply take_out_perm in Ht.
  destruct (Hq t) as (i & name & body & Hi & ->); [rewrite Ht; left|].
  assert (name ∈ files.*1) as Hin.
  { apply list_elem_of_fmap. exists (name, body). split; [done|].
    by apply list_elem_of_lookup_2 in Hi. }
  pose proof (Hplain name Hin) as Hpl. pose proof Hpl as (Hp1 & Hp2 & Hp3).
  assert (local_path store name = d +:+ "/" +:+ name) as Hlp
    by (unfold local_path; by rewrite Hdir).
  destruct (write_file_plain (disk w) d name (to_buffer body) k m
              Hr Hk Hp1 Hp2 Hp3 (Hnd name Hin)) as [fs' Hwf].
  simpl complete. cbn [disk set_queue]. rewrite Hlp, Hwf. unfold invoke. cbn [call arg nth].
  set (w' := set_disk fs' (set_queue rest w)).
  rewrite <- Hlp in Hwf.
  pose proof (write_file_local _ store d name _ _ k Hdir Hpl Hr Hwf) as Hfs'.
  destruct (write_file_keeps_dirs _ _ _ _ Hwf) as [_ Hkeep].
  split; [|split; [|split; [|split]]].
  - rewrite queue_each_done. simpl. intros t' Ht'. apply Hq. rewrite Ht.
    by right.
  - rewrite (proj2 (this_disk_each_done i VNull w')). simpl.
    by apply (resolve_write _ _ _ _ _ _ Hwf).
  - rewrite (proj2 (this_disk_each_done i VNull w')). simpl. exists m.
    by apply (node_at_keep _ _ Hkeep).
  - rewrite (proj2 (this_disk_each_done i VNull w')). simpl.
    intros name' Hin' m'. rewrite Hfs'. simpl.
    destruct (decide (name = name')) as [<-|Hne].
    + by rewrite lookup_insert_eq.
    + rewrite lookup_insert_ne by congruence. apply (Hnd name' Hin' m').
  - destruct (completions_each_done i VNull w') as [-> | ->]; [done|].
    simpl. by rewrite first_error_snoc, Hfe.
Qed.

Lemma batch_ok_run sched w :
  batch_ok store files d k w → batch_ok store files d k (run sched w).
Proof.
  revert w. induction sched as [|j sched IH]; intros w Hw; [done|].
  simpl. change (fold_left _ sched ?x) with (run sched x).
  by apply IH, batch_ok_step.
Qed.

Lemma batch_ok_run_all sched w :
  batch_ok store files d k w → batch_ok store files d k (run_all sched w).
Proof. intros Hw. unfold run_all, drain. by do 2 apply batch_ok_run. Qed.

(** Handing the entries over when every prefix of the directory
    exists. *)
Lemma iterate_saveFile_existing rest pre w :
  files = pre ++ rest →
  enabled w = true → save_listeners (this w) = [] →
  directory (this w) = directory store →
  (∀ p, p ∈ walked (directory store) → exists_path (disk w) p = true) →
  (∀ t, t ∈ queue w → write_task store files t) →
  ∃ w', iterate (λ (entry : string * contents) i,
                   saveFile entry.1 entry.2 (Some (EachDone i)))
          (length pre) rest w = (Ret tt, w')
        ∧ disk w' = disk w
        ∧ (∀ t, t ∈ queue w' → write_task store files t)
        ∧ completions (trace w') = completions (trace w)
        ∧ created (trace w') = created (trace w).
Proof.
  revert pre w. induction rest as [|x rest IH]; intros pre w Hf He Hs Hd Hex Hq.
  { by exists w. }
  simpl. unfold mbind, M_bind. rewrite saveFile_local by done.
  rewrite Hd, checkDirExists_idem by done.
  set (w1 := dispatched [EvWriteFile _ _] [_] _).
  destruct (IH (pre ++ [x]) w1) as (w' & Hrun & Hdisk & Hq' & Hc' & Hcr').
  - by rewrite <- app_assoc.
  - rewrite <- He. apply enabled_config_kept. by right.
  - done.
  - done.
  - done.
  - subst w1. simpl. rewrite app_nil_r.
    intros t [Ht|Ht%list_elem_of_singleton]%elem_of_app; [by apply Hq|].
    exists (length pre), x.1, x.2. split.
    + rewrite Hf. destruct x. by apply list_lookup_middle.
    + rewrite Ht. unfold local_path. by rewrite Hd.
  - replace (length (pre ++ [x])) with (S (length pre)) in Hrun
      by (rewrite length_app; simpl; lia).
    exists w'. split; [done|]. rewrite Hdisk, Hc', Hcr'. subst w1. simpl.
    repeat split; [done| |].
    + rewrite !completions_app,
        (completions_walk ((λ p, EvExistsSync p true)
                             <$> walked (directory store))).
      * simpl. by rewrite !app_nil_r.
      * clear. by induction (walked (directory store)).
    + by rewrite !created_app, created_tests, !app_nil_r.
Qed.

End BatchSucceeds.

(** X19.  A batch of saves that cannot fail.  On a store without ['save']
    listener whose directory (written without backslashes) is an
    existing directory, [saveFiles] over plain names none of which is
    itself a directory returns, creates no directory, and reports success
    to its callback, exactly once, whatever the order in which the writes
    complete. *)
Theorem saveFiles_succeeds (store : FileStorage) (fs : filesystem)
    (files : list (string * contents)) (d : string) (id : nat)
    (sched : list nat) (k : list string) (m : N) :
  directory store = DStr d →
  replace_backslashes d = d →
  save_listeners store = [] →
  resolve fs d = inr k →
  node_at (nodes fs) k = Some (Dir m) →
  (∀ name, name ∈ files.*1 →
     plain_name name ∧ ∀ m', node_at (nodes fs) (name :: k) ≠ Some (Dir m')) →
  let r := saveFiles files (Some id) (init_world store fs) in
  r.1 = Ret tt
  ∧ callbacks_of id (trace (run_all sched r.2)) = [[VNull]]
  ∧ created (trace (run_all sched r.2)) = [].
Proof.
  intros Hd Hb Hs Hr Hk Hnames. cbv zeta.
  destruct files as [|x fl] eqn:Hfiles.
  { simpl. rewrite run_all_idle by done. simpl. by rewrite decide_True. }
  rewrite <- Hfiles in *. set (n := length files).
  set (w0 := set_batch {| total := n; completed := 0; called := [];
                          results := []; final := Some (EachFinal id) |}
               (init_world store fs)).
  assert (saveFiles files (Some id) (init_world store fs)
          = iterate (λ (entry : string * contents) i,
                       saveFile entry.1 entry.2 (Some (EachDone i))) 0 files w0)
    as ->.
  { subst w0 n. rewrite Hfiles. reflexivity. }
  assert (Hinv0 : save_inv n (Some id) 0 w0).
  { split; [|split].
    - constructor; simpl; try done.
      + lia.
      + constructor.
      + intros i Hi. by apply elem_of_nil in Hi.
      + intros id0 _. subst n. by rewrite Hfiles.
    - intros t Ht. by apply elem_of_nil in Ht.
    - intros i Hi. lia. }
  assert (Hcalm : save_calm (this w0) (disk w0)).
  { right. left. unfold save_later. simpl. rewrite Hs. constructor. }
  pose proof (iterate_saveFile_inv n (Some id) files [] w0 eq_refl Hcalm Hinv0)
    as Hit.
  destruct (iterate_saveFile_existing store files files [] w0 eq_refl)
    as (w1 & Hrun & Hdisk & Hq1 & Hc1 & Hcr1).
  { apply enabled_init. by rewrite Hd. }
  { done. }
  { done. }
  { rewrite Hd. by apply (walked_exist _ _ k (Dir m)). }
  { intros t Ht. by apply elem_of_nil in Ht. }
  simpl length in Hit, Hrun. rewrite Hrun in Hit |- *. cbn [fst snd].
  split; [done|].
  assert (batch_ok store files d k w1) as Hok.
  { split; [done|]. rewrite Hdisk, Hc1. simpl. repeat split; try done.
    - by exists m.
    - intros name Hin. by apply Hnames. }
  apply (batch_ok_run_all store files d k Hd (λ name Hin, proj1 (Hnames name Hin))
           sched) in Hok.
  pose proof (save_inv_run_all n (Some id) n sched w1 Hit) as Hinv.
  pose proof (queue_run_all sched w1) as Hq.
  pose proof (io_run_all sched w1) as Hio.
  set (wf := run_all sched w1) in *.
  pose proof (called_all_when_idle _ _ _ _ Hinv Hq) as Hall.
  destruct Hinv as (Hc & _ & _).
  destruct (save_core_length _ _ _ _ Hc) as [Hlen Hub].
  pose proof (covering_length _ _ Hall) as Hlb.
  destruct Hok as (_ & _ & _ & _ & Hfe).
  split.
  - rewrite (sc_log _ _ _ _ Hc id eq_refl). unfold reported. rewrite Hfe.
    by rewrite (proj2 (Nat.leb_le _ _)) by lia.
  - by rewrite <- created_filter_io, Hio, created_filter_io, Hcr1.
Qed.

Lemma saveFiles_succeeds_witness :
  callbacks_of 7
    (trace (run_all [1]
              (saveFiles [("a", CString "1"); ("b", CString "2")] (Some 7)
                 example_world).2))
  = [[VNull]].
Proof.
  assert (∀ name, name ∈ [("a", CString "1"); ("b", CString "2")].*1 →
            plain_name name
            ∧ ∀ m', node_at (nodes example_fs) [name; "data"] ≠ Some (Dir m'))
    as Hnames.
  { intros name Hin. simpl in Hin.
    apply elem_of_cons in Hin as [->|Hin]; [by repeat split|].
    apply list_elem_of_singleton in Hin as ->. by repeat split. }
  exact (proj1 (proj2 (saveFiles_succeeds example_store example_fs
                         [("a", CString "1"); ("b", CString "2")] "data" 7 [1]
                         ["data"] 493 eq_refl eq_refl eq_refl eq_refl eq_refl
                         Hnames))).
Defined.

(** ** More than one listener and the guard of [Async.each] *)

Lemma uncaught_app a b : uncaught (a ++ b) = uncaught a ++ uncaught b.
Proof. induction a as [|[] a IH]; simpl; by rewrite ?IH. Qed.

Lemma uncaught_each_done i err w :
  let w' := settle (each_done i err w) in
  (i ∈ called (batch w)
   ∧ uncaught (trace w') = uncaught (trace w) ++ [already_called]
   ∧ called (batch w') = called (batch w))
  ∨ ((i ∉ called (batch w))
     ∧ uncaught (trace w') = uncaught (trace w)
     ∧ called (batch w') = i :: called (batch w)).
Proof.
  cbv zeta. rewrite settle_each_done. unfold item_done, call_final.
  case_decide.
  - left. simpl. by rewrite uncaught_app.
  - right. split; [done|].
    destruct (truthy err); cbn [batch log set_batch final trace].
    + destruct (final (batch w)) as [[]|]; simpl;
        by rewrite ?uncaught_app, ?app_nil_r.
    + destruct (total (batch w) <=? S (completed (batch w)))%nat.
      * destruct (final (batch w)) as [[]|]; simpl;
          by rewrite ?uncaught_app, ?app_nil_r.
      * simpl. by rewrite ?uncaught_app, ?app_nil_r.
Qed.

Lemma save_item_task i t : save_item i t → item_task t.
Proof.
  intros Ht w. destruct (complete_save_item i t w Ht)
    as (err & w' & Hc & Hb & Htr & Hq).
  exists i, err, w'. by rewrite Hb.
Qed.

Lemma read_item_task store fs names i t :
  read_item store fs names i t → item_task t.
Proof.
  intros [name _ _ _|name h _ _ _] w; simpl complete.
  - destruct (read_file (disk w) (local_path store name)) as [e|data];
      unfold invoke; cbn [call]; unfold map_done; do 3 eexists;
      (split; [reflexivity|done]).
  - unfold invoke. cbn [call]. unfold map_done. do 3 eexists.
    split; [reflexivity|done].
Qed.

(** While operations of that kind complete, each completion either is
    the first for its item or throws [already_called]. *)
Lemma guard_count_run sched w :
  Forall item_task (queue w) →
  let w' := run sched w in
  Forall item_task (queue w')
  ∧ (∃ n, uncaught (trace w') = uncaught (trace w) ++ replicate n already_called
          ∧ n + length (called (batch w')) + length (queue w')
            = length (called (batch w)) + length (queue w)).
Proof.
  cbv zeta. revert w. induction sched as [|k sched IH]; intros w Hq.
  { split; [done|]. exists 0. simpl. by rewrite app_nil_r. }
  simpl. change (fold_left _ sched ?x) with (run sched x).
  assert (Forall item_task (queue (step k w))
          ∧ ∃ n, uncaught (trace (step k w))
                 = uncaught (trace w) ++ replicate n already_called
                 ∧ n + length (called (batch (step k w)))
                   + length (queue (step k w))
                   = length (called (batch w)) + length (queue w))
    as (Hq1 & n1 & Hu1 & Hn1).
  { unfold step. destruct (take_out _ _) as [[t rest]|] eqn:Ht.
    - apply take_out_perm in Ht. pose proof Hq as Hq0. rewrite Ht in Hq.
      apply Forall_cons in Hq as [Hitem Hrest].
      destruct (Hitem (set_queue rest w)) as (i & err & w' & -> & Hc & Htr & Hqq).
      assert (length (queue w) = S (length rest)) as Hlen by (by rewrite Ht).
      rewrite queue_each_done, Hqq. simpl queue. split; [done|].
      destruct (uncaught_each_done i err w') as [(_ & -> & ->)|(_ & -> & ->)];
        rewrite Htr, Hc; simpl.
      + exists 1. split; [done|]. lia.
      + exists 0. rewrite app_nil_r. split; [done|]. lia.
    - split; [done|]. exists 0. simpl. by rewrite app_nil_r. }
  destruct (IH _ Hq1) as (Hq2 & n2 & Hu2 & Hn2). split; [done|].
  exists (n1 + n2). rewrite Hu2, Hu1, <- app_assoc, replicate_add.
  split; [done|]. lia.
Qed.

Lemma guard_count_run_all sched w :
  Forall item_task (queue w) →
  ∃ n, uncaught (trace (run_all sched w))
       = uncaught (trace w) ++ replicate n already_called
       ∧ n + length (called (batch (run_all sched w)))
         = length (called (batch w)) + length (queue w).
Proof.
  intros Hq. pose proof (queue_run_all sched w) as Hidle. revert Hidle.
  unfold run_all, drain.
  destruct (guard_count_run sched w Hq) as (Hq1 & n1 & Hu1 & Hn1).
  set (w1 := run sched w) in *.
  destruct (guard_count_run (replicate (length (queue w1)) 0) w1 Hq1)
    as (_ & n2 & Hu2 & Hn2).
  intros Hidle. rewrite Hidle in Hn2. simpl in Hn2.
  exists (n1 + n2). rewrite Hu2, Hu1, <- app_assoc, replicate_add.
  split; [done|]. lia.
Qed.

Lemma uncaught_constant {A} (l : list A) e :
  (∀ v, e ≠ EvUncaught v) → uncaught ((λ _, e) <$> l) = [].
Proof.
  intros He. induction l as [|x l IH]; [done|]. csimpl. rewrite IH.
  destruct e; try done. by destruct (He e).
Qed.

Lemma iterate_saveFile_listeners rest j w :
  enabled w = true → save_listeners (this w) ≠ [] → save_later (this w) →
  ∃ w', iterate (λ (entry : string * contents) i,
                   saveFile entry.1 entry.2 (Some (EachDone i))) j rest w
        = (Ret tt, w')
        ∧ this w' = this w ∧ batch w' = batch w
        ∧ uncaught (trace w') = uncaught (trace w)
        ∧ length (queue w')
          = length (queue w) + length rest * length (save_listeners (this w)).
Proof.
  revert j w. induction rest as [|x rest IH]; intros j w He Hl Hlat.
  { exists w. simpl. repeat split; try done; lia. }
  simpl iterate. unfold mbind, M_bind. rewrite saveFile_handler by done.
  set (w1 := dispatched _ _ w).
  destruct (IH (S j) w1) as (w' & -> & Ht & Hb & Hu & Hlen); [done|done|done|].
  exists w'. split; [done|]. rewrite Ht, Hb, Hu, Hlen. subst w1. simpl.
  repeat split.
  - rewrite uncaught_app. unfold save_events.
    rewrite uncaught_constant; [by rewrite app_nil_r|done].
  - unfold save_replies. rewrite length_app, length_fmap.
    symmetry. apply Nat.add_assoc.
Qed.

(** X20.  With more than one ['save'] listener a batch of saves trips the
    guard of [Async.each].  On an enabled store with [k] ['save']
    listeners that all answer on a later turn of the event loop, the
    exception thrown into a reply being caught there so that the other
    replies come all the same: once everything [saveFiles] started over
    [n] entries has completed, [n * (k - 1)] replies have been answered
    by throwing [Callback was already called.]: every reply after the
    first for an entry, whatever the completion order; with one listener
    none. *)
Theorem saveFiles_listeners_guard (store : FileStorage) (fs : filesystem)
    (files : list (string * contents)) (callback : option nat)
    (sched : list nat) :
  enabled (init_world store fs) = true →
  save_listeners store ≠ [] →
  save_later store →
  uncaught (trace (run_all sched
                     (saveFiles files callback (init_world store fs)).2))
  = replicate (length files * (length (save_listeners store) - 1))
      already_called.
Proof.
  intros He Hl Hlat. destruct files as [|x fl] eqn:Hfiles.
  { destruct callback; by rewrite run_all_idle. }
  rewrite <- Hfiles in *. set (n := length files).
  set (w0 := set_batch {| total := n; completed := 0; called := [];
                          results := []; final := EachFinal <$> callback |}
               (init_world store fs)).
  assert (saveFiles files callback (init_world store fs)
          = iterate (λ (entry : string * contents) i,
                       saveFile entry.1 entry.2 (Some (EachDone i))) 0 files w0)
    as ->.
  { subst w0 n. rewrite Hfiles. reflexivity. }
  assert (Hinv0 : save_inv n callback 0 w0).
  { split; [|split].
    - constructor; simpl; try done.
      + lia.
      + constructor.
      + intros i Hi. by apply elem_of_nil in Hi.
      + intros id0 _. subst n. by rewrite Hfiles.
    - intros t Ht. by apply elem_of_nil in Ht.
    - intros i Hi. lia. }
  assert (Hcalm : save_calm (this w0) (disk w0)) by (right; by left).
  pose proof (iterate_saveFile_inv n callback files [] w0 eq_refl Hcalm Hinv0)
    as Hit.
  destruct (iterate_saveFile_listeners files 0 w0 He Hl Hlat)
    as (w1 & Hrun & _ & Hb1 & Hu1 & Hlen1).
  simpl length in Hit. rewrite Hrun in Hit |- *. cbn [snd].
  assert (Forall item_task (queue w1)) as Hitems.
  { apply Forall_forall. intros t Ht. destruct Hit as (_ & Hq & _).
    destruct (Hq t Ht) as (i & _ & Hi). by apply (save_item_task i). }
  destruct (guard_count_run_all sched w1 Hitems) as (u & Hu & Hcount).
  pose proof (save_inv_run_all n callback n sched w1 Hit) as Hinv.
  pose proof (queue_run_all sched w1) as Hq.
  set (wf := run_all sched w1) in *.
  pose proof (called_all_when_idle _ _ _ _ Hinv Hq) as Hall.
  destruct Hinv as (Hc & _ & _).
  destruct (save_core_length _ _ _ _ Hc) as [_ Hub].
  pose proof (covering_length _ _ Hall) as Hlb.
  rewrite Hu, Hu1. simpl. f_equal.
  rewrite Hb1, Hlen1 in Hcount. simpl in Hcount. fold n in Hcount.
  rewrite Nat.mul_sub_distr_l. lia.
Qed.

Lemma saveFiles_listeners_guard_witness :
  uncaught (trace (run_all [1]
                     (saveFiles [("x", CString "1"); ("y", CString "2")] (Some 7)
                        (init_world example_remote example_fs)).2))
  = [already_called; already_called].
Proof.
  apply (saveFiles_listeners_guard example_remote example_fs
           [("x", CString "1"); ("y", CString "2")] (Some 7) [1]);
    [reflexivity|discriminate|by repeat constructor].
Defined.

Lemma iterate_readFile_listeners rest j w :
  enabled w = true → read_listeners (this w) ≠ [] → read_later (this w) →
  ∃ w', iterate (λ filename i,
                   readFile filename (ReadReply filename (MapDone i))) j rest w
        = (Ret tt, w')
        ∧ this w' = this w ∧ batch w' = batch w
        ∧ uncaught (trace w') = uncaught (trace w)
        ∧ length (queue w')
          = length (queue w) + length rest * length (read_listeners (this w)).
Proof.
  revert j w. induction rest as [|x rest IH]; intros j w He Hl Hlat.
  { exists w. simpl. repeat split; try done; lia. }
  simpl iterate. unfold mbind, M_bind. rewrite readFile_handler by done.
  set (w1 := dispatched _ _ w).
  destruct (IH (S j) w1) as (w' & -> & Ht & Hb & Hu & Hlen); [done|done|done|].
  exists w'. split; [done|]. rewrite Ht, Hb, Hu, Hlen. subst w1. simpl.
  repeat split.
  - rewrite uncaught_app. unfold read_events.
    rewrite uncaught_constant; [by rewrite app_nil_r|done].
  - unfold read_replies. rewrite length_app, length_fmap.
    symmetry. apply Nat.add_assoc.
Qed.

(** X21.  The same for reads.  On an enabled store with [k] ['read']
    listeners that all answer on a later turn of the event loop, the
    exception thrown into a reply being caught there: once everything
    [readFiles] started over [n] names has completed, [n * (k - 1)]
    replies have been answered by throwing
    [Callback was already called.], whatever the completion order; with
    one listener none. *)
Theorem readFiles_listeners_guard (store : FileStorage) (fs : filesystem)
    (names : list string) (id : nat) (sched : list nat) :
  enabled (init_world store fs) = true →
  read_listeners store ≠ [] →
  read_later store →
  uncaught (trace (run_all sched (readFiles names id (init_world store fs)).2))
  = replicate (length names * (length (read_listeners store) - 1))
      already_called.
Proof.
  intros He Hl Hlat.
  destruct (readFiles_inv store fs names id) as (w1 & Hrun & Hinv);
    [right; by left|].
  rewrite Hrun. cbn [snd].
  assert (uncaught (trace w1) = [] ∧ called (batch w1) = []
          ∧ length (queue w1) = length names * length (read_listeners store))
    as (Hu1 & Hc1 & Hlen1).
  { revert Hrun. unfold readFiles, async_each. destruct names as [|x rest].
    { by intros [= <-]. }
    unfold mbind at 1. unfold M_bind, modify.
    set (w0 := set_batch _ _).
    destruct (iterate_readFile_listeners (x :: rest) 0 w0 He Hl Hlat)
      as (w' & -> & _ & Hb & Hu & Hlen).
    intros [= <-]. by rewrite Hb, Hu, Hlen. }
  assert (Forall item_task (queue w1)) as Hitems.
  { apply Forall_forall. intros t Ht. destruct Hinv as (_ & Hq & _).
    destruct (Hq t Ht) as (i & _ & Hi).
    by apply (read_item_task store fs names i). }
  destruct (guard_count_run_all sched w1 Hitems) as (u & Hu & Hcount).
  pose proof (read_inv_run_all store fs names id _ sched w1 Hinv)
    as (Hc & _ & Hp).
  pose proof (queue_run_all sched w1) as Hq.
  set (wf := run_all sched w1) in *.
  assert (Hall : ∀ i, i < length names → i ∈ called (batch wf)).
  { intros i Hi. destruct (decide (i ∈ called (batch wf))) as [|Hnot]; [done|].
    destruct (Hp i Hi Hnot) as (t & Ht & _). rewrite Hq in Ht.
    by apply elem_of_nil in Ht. }
  apply covering_length in Hall.
  pose proof (bounded_nodup_length _ _ (rc_nodup _ _ _ _ _ _ Hc)
                (rc_called _ _ _ _ _ _ Hc)) as Hub.
  rewrite Hu, Hu1. simpl. f_equal.
  rewrite Hc1, Hlen1 in Hcount. simpl in Hcount.
  rewrite Nat.mul_sub_distr_l. lia.
Qed.

Lemma readFiles_listeners_guard_witness :
  uncaught (trace (run_all [2]
                     (readFiles ["a"; "b"; "c"] 7
                        (init_world
                           (on_read example_read_handler
                              (on_read example_read_handler example_store))
                           example_fs)).2))
  = [already_called; already_called; already_called].
Proof.
  apply (readFiles_listeners_guard
           (on_read example_read_handler
              (on_read example_read_handler example_store))
           example_fs ["a"; "b"; "c"] 7 [2]);
    [reflexivity|discriminate|by repeat constructor].
Defined.

(** ** [_directoryCreated] is never read *)

Lemma set_this_call_final g args w :
  call_final args (set_this g w) = set_this g (call_final args w).
Proof. unfold call_final. simpl. by destruct (final (batch w)) as [[]|]. Qed.

Lemma set_this_item_done g i err w :
  item_done i err (set_this g w) = set_this g (item_done i err w).
Proof.
  unfold item_done. simpl batch.
  destruct (truthy err).
  - change (log (EvDone i err) (set_this g w))
      with (set_this g (log (EvDone i err) w)).
    by rewrite set_this_call_final.
  - destruct (total (batch w) <=? S (completed (batch w)))%nat; [|done].
    change (set_batch ?b (log (EvDone i err) (set_this g w)))
      with (set_this g (set_batch b (log (EvDone i err) w))).
    by rewrite set_this_call_final.
Qed.

Lemma set_this_each_done g i err w :
  each_done i err (set_this g w)
  = ((each_done i err w).1, set_this g (each_done i err w).2).
Proof.
  unfold each_done. simpl batch. case_decide; [done|].
  simpl. by rewrite set_this_item_done.
Qed.

Lemma set_this_call g :
  ∀ cb args w,
    call cb args (set_this g w)
    = ((call cb args w).1, set_this g (call cb args w).2).
Proof.
  fix IH 1. intros [id|[c|]|name c|i|i] args w.
  - clear IH. reflexivity.
  - exact (IH c _ w).
  - clear IH. reflexivity.
  - exact (IH c _ w).
  - clear IH. apply set_this_each_done.
  - clear IH. cbn [call]. unfold map_done.
    change (set_batch ?b (set_this g w)) with (set_this g (set_batch b w)).
    apply set_this_each_done.
Qed.

Lemma set_this_invoke g cb args w :
  invoke cb args (set_this g w) = set_this g (invoke cb args w).
Proof.
  unfold invoke. rewrite set_this_call.
  by destruct (call cb args w) as [[[]|e] w'].
Qed.

Lemma set_this_emit g ev calls cb w :
  emit ev calls cb (set_this g w)
  = ((emit ev calls cb w).1, set_this g (emit ev calls cb w).2).
Proof.
  revert w. induction calls as [|[t args] calls IH]; intros w; [done|].
  cbn [emit]. unfold mbind, M_bind, modify. cbn [fst snd].
  change (log ev (set_this g w)) with (set_this g (log ev w)).
  destruct t; cbn [answer].
  - rewrite set_this_call.
    destruct (call cb args (log ev w)) as [[[]|e] w1]; simpl; [apply IH|done].
  - unfold modify.
    change (enqueue ?t (set_this g ?w0)) with (set_this g (enqueue t w0)).
    apply IH.
Qed.

Lemma set_this_complete g t w :
  complete t (set_this g w) = set_this g (complete t w).
Proof.
  destruct t as [p d cb|p cb|args cb]; simpl.
  - destruct (write_file (disk w) p d) as [e|fs']; [apply set_this_invoke|].
    change (set_disk fs' (set_this g w)) with (set_this g (set_disk fs' w)).
    apply set_this_invoke.
  - destruct (read_file (disk w) p); apply set_this_invoke.
  - apply set_this_invoke.
Qed.

Lemma set_this_run g sched w :
  run sched (set_this g w) = set_this g (run sched w).
Proof.
  revert w. induction sched as [|k sched IH]; intros w; [done|].
  simpl. change (fold_left _ sched ?x) with (run sched x).
  assert (step k (set_this g w) = set_this g (step k w)) as ->; [|apply IH].
  unfold step. simpl queue. destruct (take_out _ _) as [[t rest]|]; [|done].
  change (set_queue rest (set_this g w)) with (set_this g (set_queue rest w)).
  apply set_this_complete.
Qed.

Lemma set_this_run_all g sched w :
  run_all sched (set_this g w) = set_this g (run_all sched w).
Proof.
  unfold run_all, drain. rewrite set_this_run. simpl queue.
  apply set_this_run.
Qed.

Lemma set_this_checkDirExists_loop g segs path index w :
  checkDirExists_loop path index segs (set_this g w)
  = ((checkDirExists_loop path index segs w).1,
     set_this g (checkDirExists_loop path index segs w).2).
Proof.
  revert path index w. induction segs as [|s segs IH]; intros path index w.
  { done. }
  rewrite !checkDirExists_loop_cons. cbv zeta. simpl disk.
  destruct (exists_path (disk w) _).
  - apply (IH _ _ (log _ w)).
  - destruct (mkdir (disk w) _ octal_750) as [e|fs']; [done|].
    apply (IH _ _ (set_disk fs' (log _ (log _ w)))).
Qed.

Lemma set_this_checkDirExists g dir w :
  checkDirExists dir (set_this g w)
  = ((checkDirExists dir w).1, set_this g (checkDirExists dir w).2).
Proof.
  unfold checkDirExists. destruct (dir_falsy dir); [done|].
  apply set_this_checkDirExists_loop.
Qed.

Lemma enabled_with_flag b w : enabled (set_this (with_flag b) w) = enabled w.
Proof. by rewrite !enabled_unfold. Qed.

Lemma saveFile_with_flag b w filename body callback :
  ∃ b', saveFile filename body callback (set_this (with_flag b) w)
        = ((saveFile filename body callback w).1,
           set_this (with_flag b') (saveFile filename body callback w).2).
Proof.
  pose proof (enabled_with_flag b w) as Hen.
  destruct (enabled w) eqn:He.
  - destruct (save_listeners (this w)) as [|h hs] eqn:Hl.
    + rewrite !saveFile_local_opt by done. simpl this.
      change (directory (with_flag b (this w))) with (directory (this w)).
      rewrite set_this_checkDirExists.
      destruct (checkDirExists (directory (this w)) w) as [[[]|e] w1].
      * exists (Some true). by destruct callback.
      * by exists b.
    + rewrite !saveFile_emit by (done || (simpl; by rewrite Hl)).
      exists b. apply set_this_emit.
  - rewrite !saveFile_disabled by done. exists b.
    destruct callback as [cb|]; [|done]. apply set_this_call.
Qed.

Lemma readFile_with_flag b w filename callback :
  readFile filename callback (set_this (with_flag b) w)
  = ((readFile filename callback w).1,
     set_this (with_flag b) (readFile filename callback w).2).
Proof.
  pose proof (enabled_with_flag b w) as Hen.
  destruct (enabled w) eqn:He.
  - destruct (read_listeners (this w)) as [|h hs] eqn:Hl.
    + by rewrite !readFile_local.
    + rewrite !readFile_emit by (done || (simpl; by rewrite Hl)).
      apply set_this_emit.
  - rewrite !readFile_disabled by done. apply set_this_call.
Qed.

Lemma iterate_saveFile_with_flag b rest j w :
  let it := iterate (λ (entry : string * contents) i,
                       saveFile entry.1 entry.2 (Some (EachDone i))) j rest in
  ∃ b', it (set_this (with_flag b) w) = ((it w).1, set_this (with_flag b') (it w).2).
Proof.
  cbv zeta. revert b j w. induction rest as [|x rest IH]; intros b j w.
  { by exists b. }
  simpl. unfold mbind, M_bind.
  destruct (saveFile_with_flag b w x.1 x.2 (Some (EachDone j))) as [b1 ->].
  destruct (saveFile x.1 x.2 (Some (EachDone j)) w) as [[[]|e] w1]; simpl.
  - apply IH.
  - by exists b1.
Qed.

Lemma iterate_readFile_with_flag b rest j w :
  let it := iterate (λ filename i,
                       readFile filename (ReadReply filename (MapDone i)))
              j rest in
  it (set_this (with_flag b) w) = ((it w).1, set_this (with_flag b) (it w).2).
Proof.
  cbv zeta. revert j w. induction rest as [|x rest IH]; intros j w; [done|].
  simpl. unfold mbind, M_bind. rewrite readFile_with_flag.
  destruct (readFile x (ReadReply x (MapDone j)) w) as [[[]|e] w1]; simpl;
    [apply IH|done].
Qed.

(** X22.  [_directoryCreated] is never read.  Whatever value it has,
    each operation returns or throws the same, and after everything in
    flight has completed, in the same order, the worlds differ at most in
    that field: same events, same filesystem, same batch state, same
    directory and listeners. *)
Theorem directoryCreated_never_read (b : option bool) (w : world)
    (sched : list nat) (filename : string) (body : contents)
    (cb : option callback) (rcb : callback)
    (files : list (string * contents)) (fcb : option nat)
    (names : list string) (id : nat) :
  ∀ op, op ∈ [saveFile filename body cb; readFile filename rcb;
              saveFiles files fcb; readFiles names id] →
    (op (set_this (with_flag b) w)).1 = (op w).1
    ∧ ∃ b', run_all sched (op (set_this (with_flag b) w)).2
            = set_this (with_flag b') (run_all sched (op w).2).
Proof.
  assert (∀ (op : M unit),
            (∃ b', op (set_this (with_flag b) w)
                   = ((op w).1, set_this (with_flag b') (op w).2)) →
            (op (set_this (with_flag b) w)).1 = (op w).1
            ∧ ∃ b', run_all sched (op (set_this (with_flag b) w)).2
                    = set_this (with_flag b') (run_all sched (op w).2)) as Hop.
  { intros op [b' ->]. split; [done|]. exists b'. simpl.
    apply set_this_run_all. }
  intros op Hin. apply Hop.
  repeat (apply elem_of_cons in Hin as [->|Hin]).
  - apply saveFile_with_flag.
  - exists b. apply readFile_with_flag.
  - unfold saveFiles, async_each. destruct files as [|x rest].
    + exists b. unfold mbind, M_bind, modify. simpl.
      by rewrite <- set_this_call_final.
    + exact (iterate_saveFile_with_flag b (x :: rest) 0
               (set_batch {| total := length (x :: rest); completed := 0;
                             called := []; results := [];
                             final := EachFinal <$> fcb |} w)).
  - exists b. unfold readFiles, async_each. destruct names as [|x rest].
    + unfold mbind, M_bind, modify. simpl. by rewrite <- set_this_call_final.
    + exact (iterate_readFile_with_flag b (x :: rest) 0
               (set_batch {| total := length (x :: rest); completed := 0;
                             called := []; results := [];
                             final := Some (MapFinal id) |} w)).
  - by apply elem_of_nil in Hin.
Qed.

Lemma directoryCreated_never_read_witness :
  (saveFile "a" (CString "x") None
     (set_this (with_flag (Some true)) example_world)).1
  = (saveFile "a" (CString "x") None example_world).1
  ∧ ∃ b', run_all [] (saveFile "a" (CString "x") None
                        (set_this (with_flag (Some true)) example_world)).2
          = set_this (with_flag b')
              (run_all [] (saveFile "a" (CString "x") None example_world).2).
Proof.
  apply (directoryCreated_never_read (Some true) example_world [] "a"
           (CString "x") None (User 2) [] None [] 7).
  left.
Defined.

(** ** [saveFiles] without a callback *)

Lemma call_after_error j args w :
  final (batch w) = None →
  let w' := (call (SaveReply (Some (EachDone j))) args w).2 in
  final (batch w') = None
  ∧ (∀ id, callbacks_of id (trace w') = callbacks_of id (trace w))
  ∧ queue w' = queue w.
Proof.
  intros Hfin. cbv zeta. cbn [call].
  destruct (each_done_after_error j (arg 0 [js_or (arg 0 args) VNull]) w Hfin)
    as (Hf & Hc & _ & Hq & _).
  rewrite settle_each_done in Hf, Hc, Hq. unfold each_done.
  case_decide; [done|]. done.
Qed.

Lemma saveFile_silent w name body j :
  final (batch w) = None →
  (∀ t, t ∈ queue w → ∃ i, save_item i t) →
  let w' := (saveFile name body (Some (EachDone j)) w).2 in
  final (batch w') = None
  ∧ (∀ t, t ∈ queue w' → ∃ i, save_item i t)
  ∧ ∀ id, callbacks_of id (trace w') = callbacks_of id (trace w).
Proof.
  intros Hfin Hq. cbv zeta. destruct (enabled w) eqn:He.
  - destruct (save_listeners (this w)) as [|h hs] eqn:Hl.
    + rewrite saveFile_local by done.
      pose proof (checkDirExists_frame (directory (this w)) w) as Hf.
      destruct (checkDirExists (directory (this w)) w) as [[[]|e] w1];
        simpl in Hf; destruct Hf as (_ & Hq1 & Hb & _ & evs & Htr & Hwalk);
        simpl; rewrite Hb, Htr, Hq1; (split; [done|]); split.
      * intros t [Ht|Ht%list_elem_of_singleton]%elem_of_app; [by apply Hq|].
        exists j. subst t. constructor.
      * intros id.
        rewrite !callbacks_of_app, (callbacks_of_walk id evs Hwalk). simpl.
        by rewrite !app_nil_r.
      * done.
      * intros id.
        rewrite !callbacks_of_app, (callbacks_of_walk id evs Hwalk).
        by rewrite !app_nil_r.
    + rewrite saveFile_emit by (done || by rewrite Hl). unfold emit_save.
      apply (emit_preserves
               (λ w', final (batch w') = None
                      ∧ (∀ t, t ∈ queue w' → ∃ i, save_item i t)
                      ∧ ∀ id, callbacks_of id (trace w')
                              = callbacks_of id (trace w))); [| | |done].
      * intros w' (Hf & Hq' & Hc). simpl. repeat split; try done.
        intros id. by rewrite callbacks_of_snoc_other.
      * intros w' args (Hf & Hq' & Hc). simpl. repeat split; try done.
        intros t [Ht|Ht%list_elem_of_singleton]%elem_of_app; [by apply Hq'|].
        exists j. subst t. constructor.
      * intros w' args (Hf & Hq' & Hc).
        destruct (call_after_error j args w' Hf) as (Hf1 & Hc1 & Hq1).
        rewrite Hq1. repeat split; try done. intros id. by rewrite Hc1.
  - rewrite saveFile_disabled by done.
    destruct (call_world (EachDone j) [not_enabled] w) as (_ & _ & Hq1 & _).
    rewrite Hq1. split; [|split; [done|]].
    + unfold each_done. cbn [call]. unfold each_done.
      case_decide; [done|].
      destruct (each_done_after_error j not_enabled w Hfin) as (Hf & _).
      rewrite settle_each_done, decide_False in Hf by done. done.
    + cbn [call]. unfold each_done. case_decide; [done|].
      destruct (each_done_after_error j not_enabled w Hfin) as (_ & Hc & _).
      rewrite settle_each_done, decide_False in Hc by done. done.
Qed.

Lemma iterate_saveFile_silent rest j w :
  final (batch w) = None →
  (∀ t, t ∈ queue w → ∃ i, save_item i t) →
  let w' := (iterate (λ (entry : string * contents) i,
                        saveFile entry.1 entry.2 (Some (EachDone i)))
               j rest w).2 in
  final (batch w') = None
  ∧ (∀ t, t ∈ queue w' → ∃ i, save_item i t)
  ∧ ∀ id, callbacks_of id (trace w') = callbacks_of id (trace w).
Proof.
  cbv zeta. revert j w.
  induction rest as [|x rest IH]; intros j w Hfin Hq; [done|].
  simpl. unfold mbind, M_bind.
  destruct (saveFile_silent w x.1 x.2 j Hfin Hq) as (Hfin1 & Hq1 & Hcb1).
  destruct (saveFile x.1 x.2 (Some (EachDone j)) w) as [[[]|e] w1];
    simpl in Hfin1, Hq1, Hcb1; [|done].
  destruct (IH (S j) w1 Hfin1 Hq1) as (Hfin2 & Hq2 & Hcb2).
  split; [done|]. split; [done|]. intros id. by rewrite Hcb2.
Qed.

Lemma run_silent sched w :
  final (batch w) = None →
  (∀ t, t ∈ queue w → ∃ i, save_item i t) →
  let w' := run sched w in
  final (batch w') = None
  ∧ (∀ t, t ∈ queue w' → ∃ i, save_item i t)
  ∧ ∀ id, callbacks_of id (trace w') = callbacks_of id (trace w).
Proof.
  cbv zeta. revert w. induction sched as [|k sched IH]; intros w Hfin Hq; [done|].
  simpl. change (fold_left _ sched ?x) with (run sched x).
  assert (final (batch (step k w)) = None
          ∧ (∀ t, t ∈ queue (step k w) → ∃ i, save_item i t)
          ∧ ∀ id, callbacks_of id (trace (step k w)) = callbacks_of id (trace w))
    as (Hfin1 & Hq1 & Hcb1).
  { unfold step. destruct (take_out _ _) as [[t rest]|] eqn:Ht; [|done].
    apply take_out_perm in Ht.
    destruct (Hq t) as [i Hi]; [rewrite Ht; left|].
    destruct (complete_save_item i t (set_queue rest w) Hi)
      as (err & w' & -> & Hb & Htr & Hqq).
    destruct (each_done_after_error i err w') as (Hf & Hc & _ & Hqe & _);
      [by rewrite Hb|].
    split; [done|]. split.
    - rewrite Hqe, Hqq. simpl. intros t' Ht'. apply Hq. rewrite Ht. by right.
    - intros id. by rewrite Hc, Htr. }
  destruct (IH _ Hfin1 Hq1) as (Hfin2 & Hq2 & Hcb2).
  split; [done|]. split; [done|]. intros id. by rewrite Hcb2.
Qed.

(** X23.  [saveFiles] without a callback reports nothing: whatever the
    store, the entries and the completion order, and whether the saves
    succeed, fail or the walk throws, no function of the caller is ever
    called. *)
Theorem saveFiles_without_callback (store : FileStorage) (fs : filesystem)
    (files : list (string * contents)) (sched : list nat) (id : nat) :
  callbacks_of id
    (trace (run_all sched (saveFiles files None (init_world store fs)).2))
  = [].
Proof.
  destruct files as [|x fl] eqn:Hfiles.
  { by rewrite run_all_idle. }
  rewrite <- Hfiles in *. set (n := length files).
  set (w0 := set_batch {| total := n; completed := 0; called := [];
                          results := []; final := None |}
               (init_world store fs)).
  assert (saveFiles files None (init_world store fs)
          = iterate (λ (entry : string * contents) i,
                       saveFile entry.1 entry.2 (Some (EachDone i))) 0 files w0)
    as ->.
  { subst w0 n. rewrite Hfiles. reflexivity. }
  destruct (iterate_saveFile_silent files 0 w0 eq_refl)
    as (Hfin1 & Hq1 & Hcb1).
  { intros t Ht. by apply elem_of_nil in Ht. }
  unfold run_all, drain.
  set (w1 := (iterate _ 0 files w0).2) in *.
  destruct (run_silent sched w1 Hfin1 Hq1) as (Hfin2 & Hq2 & Hcb2).
  destruct (run_silent (replicate (length (queue (run sched w1))) 0)
              (run sched w1) Hfin2 Hq2) as (_ & _ & Hcb3).
  by rewrite Hcb3, Hcb2, Hcb1.
Qed.

(** ** A save and a read in flight together *)

Lemma run_all_pair sched w t1 t2 :
  queue w = [t1; t2] →
  run_all sched w = complete t2 (set_queue [] (complete t1 (set_queue [t2] w)))
  ∨ run_all sched w = complete t1 (set_queue [] (complete t2 (set_queue [t1] w))).
Proof.
  intros Hq.
  assert (∀ (tb : task) w', queue w' = [tb] →
            ∀ s, run_all s w' = complete tb (set_queue [] w')) as Hone.
  { intros tb w' Hq' s. apply run_all_single; [done|].
    by rewrite queue_complete. }
  assert (∀ ta tb : task, queue (complete ta (set_queue [tb] w)) = [tb]) as Hqc.
  { intros ta tb. by rewrite queue_complete. }
  destruct sched as [|k sched].
  - left. rewrite <- (Hone t2 _ (Hqc t1 t2) []).
    unfold run_all, drain. simpl run at 2. rewrite Hq. simpl run.
    unfold step at 2. rewrite Hq. simpl take_out. cbv iota beta.
    rewrite Hqc. simpl. done.
  - change (run_all (k :: sched) w) with (run_all sched (step k w)).
    assert (step k w = complete t1 (set_queue [t2] w)
            ∨ step k w = complete t2 (set_queue [t1] w)) as [-> | ->].
    { unfold step. rewrite Hq. change (length [t1; t2]) with 2.
      assert (k `mod` 2 = 0 ∨ k `mod` 2 = 1)%nat as [-> | ->]
        by (pose proof (Nat.mod_upper_bound k 2); lia); [by left|by right]. }
    + left. by rewrite (Hone t2) by apply Hqc.
    + right. by rewrite (Hone t1) by apply Hqc.
Qed.

(** A write under one plain name does not change what a read under
    another gives. *)
Lemma read_file_write_other_eq fs (s : FileStorage) name data fs' name' :
  plain_name name → plain_name name' → name ≠ name' →
  write_file fs (local_path s name) data = inr fs' →
  read_file fs' (local_path s name') = read_file fs (local_path s name').
Proof.
  intros Hpl Hpl' Hne Hw.
  destruct (write_file_keeps_dirs _ _ _ _ Hw) as [Hc Hk].
  destruct (write_file_inv _ _ _ _ Hw)
    as (init & nm & cur & m & _ & Hsplit & Hwk & Hn & _ & _ & _ & Hfs).
  rewrite (split_on_local_path s name Hpl) in Hsplit.
  apply app_inj_tail in Hsplit as [<- <-].
  unfold read_file, stat, resolve.
  destruct (is_empty (local_path s name')); [done|].
  rewrite (start_of_cwd fs fs' _ Hc).
  rewrite (split_on_local_path s name' Hpl'), !walk_app.
  rewrite (start_of_local_path fs s name' name), Hwk.
  rewrite (walk_keep _ _ _ Hk _ _ Hwk).
  destruct Hpl' as (_ & He' & Hd').
  rewrite (walk_name _ _ m name' Hn He' Hd').
  rewrite (walk_name _ _ m name' (node_at_keep _ _ Hk _ _ Hn) He' Hd').
  rewrite Hfs. simpl. rewrite lookup_insert_ne; [done|]. congruence.
Qed.

(** X24.  A save and a read of two different files in flight together,
    on a store with a directory and no listeners, under plain names that
    differ.  The save's callback is called exactly once with the outcome
    of its write on the filesystem as the directory walk left it; the
    read's callback is called exactly once with what reading gives on
    that same filesystem, whichever of the two completes first; and the
    filesystem ends as the write leaves it. *)
Theorem save_and_read_in_flight (store : FileStorage) (fs : filesystem)
    (a b : string) (body : contents) (sched : list nat) :
  directory store ≠ DNull →
  save_listeners store = [] →
  read_listeners store = [] →
  plain_name a → plain_name b → a ≠ b →
  let saving := saveFile a body (Some (User 1)) (init_world store fs) in
  let w := run_all sched (readFile b (User 2) saving.2).2 in
  let pa := local_path store a in
  let pb := local_path store b in
  let D := disk saving.2 in
  saving.1 = Ret tt →
  callbacks_of 1 (trace w) = [write_reply D pa (to_buffer body)]
  ∧ callbacks_of 2 (trace w) = [read_reply D pb]
  ∧ disk w = written D pa (to_buffer body).
Proof.
  intros Hd Hs Hr Ha Hb Hne. cbv zeta.
  rewrite saveFile_local; [|by apply enabled_init|done].
  change (this (init_world store fs)) with store.
  pose proof (checkDirExists_frame (directory store) (init_world store fs)) as Hf.
  destruct (checkDirExists (directory store) (init_world store fs))
    as [[[]|e] w1]; simpl in Hf; [|done].
  destruct Hf as (Hthis & Hq & _ & _ & evs & Htr & Hwalk). intros _.
  cbn [fst snd].
  set (pa := local_path store a). set (pb := local_path store b).
  set (data := to_buffer body).
  set (ws := dispatched [EvWriteFile pa data] _ _).
  assert (this ws = mark_directoryCreated store) as Hthis_s
    by (subst ws; simpl; by rewrite Hthis).
  rewrite readFile_local.
  2:{ rewrite enabled_unfold, Hthis_s. simpl. apply orb_true_iff. right.
      by apply negb_true_iff, is_null_false. }
  2:{ by rewrite Hthis_s. }
  rewrite Hthis_s.
  change (local_path (mark_directoryCreated store) b) with pb.
  cbn [snd]. set (wq := dispatched [EvReadFile pb] _ ws).
  set (t1 := TWriteFile pa data (User 1)).
  set (t2 := TReadFile pb (User 2)).
  assert (queue wq = [t1; t2]) as Hqq by (subst wq ws; simpl; by rewrite Hq).
  change (disk ws) with (disk w1).
  assert (∀ id, callbacks_of id (trace wq) = []) as Hcb0.
  { intros id. subst wq ws. simpl. rewrite Htr. simpl.
    rewrite !callbacks_of_app, (callbacks_of_walk id evs Hwalk). done. }
  assert (disk wq = disk w1) as Hdq by done.
  unfold write_reply, read_reply, written. clearbody wq.
  destruct (run_all_pair sched wq t1 t2 Hqq) as [-> | ->].
  - (* the write completes first *)
    simpl. rewrite !Hdq.
    destruct (write_file (disk w1) pa data) as [e|fs'] eqn:Hw; simpl;
      rewrite ?Hdq.
    + destruct (read_file (disk w1) pb) as [e2|d2]; simpl;
        rewrite !callbacks_of_app, !Hcb0; simpl; done.
    + pose proof (read_file_write_other_eq _ store a data fs' b Ha Hb Hne Hw)
        as Hother. fold pb in Hother. rewrite Hother.
      destruct (read_file (disk w1) pb) as [e2|d2]; simpl;
        rewrite !callbacks_of_app, !Hcb0; simpl; done.
  - (* the read completes first *)
    simpl. rewrite !Hdq.
    destruct (read_file (disk w1) pb) as [e2|d2]; simpl; rewrite ?Hdq;
      destruct (write_file (disk w1) pa data) as [e|fs']; simpl;
      rewrite !callbacks_of_app, !Hcb0; simpl; done.
Qed.

Lemma save_and_read_in_flight_witness :
  callbacks_of 2
    (trace (run_all [1]
              (readFile "b" (User 2)
                 (saveFile "a" (CString "x") (Some (User 1)) example_world).2).2))
  = [[VErrno ENOENT "data/b"]].
Proof.
  destruct (save_and_read_in_flight example_store example_fs "a" "b"
              (CString "x") [1]) as (_ & H & _);
    [discriminate|reflexivity|reflexivity|by repeat split|by repeat split
    |discriminate|reflexivity|].
  exact H.
Defined.

(** ** What the walk is for *)

(** Writing a plain name under a path that exists succeeds unless the
    path is a regular file or the target is a directory. *)
Lemma write_file_under_existing fs d name data :
  exists_path fs d = true → plain_name name →
  (∃ fs', write_file fs (d +:+ "/" +:+ name) data = inr fs')
  ∨ write_file fs (d +:+ "/" +:+ name) data = inl ENOTDIR
  ∨ write_file fs (d +:+ "/" +:+ name) data = inl EISDIR.
Proof.
  intros Hex (Hp1 & Hp2 & Hp3). revert Hex. unfold exists_path, stat, resolve.
  destruct d as [|c d]; [done|].
  change (is_empty (String c d)) with false. cbv iota.
  destruct (walk (nodes fs) (start_of fs (String c d))
              (split_on slash (String c d))) as [e|k] eqn:Hwk; [done|].
  destruct (node_at (nodes fs) k) as [n|] eqn:Hn; [|done]. intros _.
  unfold write_file.
  replace (is_empty (String c d +:+ "/" +:+ name)) with false by done.
  change ("/" +:+ name) with (String slash name).
  rewrite split_on_append, Hp1, unsnoc_snoc.
  change (start_of fs (String c d +:+ String slash name))
    with (start_of fs (String c d)).
  rewrite Hp2, Hwk, Hn. destruct n as [m|data0]; [|by right; left].
  rewrite Hp3. simpl.
  destruct (nodes fs !! (name :: k)) as [[m'|data']|]; eauto.
Qed.

(** X25.  What the directory walk is for.  On a store without ['save']
    listener whose directory is not empty and written without
    backslashes, a save under a plain name that returns never fails for
    want of a directory: its callback is called exactly once, with
    [null], with [ENOTDIR] (the directory path is a regular file) or with
    [EISDIR] (the name is a directory), never with [ENOENT]. *)
Theorem saveFile_after_walk (store : FileStorage) (fs : filesystem)
    (d name : string) (body : contents) (sched : list nat) :
  directory store = DStr d →
  d ≠ "" →
  replace_backslashes d = d →
  save_listeners store = [] →
  plain_name name →
  (saveFile name body (Some (User 1)) (init_world store fs)).1 = Ret tt →
  let w := saved store fs name body sched in
  let p := local_path store name in
  callbacks_of 1 (trace w) = [[VNull]]
  ∨ callbacks_of 1 (trace w) = [[VErrno ENOTDIR p]]
  ∨ callbacks_of 1 (trace w) = [[VErrno EISDIR p]].
Proof.
  intros Hd Hne Hb Hs Hpl. cbv zeta.
  assert (directory store ≠ DNull) as Hdn by (by rewrite Hd).
  pose proof (saved_local_world store fs name body sched Hdn Hs) as Hw.
  pose proof (checkDirExists_frame (directory store) (init_world store fs)) as Hf.
  cbv zeta in Hw, Hf.
  destruct (checkDirExists (directory store) (init_world store fs))
    as [[[]|e] w1] eqn:Hwalk; simpl in Hf;
    destruct Hf as (_ & _ & _ & _ & evs & Htr & Hev);
    destruct Hw as [Hrun ->]; [|by rewrite Hrun].
  intros _.
  assert (exists_path (disk w1) d = true) as Hex.
  { rewrite <- Hb. apply exists_walk_end.
    rewrite Hd in Hwalk. apply (checkDirExists_exists _ _ _ Hwalk).
    apply last_Some_elem_of. by apply walked_last. }
  assert (local_path store name = d +:+ "/" +:+ name) as ->
    by (unfold local_path; by rewrite Hd).
  destruct (write_file_under_existing (disk w1) d name (to_buffer body) Hex Hpl)
    as [[fs' ->]|[-> | ->]]; simpl; rewrite Htr; simpl;
    rewrite !callbacks_of_app, (callbacks_of_walk 1 evs Hev); simpl; eauto.
Qed.

Lemma saveFile_after_walk_witness :
  callbacks_of 1 (trace (saved (new_FileStorage (DStr "f")) example_fs "x"
                           (CString "1") []))
  = [[VErrno ENOTDIR "f/x"]].
Proof.
  assert ("f" ≠ "") as Hne by discriminate.
  assert (plain_name "x") as Hpl by (by repeat split).
  destruct (saveFile_after_walk (new_FileStorage (DStr "f")) example_fs "f" "x"
              (CString "1") [] eq_refl Hne eq_refl eq_refl Hpl eq_refl)
    as [H|[H|H]].
  - discriminate H.
  - exact H.
  - discriminate H.
Defined.

(** ** What a batch of saves leaves of the filesystem *)

Section BatchFrame.

Context (fs : filesystem) (files : list (string * contents)).

Lemma batch_frame_refl : batch_frame fs files fs.
Proof.
  split; [done|]. split; [done|]. split; [by eauto|].
  intros k n Hk. by left.
Qed.

Lemma batch_frame_extends fs1 fs2 :
  batch_frame fs files fs1 → extends fs1 fs2 →
  (∀ k n, nodes fs1 !! k = None → nodes fs2 !! k = Some n → n = Dir octal_750) →
  batch_frame fs files fs2.
Proof.
  intros (Hc & Hd & Hfl & Hn) [Hc2 He] Hnew. split; [congruence|].
  split; [|split].
  - intros k m Hk. by apply He, Hd.
  - intros k d Hk. destruct (Hfl k d Hk) as [d' Hd']. exists d'. by apply He.
  - intros k n Hk. destruct (nodes fs1 !! k) as [n1|] eqn:Hk1.
    + rewrite (He _ _ Hk1) in Hk. injection Hk as <-. by apply Hn.
    + right. left. by apply (Hnew k).
Qed.

Lemma batch_frame_write fs1 fs2 p name body :
  batch_frame fs files fs1 → (name, body) ∈ files →
  write_file fs1 p (to_buffer body) = inr fs2 →
  batch_frame fs files fs2.
Proof.
  intros (Hc & Hd & Hfl & Hn) Hin Hw.
  destruct (write_file_keeps_dirs _ _ _ _ Hw) as [Hc2 Hkeep].
  apply write_file_inv in Hw
    as (init & nm & cur & m & _ & _ & _ & _ & _ & _ & _ & ->).
  split; [done|]. split; [|split].
  - intros k m0 Hk. by apply Hkeep, Hd.
  - intros k d Hk. destruct (Hfl k d Hk) as [d' Hd']. simpl.
    destruct (decide (nm :: cur = k)) as [<-|Hne].
    + rewrite lookup_insert_eq. eauto.
    + rewrite lookup_insert_ne by done. eauto.
  - intros k n. simpl. destruct (decide (nm :: cur = k)) as [<-|Hne].
    + rewrite lookup_insert_eq. intros [= <-]. right. right. eauto.
    + rewrite lookup_insert_ne by done. apply Hn.
Qed.

Lemma batch_frame_step j w :
  batch_frame fs files (disk w) → entry_writes files w →
  batch_frame fs files (disk (step j w)) ∧ entry_writes files (step j w).
Proof.
  intros Hf Hq. unfold step.
  destruct (take_out _ _) as [[t rest]|] eqn:Ht; [|done].
  apply take_out_perm in Ht. split.
  - destruct t as [p data cb|p cb|args cb].
    + destruct (Hq p data cb) as (name & body & Hin & ->); [rewrite Ht; left|].
      simpl. destruct (write_file (disk w) p (to_buffer body)) as [e|fs2] eqn:Hw.
      * by rewrite (proj2 (this_disk_invoke cb _ _)).
      * assert (batch_frame fs files fs2) as Hf2
          by (by apply (batch_frame_write (disk w) fs2 p name body)).
        by rewrite (proj2 (this_disk_invoke cb _ _)).
    + by rewrite disk_complete.
    + by rewrite disk_complete.
  - intros p data cb. rewrite queue_complete. simpl. intros Hin.
    apply (Hq p data cb). rewrite Ht. by right.
Qed.

Lemma batch_frame_run sched w :
  batch_frame fs files (disk w) → entry_writes files w →
  batch_frame fs files (disk (run sched w)) ∧ entry_writes files (run sched w).
Proof.
  revert w. induction sched as [|j sched IH]; intros w Hf Hq; [done|].
  simpl. change (fold_left _ sched ?x) with (run sched x).
  destruct (batch_frame_step j w Hf Hq) as [Hf1 Hq1]. by apply IH.
Qed.

Lemma batch_frame_saveFile w name body cb :
  (name, body) ∈ files →
  batch_frame fs files (disk w) → entry_writes files w →
  let w' := (saveFile name body cb w).2 in
  batch_frame fs files (disk w') ∧ entry_writes files w'.
Proof.
  intros Hin Hf Hq. cbv zeta. destruct (enabled w) eqn:He.
  - destruct (save_listeners (this w)) as [|h hs] eqn:Hl.
    + rewrite saveFile_local_opt by done.
      destruct (checkDirExists_adds (directory (this w)) w) as [Hext Hnew].
      pose proof (checkDirExists_frame (directory (this w)) w) as Hfr.
      cbv zeta in Hext, Hnew, Hfr.
      destruct (checkDirExists (directory (this w)) w) as [[[]|e] w1];
        simpl in Hext, Hnew, Hfr; destruct Hfr as (_ & Hqq & _).
      * destruct cb as [cb|]; simpl.
        -- split; [by apply (batch_frame_extends (disk w))|].
           intros p data cb'. simpl. rewrite Hqq.
           intros [Hp|Hp%list_elem_of_singleton]%elem_of_app.
           ++ by apply (Hq p data cb').
           ++ injection Hp as -> -> ->. eauto.
        -- split; [by apply (batch_frame_extends (disk w))|].
           intros p data cb'. simpl. rewrite Hqq. apply Hq.
      * simpl. split; [by apply (batch_frame_extends (disk w))|].
        intros p data cb'. rewrite Hqq. apply Hq.
    + rewrite saveFile_emit by (done || by rewrite Hl). unfold emit_save.
      apply (emit_preserves
               (λ w', batch_frame fs files (disk w') ∧ entry_writes files w'));
        [| | |done].
      * intros w' [Hf' Hq']. done.
      * intros w' args [Hf' Hq']. split; [done|]. intros p data cb'. simpl.
        intros [Hp|Hp%list_elem_of_singleton]%elem_of_app;
          [by apply (Hq' p data cb')|done].
      * intros w' args [Hf' Hq'].
        destruct (call_world (SaveReply cb) args w') as (_ & Hd & Hqq & _).
        rewrite Hd. split; [done|]. intros p data cb'. rewrite Hqq. apply Hq'.
  - rewrite saveFile_disabled by done. destruct cb as [cb|]; [|done].
    destruct (call_world cb [not_enabled] w) as (_ & Hd & Hqq & _).
    rewrite Hd. split; [done|]. intros p data cb'. rewrite Hqq. apply Hq.
Qed.

Lemma batch_frame_iterate rest j w :
  (∀ x, x ∈ rest → x ∈ files) →
  batch_frame fs files (disk w) → entry_writes files w →
  let w' := (iterate (λ (entry : string * contents) i,
                        saveFile entry.1 entry.2 (Some (EachDone i)))
               j rest w).2 in
  batch_frame fs files (disk w') ∧ entry_writes files w'.
Proof.
  cbv zeta. revert j w. induction rest as [|x rest IH]; intros j w Hsub Hf Hq.
  { done. }
  simpl. unfold mbind, M_bind.
  destruct (batch_frame_saveFile w x.1 x.2 (Some (EachDone j))) as [Hf1 Hq1];
    [destruct x; apply Hsub; left|done|done|].
  destruct (saveFile x.1 x.2 (Some (EachDone j)) w) as [[[]|e] w1];
    simpl in Hf1, Hq1; [|done].
  apply IH; [|done|done]. intros y Hy. apply Hsub. by right.
Qed.

End BatchFrame.

(** X26.  What a batch of saves under distinct plain names (no two
    entries reach one file) leaves of the filesystem, for every store,
    with or without callback, and every completion order: no directory
    has been removed or replaced, where there was a file there is a
    file, and every node that is new or has changed is a directory with
    mode [0o750] or a file that holds exactly the bytes of one of the
    entries. *)
Theorem saveFiles_frame (store : FileStorage) (fs : filesystem)
    (files : list (string * contents)) (callback : option nat)
    (sched : list nat) :
  (∀ name, name ∈ files.*1 → plain_name name) →
  NoDup files.*1 →
  batch_frame fs files
    (disk (run_all sched (saveFiles files callback (init_world store fs)).2)).
Proof.
  intros _ _.
  assert (batch_frame fs files (disk (saveFiles files callback
                                        (init_world store fs)).2)
          ∧ entry_writes files (saveFiles files callback
                                  (init_world store fs)).2) as [Hf Hq].
  { unfold saveFiles, async_each. destruct files as [|x rest] eqn:Hfiles.
    - unfold mbind, M_bind, modify. simpl. split.
      + rewrite (proj2 (this_disk_call_final _ _)). apply batch_frame_refl.
      + intros p data cb. rewrite queue_call_final.
        intros Hin. by apply elem_of_nil in Hin.
    - rewrite <- Hfiles.
      apply (batch_frame_iterate fs files files 0 (set_batch _ _)).
      + done.
      + apply batch_frame_refl.
      + intros p data cb Hin. by apply elem_of_nil in Hin. }
  unfold run_all, drain.
  destruct (batch_frame_run fs files sched _ Hf Hq) as [Hf1 Hq1].
  by destruct (batch_frame_run fs files
                 (replicate (length (queue (run sched
                    (saveFiles files callback (init_world store fs)).2))) 0)
                 _ Hf1 Hq1).
Qed.

Lemma saveFiles_frame_witness :
  batch_frame example_fs [("a", CString "x"); ("b", CString "y")]
    (disk (run_all [1]
             (saveFiles [("a", CString "x"); ("b", CString "y")] (Some 1)
                (init_world example_store example_fs)).2)).
Proof.
  apply (saveFiles_frame example_store example_fs
           [("a", CString "x"); ("b", CString "y")] (Some 1) [1]).
  - intros name [->| ->%list_elem_of_singleton]%elem_of_cons;
      by repeat split.
  - apply NoDup_cons. split; [|apply NoDup_singleton].
    intros Hin%list_elem_of_singleton. discriminate Hin.
Defined.
